(** * PaperSmith: the block-boundary repair engine of [SmartEditor]

    A shallow embedding of the auto-formatting methods of the class
    [SmartEditor] in [PaperSmith.py]:

    - [identify_block_type], [get_indent], [check_conflict]
    - [auto_fix_spacing]
    - [keyPressEvent] with [remove_current_line_marker] and
      [insert_new_line_with_prefix]
    - [check_task_toggle]

    and of the methods of [MarkdownEditor] that edit the text of its
    editor or read it:

    - [get_line_type], [is_render_conflict] and the line preprocessing of
      [update_preview]
    - [apply_heading], [insert_formatting], [apply_list_prefix]
    - [get_suggested_filename]

    Text model.  A Python [str] is a [list ascii]: the characters are the
    code points 0..255, one UTF-16 unit each, so that Python's [len] and the
    offsets of [QTextCursor] count the same thing.  The buffer of the
    [QTextEdit] is its plain text; the blocks of the [QTextDocument] are the
    pieces of that text between line feeds, and a cursor is a pair of
    offsets (anchor, position) into it.  (Qt makes a block separator of
    every carriage return it is given, so none ever stands in a document;
    here it is a white space character like the others.)

    Signals.  A method is modelled by its body.  That [textChanged] and
    [cursorPositionChanged] are connected to [auto_fix_spacing] and
    [check_task_toggle] is the business of Qt: the three entry points are
    separate functions on the state of the editor, and the one signal a
    method emits by hand is part of its result. *)

From Stdlib Require Import Ascii String Bool Arith Lia NArith List.
From Stdlib Require Import Sorting.Sorted.
From Stdlib Require Import Numbers.DecimalString.
From Stdlib Require Import Numbers.DecimalN Numbers.DecimalPos.
Import ListNotations.

Local Open Scope list_scope.

(** ** Python strings *)

Module Py.

Definition str := list ascii.

(** String literals of the source. *)
Definition lit (s : string) : str := list_ascii_of_string s.

(** [str.isspace] of one character, which is also the class [\s] of [re]
    on [str] patterns.  On the code points 0..255 these are
    U+0009..U+000D, U+001C..U+001F, U+0020, U+0085 and U+00A0. *)
Definition isspace (c : ascii) : bool :=
  let n := nat_of_ascii c in
  ((9 <=? n) && (n <=? 13)) || ((28 <=? n) && (n <=? 32))
  || (n =? 133) || (n =? 160).

(** The class [\d] of [re]: on the code points 0..255 the decimal digits
    are 0..9. *)
Definition isdigit (c : ascii) : bool :=
  let n := nat_of_ascii c in (48 <=? n) && (n <=? 57).

Fixpoint take_while (p : ascii -> bool) (s : str) : str :=
  match s with
  | c :: s' => if p c then c :: take_while p s' else []
  | [] => []
  end.

Fixpoint drop_while (p : ascii -> bool) (s : str) : str :=
  match s with
  | c :: s' => if p c then drop_while p s' else s
  | [] => []
  end.

Definition lstrip (s : str) : str := drop_while isspace s.
Definition rstrip (s : str) : str := rev (drop_while isspace (rev s)).
Definition strip (s : str) : str := rstrip (lstrip s).

Fixpoint startswith (s prefix : str) : bool :=
  match prefix, s with
  | [], _ => true
  | p :: prefix', c :: s' => Ascii.eqb c p && startswith s' prefix'
  | _ :: _, [] => false
  end.

Definition str_eqb (a b : str) : bool :=
  if list_eq_dec ascii_dec a b then true else false.

(** [int(s)] on a run of decimal digits (of any length: the limit that
    Python puts on the number of digits is not modelled). *)
Definition int (digits : str) : N :=
  fold_left (fun acc c => (10 * acc + (N_of_ascii c - 48))%N) digits 0%N.

(** [f"{n}"] for a non-negative integer. *)
Definition format_int (n : N) : str :=
  lit (NilEmpty.string_of_uint (N.to_uint n)).

(** [s.strip(chars)] *)
Definition strip_chars (chars : string) (s : str) : str :=
  let drop := fun c => existsb (Ascii.eqb c) (list_ascii_of_string chars) in
  rev (drop_while drop (rev (drop_while drop s))).

End Py.

(** ** The regular expressions of [SmartEditor]

    Each pattern of the source is anchored at the start of the string and
    has nothing to backtrack into: every starred class is followed by a
    character outside that class (or by the end of the pattern), so the
    greedy run is the only candidate.  The matchers below read the string
    left to right accordingly; a match returns the groups the source uses.
    In the comments a star right before a closing parenthesis is written
    [{0,}]. *)

Module Re.
Import Py.

Definition one_of (cs : string) (c : ascii) : bool :=
  existsb (Ascii.eqb c) (list_ascii_of_string cs).

(** [re.match(r'^#{1,6}\s', s)] *)
Definition heading (s : str) : bool :=
  let hashes := take_while (Ascii.eqb "#") s in
  (1 <=? length hashes) && (length hashes <=? 6)
  && match drop_while (Ascii.eqb "#") s with
     | c :: _ => isspace c
     | [] => false
     end.

(** [re.match(r'^[-*]\s\[[xX ]\]', s)] *)
Definition task (s : str) : bool :=
  match s with
  | b :: w :: l :: c :: r :: _ =>
      one_of "-*" b && isspace w && Ascii.eqb l "[" && one_of "xX " c
      && Ascii.eqb r "]"
  | _ => false
  end.

(** [re.match(r'^[-*+]\s', s)] *)
Definition ul (s : str) : bool :=
  match s with
  | b :: w :: _ => one_of "-*+" b && isspace w
  | _ => false
  end.

(** [re.match(r'^\d+\.', s)] *)
Definition ol (s : str) : bool :=
  match take_while isdigit s, drop_while isdigit s with
  | _ :: _, c :: _ => Ascii.eqb c "."
  | _, _ => false
  end.

(** [re.match(r'^[-*_]{3,}$', s)]; the subject is a stripped string, so
    [$] can only match at its very end. *)
Definition hr (s : str) : bool :=
  (3 <=? length s) && forallb (one_of "-*_") s.

(** [re.match(r'^(\s{0,})', s)]: group 1. *)
Definition leading_space (s : str) : str := take_while isspace s.

(** The groups of a list-prefix match of [keyPressEvent]:
    [group(0)], [group(1)] and [group(2)]. *)
Record prefix_match := PrefixMatch {
  group0 : str;
  group1 : str;
  group2 : str
}.

(** [re.match(r'^(\s{0,})([-*]) \[[xX ]\]\s+', s)] *)
Definition task_prefix (s : str) : option prefix_match :=
  let indent := take_while isspace s in
  match drop_while isspace s with
  | b :: sp :: l :: c :: r :: rest =>
      if one_of "-*" b && Ascii.eqb sp " " && Ascii.eqb l "["
         && one_of "xX " c && Ascii.eqb r "]"
      then match take_while isspace rest with
           | [] => None
           | ws => Some (PrefixMatch (indent ++ [b; sp; l; c; r] ++ ws)
                                     indent [b])
           end
      else None
  | _ => None
  end.

(** [re.match(r'^(\s{0,})([-*+])\s+', s)] *)
Definition ul_prefix (s : str) : option prefix_match :=
  let indent := take_while isspace s in
  match drop_while isspace s with
  | b :: rest =>
      if one_of "-*+" b
      then match take_while isspace rest with
           | [] => None
           | ws => Some (PrefixMatch (indent ++ [b] ++ ws) indent [b])
           end
      else None
  | [] => None
  end.

(** [re.match(r'^(\s{0,})(\d+)\.\s+', s)] *)
Definition ol_prefix (s : str) : option prefix_match :=
  let indent := take_while isspace s in
  let r := drop_while isspace s in
  match take_while isdigit r, drop_while isdigit r with
  | (_ :: _) as digits, dot :: rest =>
      if Ascii.eqb dot "."
      then match take_while isspace rest with
           | [] => None
           | ws => Some (PrefixMatch (indent ++ digits ++ [dot] ++ ws)
                                     indent digits)
           end
      else None
  | _, _ => None
  end.

(** The match of [check_task_toggle]:
    [re.search(r'^(\s*[-*]\s{0,})\[([ xX]{0,})\]', s)], with [group(1)],
    [group(2)] and [match.end()]. *)
Record checkbox_match := CheckboxMatch {
  marker : str;
  content : str;
  match_end : nat
}.

Definition checkbox (s : str) : option checkbox_match :=
  let indent := take_while isspace s in
  match drop_while isspace s with
  | b :: rest =>
      if one_of "-*" b
      then
        let gap := take_while isspace rest in
        match drop_while isspace rest with
        | l :: rest' =>
            if Ascii.eqb l "["
            then
              let inner := take_while (one_of " xX") rest' in
              match drop_while (one_of " xX") rest' with
              | r :: _ =>
                  if Ascii.eqb r "]"
                  then
                    let g1 := indent ++ [b] ++ gap in
                    Some (CheckboxMatch g1 inner
                            (length g1 + 1 + length inner + 1))
                  else None
              | [] => None
              end
            else None
        | [] => None
        end
      else None
  | [] => None
  end.

(** The patterns of [MarkdownEditor]. *)

(** [re.match(r'^[-*] \[[xX ]\]', s)] *)
Definition task_literal (s : str) : bool :=
  match s with
  | b :: sp :: l :: c :: r :: _ =>
      one_of "-*" b && Ascii.eqb sp " " && Ascii.eqb l "[" && one_of "xX " c
      && Ascii.eqb r "]"
  | _ => false
  end.

(** [re.match(r'^[-*+] ', s)] *)
Definition ul_literal (s : str) : bool :=
  match s with
  | b :: sp :: _ => one_of "-*+" b && Ascii.eqb sp " "
  | _ => false
  end.

(** [re.sub(r'^#+\s*', '', s)]: the pattern can match at the start of the
    string only, so at most one match is replaced. *)
Definition sub_heading_marks (s : str) : str :=
  match take_while (Ascii.eqb "#") s with
  | [] => s
  | _ :: _ => drop_while isspace (drop_while (Ascii.eqb "#") s)
  end.

(** [re.match(r'^(\s{0,})([-*+]|\d+\.|[-*+] \[[ xX]\])\s', s)], the
    [list_pattern] of [apply_list_prefix].  After the indent stands a
    bullet or a digit: after a bullet the match needs a white space
    character (the third alternative asks for more than the first and
    cannot succeed when the first fails), after digits a dot and a white
    space character. *)
Definition list_pattern (s : str) : bool :=
  let r := drop_while isspace s in
  match r with
  | b :: rest =>
      if one_of "-*+" b
      then match rest with
           | w :: _ => isspace w
           | [] => false
           end
      else match take_while isdigit r, drop_while isdigit r with
           | _ :: _, dot :: w :: _ => Ascii.eqb dot "." && isspace w
           | _, _ => false
           end
  | [] => false
  end.

(** [re.sub(r'^(\s{0,})(\d+\.|[-*+]|[-*+] \[[ xX]\])\s+', r'\1', s)]:
    the marker after the indent and the white space after the marker are
    dropped.  The pattern can match at the start of the string only; its
    third alternative is never reached with success, since it needs a
    space after the bullet, with which the second succeeds. *)
Definition sub_list_marker (s : str) : str :=
  let indent := take_while isspace s in
  let r := drop_while isspace s in
  match r with
  | b :: rest =>
      if one_of "-*+" b
      then match take_while isspace rest with
           | [] => s
           | _ :: _ => indent ++ drop_while isspace rest
           end
      else match take_while isdigit r, drop_while isdigit r with
           | _ :: _, dot :: rest' =>
               if Ascii.eqb dot "."
               then match take_while isspace rest' with
                    | [] => s
                    | _ :: _ => indent ++ drop_while isspace rest'
                    end
               else s
           | _, _ => s
           end
  | [] => s
  end.

(** One attempt of [rf'^{"#" * i}\s+(.+)$'] at the start of a line, the
    rest of the text being [s]: [group(1)] of the match.  After the [i]
    hashes comes a run of white space, which may go over line ends, and
    then the rest of a line.  When the white space runs to the end of the
    text, the engine gives back the end of the run until a character other
    than a line feed is left for the group. *)
Definition heading_title_here (i : nat) (s : str) : option str :=
  if startswith s (repeat "#"%char i) then
    let after := skipn i s in
    match take_while isspace after with
    | [] => None
    | (_ :: w') =>
        match drop_while isspace after with
        | (_ :: _) as r =>
            Some (take_while (fun c => negb (Ascii.eqb c "010")) r)
        | [] =>
            match drop_while (fun c => Ascii.eqb c "010") (rev w') with
            | c :: _ => Some [c]
            | [] => None
            end
        end
    end
  else None.

(** [re.search(rf'^{"#" * i}\s+(.+)$', s, re.MULTILINE)]: the attempts at
    the starts of the lines, first to last. *)
Fixpoint heading_title (i : nat) (line_start : bool) (s : str)
  : option str :=
  match (if line_start then heading_title_here i s else None) with
  | Some g => Some g
  | None =>
      match s with
      | [] => None
      | c :: s' => heading_title i (Ascii.eqb c "010") s'
      end
  end.

End Re.

(** ** The editing surface: [QTextDocument] and [QTextCursor]

    Only what [SmartEditor] calls.  The document is its plain text; its
    blocks are the runs between line feeds (there is always at least one),
    and the position of a block is the offset of its first character.  A
    block has one more position than its text has characters: the block
    separator, or the end of the document. *)

Module Qt.
Import Py.

Definition LF : ascii := "010"%char.

(** The texts of the blocks of a document, first to last:
    [doc.begin()], [block.next()], [block.text()]. *)
Fixpoint blocks (t : str) : list str :=
  match t with
  | [] => [[]]
  | c :: t' =>
      if Ascii.eqb c LF then [] :: blocks t'
      else match blocks t' with
           | b :: bs => (c :: b) :: bs
           | [] => [[c]]
           end
  end.

(** [toPlainText]: the block texts joined by line feeds. *)
Fixpoint toPlainText (bs : list str) : str :=
  match bs with
  | [] => []
  | [b] => b
  | b :: rest => b ++ LF :: toPlainText rest
  end.

(** A block as the scan sees it: [block.position()] and [block.text()]. *)
Record QTextBlock := Block {
  block_position : nat;
  block_text : str
}.

(** [block.length()] counts the separator. *)
Definition block_length (b : QTextBlock) : nat := length (block_text b) + 1.

Fixpoint layout (start : nat) (bs : list str) : list QTextBlock :=
  match bs with
  | [] => []
  | b :: rest => Block start b :: layout (start + length b + 1) rest
  end.

(** All the blocks of a document with their positions. *)
Definition document (t : str) : list QTextBlock := layout 0 (blocks t).

(** [QTextDocument.findBlock]: the block whose positions include [pos];
    the last block for a position past the end. *)
Fixpoint findBlock (bs : list QTextBlock) (pos : nat) : QTextBlock :=
  match bs with
  | [] => Block 0 []
  | b :: rest =>
      match rest with
      | [] => b
      | _ :: _ =>
          if pos <? block_position b + block_length b then b
          else findBlock rest pos
      end
  end.

Record QTextCursor := Cursor {
  anchor : nat;
  position : nat
}.

Definition hasSelection (c : QTextCursor) : bool :=
  negb (anchor c =? position c).

Definition selectionStart (c : QTextCursor) : nat :=
  Nat.min (anchor c) (position c).
Definition selectionEnd (c : QTextCursor) : nat :=
  Nat.max (anchor c) (position c).

(** [cursor.block()] *)
Definition block (t : str) (c : QTextCursor) : QTextBlock :=
  findBlock (document t) (position c).

(** [cursor.positionInBlock()] *)
Definition positionInBlock (t : str) (c : QTextCursor) : nat :=
  position c - block_position (block t c).

(** [cursor.setPosition(pos)]: a position outside the document is
    refused and the cursor stays where it is. *)
Definition setPosition (t : str) (pos : nat) (c : QTextCursor)
  : QTextCursor :=
  if pos <=? length t then Cursor pos pos else c.

(** [cursor.setPosition(pos, QTextCursor.MoveMode.KeepAnchor)] *)
Definition setPosition_KeepAnchor (t : str) (pos : nat) (c : QTextCursor)
  : QTextCursor :=
  if pos <=? length t then Cursor (anchor c) pos else c.

(** [cursor.removeSelectedText()] *)
Definition removeSelectedText (t : str) (c : QTextCursor)
  : str * QTextCursor :=
  (firstn (selectionStart c) t ++ skipn (selectionEnd c) t,
   Cursor (selectionStart c) (selectionStart c)).

(** [cursor.insertText(s)]: the selection, if any, is replaced; the
    cursor ends after the inserted text.  Every string the editor inserts
    is a line feed or free of line breaks. *)
Definition insertText (s : str) (t : str) (c : QTextCursor)
  : str * QTextCursor :=
  (firstn (selectionStart c) t ++ s ++ skipn (selectionEnd c) t,
   Cursor (selectionStart c + length s) (selectionStart c + length s)).

(** [cursor.insertBlock()]: a block separator at the cursor. *)
Definition insertBlock (t : str) (c : QTextCursor) : str * QTextCursor :=
  insertText [LF] t c.

(** [cursor.select(QTextCursor.SelectionType.BlockUnderCursor)]: nothing
    for a block without text; otherwise the text of the block and, when
    there is a block before it, the separator that precedes it. *)
Definition select_BlockUnderCursor (t : str) (c : QTextCursor)
  : QTextCursor :=
  let b := block t c in
  if block_length b =? 1 then Cursor (position c) (position c)
  else
    Cursor (if block_position b =? 0 then 0 else block_position b - 1)
           (block_position b + length (block_text b)).

(** The cursor movements and the selection read by [MarkdownEditor]. *)

(** [cursor.movePosition(QTextCursor.MoveOperation.StartOfBlock)] *)
Definition movePosition_StartOfBlock (t : str) (c : QTextCursor)
  : QTextCursor :=
  let b := block t c in Cursor (block_position b) (block_position b).

(** [cursor.movePosition(QTextCursor.MoveOperation.EndOfBlock,
    QTextCursor.MoveMode.KeepAnchor)] *)
Definition movePosition_EndOfBlock_KeepAnchor (t : str) (c : QTextCursor)
  : QTextCursor :=
  let b := block t c in
  Cursor (anchor c) (block_position b + length (block_text b)).

(** [cursor.movePosition(QTextCursor.MoveOperation.Left)]: one character
    back; at the start of the document there is none. *)
Definition movePosition_Left (c : QTextCursor) : QTextCursor :=
  Cursor (position c - 1) (position c - 1).

(** [cursor.selectedText()].  Qt writes the separators inside a selection
    as U+2029 and [insertText] makes separators of them again; here they
    are line feeds both ways. *)
Definition selectedText (t : str) (c : QTextCursor) : str :=
  firstn (selectionEnd c - selectionStart c) (skipn (selectionStart c) t).

(** [block.previous()] and [block.next()] for the block of the position
    [pos]; [None] is the invalid block. *)
Fixpoint previousBlock (before : option QTextBlock) (bs : list QTextBlock)
         (pos : nat) : option QTextBlock :=
  match bs with
  | [] => None
  | b :: rest =>
      match rest with
      | [] => before
      | _ :: _ =>
          if pos <? block_position b + block_length b then before
          else previousBlock (Some b) rest pos
      end
  end.

Fixpoint nextBlock (bs : list QTextBlock) (pos : nat)
  : option QTextBlock :=
  match bs with
  | [] => None
  | b :: rest =>
      match rest with
      | [] => None
      | n :: _ =>
          if pos <? block_position b + block_length b then Some n
          else nextBlock rest pos
      end
  end.

(** [cursor.movePosition(QTextCursor.MoveOperation.NextBlock)]: to the
    start of the next block; the cursor stays when there is none. *)
Definition movePosition_NextBlock (t : str) (c : QTextCursor)
  : QTextCursor :=
  match nextBlock (document t) (position c) with
  | Some n => Cursor (block_position n) (block_position n)
  | None => c
  end.

End Qt.

(** ** [class SmartEditor(QTextEdit)] *)

Module SmartEditor.
Import Py Qt.

(** The block types are the strings ['empty'], ['text'], ['task'],
    ['ul'], ['ol'], ['hr'], ['table'] and ['code_fence']. *)
Inductive block_type :=
| empty | text | task | ul | ol | hr | table | code_fence.

Definition block_type_eqb (a b : block_type) : bool :=
  match a, b with
  | empty, empty | text, text | task, task | ul, ul | ol, ol
  | hr, hr | table, table | code_fence, code_fence => true
  | _, _ => false
  end.

(** The widget: the plain text of its document, its text cursor and the
    re-entrancy flag of the repair pass. *)
Record editor := Editor {
  plain : str;
  textCursor : QTextCursor;
  is_fixing : bool
}.

Definition identify_block_type (line : str) : block_type :=
  let clean_text := lstrip line in
  let stripped_text := strip clean_text in
  match stripped_text with
  | [] => empty
  | _ :: _ =>
      if Re.heading clean_text then text
      else if Re.task clean_text then task
      else if Re.ul clean_text then ul
      else if Re.ol clean_text then ol
      else if Re.hr stripped_text then hr
      else if startswith stripped_text (lit "|") then table
      else text
  end.

Definition get_indent (line : str) : nat :=
  length (Re.leading_space line).

Definition list_types : list block_type := [ul; ol; task].

Definition is_in (t : block_type) (ts : list block_type) : bool :=
  existsb (block_type_eqb t) ts.

Definition check_conflict (t1 t2 : block_type) (i1 i2 : nat) : bool :=
  if block_type_eqb t1 empty then false
  else if block_type_eqb t2 empty then false
  else if block_type_eqb t1 text && is_in t2 list_types then true
  else if is_in t1 list_types && block_type_eqb t2 text && (i2 <=? i1)
  then true
  else if is_in t1 list_types && is_in t2 list_types
          && (negb (block_type_eqb t1 t2) && (i2 <=? i1))
  then true
  else if negb (block_type_eqb t1 table) && block_type_eqb t2 table
  then true
  else if block_type_eqb t1 table && negb (block_type_eqb t2 table)
  then true
  else false.

(** *** [auto_fix_spacing] *)

(** The local variables of the scan.  [classified] is a ghost variable:
    the positions of the blocks that were handed to
    [identify_block_type], in order. *)
Record scan_state := Scan {
  insert_positions : list nat;
  prev_type : block_type;
  prev_indent : nat;
  in_code_block : bool;
  classified : list nat
}.

Definition scan_init : scan_state := Scan [] empty 0 false [].

Definition is_fence (line : str) : bool :=
  startswith (strip line) (lit "```").

(** One turn of the [while block.isValid()] loop. *)
Definition scan_block (s : scan_state) (b : QTextBlock) : scan_state :=
  let line := block_text b in
  if is_fence line then
    Scan (insert_positions s) code_fence 0 (negb (in_code_block s))
         (classified s)
  else if in_code_block s then s
  else
    let curr_type := identify_block_type line in
    let curr_indent := get_indent line in
    let positions :=
      if check_conflict (prev_type s) curr_type (prev_indent s) curr_indent
      then insert_positions s ++ [block_position b]
      else insert_positions s in
    if negb (block_type_eqb curr_type empty)
    then Scan positions curr_type curr_indent (in_code_block s)
              (classified s ++ [block_position b])
    else Scan positions empty 0 (in_code_block s)
              (classified s ++ [block_position b]).

Definition scan (t : str) : scan_state :=
  fold_left scan_block (document t) scan_init.

(** The state of the insertion loop: the document, the working cursor
    and [old_pos]. *)
Record fix_state := Fix {
  fix_text : str;
  fix_cursor : QTextCursor;
  old_pos : nat
}.

(** One turn of [for pos in reversed(insert_positions)]. *)
Definition insert_blank (f : fix_state) (pos : nat) : fix_state :=
  let cursor := setPosition (fix_text f) pos (fix_cursor f) in
  let (t', cursor') := insertText [LF] (fix_text f) cursor in
  Fix t' cursor' (if pos <=? old_pos f then old_pos f + 1 else old_pos f).

Definition auto_fix_spacing (e : editor) : editor :=
  if is_fixing e then e
  else
    match insert_positions (scan (plain e)) with
    | [] => e
    | (_ :: _) as positions =>
        let cursor := textCursor e in
        let f := fold_left insert_blank (rev positions)
                   (Fix (plain e) cursor (position cursor)) in
        let cursor' := setPosition (fix_text f) (old_pos f) (fix_cursor f) in
        Editor (fix_text f) cursor' false
    end.

(** *** [keyPressEvent] *)

Inductive key := Key_Return | Key_Enter | Key_other.

(** What became of a key press: handled here, or passed on to
    [QTextEdit.keyPressEvent]. *)
Inductive key_outcome :=
| Handled (e : editor)
| Super.

Definition remove_current_line_marker (e : editor) (cursor : QTextCursor)
  : editor :=
  let c1 := select_BlockUnderCursor (plain e) cursor in
  let (t2, c2) := removeSelectedText (plain e) c1 in
  let (t3, c3) := insertBlock t2 c2 in
  Editor t3 c3 (is_fixing e).

Definition insert_new_line_with_prefix (e : editor) (prefix : str)
  : editor :=
  let cursor := textCursor e in
  let (t1, c1) := insertText [LF] (plain e) cursor in
  let (t2, c2) := insertText prefix t1 c1 in
  Editor t2 c2 (is_fixing e).

Definition keyPressEvent (k : key) (e : editor) : key_outcome :=
  match k with
  | Key_other => Super
  | Key_Return | Key_Enter =>
      let cursor := textCursor e in
      let line := block_text (block (plain e) cursor) in
      let task_match := Re.task_prefix line in
      let ul_match := Re.ul_prefix line in
      let ol_match := Re.ol_prefix line in
      let bare_task :=
        match task_match with
        | Some m => length (strip line) =? length (strip (Re.group0 m))
        | None => false
        end in
      let bare_ul :=
        match ul_match with
        | Some m => str_eqb (strip line) (Re.group2 m)
        | None => false
        end in
      let bare_ol :=
        match ol_match with
        | Some m => str_eqb (strip line) (Re.group2 m ++ lit ".")
        | None => false
        end in
      if bare_task then Handled (remove_current_line_marker e cursor)
      else if bare_ul then Handled (remove_current_line_marker e cursor)
      else if bare_ol then Handled (remove_current_line_marker e cursor)
      else
        match task_match, ul_match, ol_match with
        | Some m, _, _ =>
            Handled (insert_new_line_with_prefix e
                       (Re.group1 m ++ Re.group2 m ++ lit " [ ] "))
        | None, Some m, _ =>
            Handled (insert_new_line_with_prefix e
                       (Re.group1 m ++ Re.group2 m ++ lit " "))
        | None, None, Some m =>
            Handled (insert_new_line_with_prefix e
                       (Re.group1 m
                        ++ format_int (int (Re.group2 m) + 1)
                        ++ lit ". "))
        | None, None, None => Super
        end
  end.

(** *** [check_task_toggle] *)

(** The signals a method emits by hand: [self.textChanged.emit()]. *)
Inductive signal := textChanged.

Definition check_task_toggle (e : editor) : editor * list signal :=
  let cursor := textCursor e in
  if hasSelection cursor then (e, [])
  else
    let b := block (plain e) cursor in
    let line := block_text b in
    let pos_in_block := positionInBlock (plain e) cursor in
    match Re.checkbox line with
    | None => (e, [])
    | Some m =>
        let bracket_start := length (Re.marker m) in
        let bracket_end := Re.match_end m - 1 in
        if (bracket_start <? pos_in_block) && (pos_in_block <=? bracket_end)
        then
          let content_inside := Re.content m in
          let (t3, c3) :=
            match strip content_inside with
            | [] =>
                let c1 := setPosition (plain e)
                            (block_position b + bracket_start) cursor in
                let c2 := setPosition_KeepAnchor (plain e)
                            (block_position b + bracket_end + 1) c1 in
                insertText (lit "[x]") (plain e) c2
            | _ :: _ =>
                let c1 := setPosition (plain e)
                            (block_position b + bracket_start) cursor in
                let c2 := setPosition_KeepAnchor (plain e)
                            (block_position b + bracket_end + 1) c1 in
                insertText (lit "[ ]") (plain e) c2
            end in
          (* [block] is still the same block of the document, now with
             its new text *)
          let b' := findBlock (document t3) (block_position b) in
          let target_pos := block_position b' + Re.match_end m in
          let c4 :=
            if target_pos <? block_position b' + block_length b'
            then setPosition t3 target_pos c3
            else setPosition t3
                   (block_position b' + block_length b' - 1) c3 in
          (Editor t3 c4 (is_fixing e), [textChanged])
        else (e, [])
    end.

End SmartEditor.

(** ** [class MarkdownEditor(QMainWindow)]

    The methods of the main window that work on the text of its editor
    ([self.editor], a [SmartEditor]). *)

Module MarkdownEditor.
Import Py Qt SmartEditor.

(** The line types are the strings ['empty'], ['task'], ['ul'], ['ol'] and
    ['text']. *)
Definition get_line_type (line : str) : block_type :=
  match strip line with
  | [] => empty
  | (_ :: _) as stripped =>
      if Re.task_literal stripped then task
      else if Re.ul_literal stripped then ul
      else if Re.ol stripped then ol
      else text
  end.

Definition is_render_conflict (type_a type_b : block_type) : bool :=
  is_in type_a [task; ul; ol] && is_in type_b [task; ul; ol]
  && negb (block_type_eqb type_a type_b).

(** *** [update_preview], up to the joined text

    [raw_text.split('\n')] gives the texts of the blocks of the buffer, and
    the join of the processed lines is their plain text. *)

(** The loop over the lines, from the line [lines] starts with and the
    type of the line before it; the value is what the loop appends to
    [processed_lines]. *)
Fixpoint processed_lines (prev_type : block_type) (lines : list str)
  : list str :=
  match lines with
  | [] => []
  | line :: rest =>
      let curr_type := get_line_type line in
      (if is_render_conflict prev_type curr_type then [[]] else [])
      ++ line :: processed_lines curr_type rest
  end.

(** The value of [md_text] after the join. *)
Definition md_text (raw_text : str) : str :=
  toPlainText (processed_lines empty (blocks raw_text)).

(** *** [apply_heading] *)

Definition apply_heading (level : nat) (e : editor) : editor :=
  let cursor := textCursor e in
  let c1 := movePosition_StartOfBlock (plain e) cursor in
  let c2 := movePosition_EndOfBlock_KeepAnchor (plain e) c1 in
  let selected := selectedText (plain e) c2 in
  let clean_text := Re.sub_heading_marks selected in
  let new_text := repeat "#"%char level ++ lit " " ++ clean_text in
  let (t3, c3) := insertText new_text (plain e) c2 in
  Editor t3 c3 (is_fixing e).

(** *** [insert_formatting] *)

Definition insert_formatting (prefix suffix : str) (e : editor) : editor :=
  let cursor := textCursor e in
  if hasSelection cursor then
    let selected := selectedText (plain e) cursor in
    let (t1, c1) :=
      insertText (prefix ++ selected ++ suffix) (plain e) cursor in
    Editor t1 c1 (is_fixing e)
  else
    let (t1, c1) := insertText (prefix ++ suffix) (plain e) cursor in
    let c2 := Nat.iter (length suffix) movePosition_Left c1 in
    Editor t1 c2 (is_fixing e).

Definition set_bold : editor -> editor :=
  insert_formatting (lit "**") (lit "**").

Definition set_italic : editor -> editor :=
  insert_formatting (lit "*") (lit "*").

Definition set_strikethrough : editor -> editor :=
  insert_formatting (lit "~~") (lit "~~").

(** *** [apply_list_prefix] *)

(** [new_text] of one turn of the loop, from the text of the block. *)
Definition prefixed (prefix_type : block_type) (selected : str) : str :=
  let clean_text := Re.sub_list_marker selected in
  match prefix_type with
  | ul => lit "- " ++ lstrip clean_text
  | task => lit "- [ ] " ++ lstrip clean_text
  | ol => lit "1. " ++ lstrip clean_text
  | _ => selected
  end.

(** The loop [while cursor.position() <= end].  Every turn ends with a
    [break] or at the start of the next block, so there are no more turns
    than blocks; [turns] bounds their number. *)
Fixpoint prefix_loop (turns : nat) (prefix_type : block_type) (end_ : nat)
         (t : str) (cursor : QTextCursor) : str * QTextCursor :=
  match turns with
  | 0 => (t, cursor)
  | S turns' =>
      if position cursor <=? end_ then
        let c1 := movePosition_EndOfBlock_KeepAnchor t cursor in
        let selected := selectedText t c1 in
        let new_text := prefixed prefix_type selected in
        let (t2, c2) := insertText new_text t c1 in
        match nextBlock (document t2) (position c2) with
        | None => (t2, c2)
        | Some _ =>
            let c3 := movePosition_NextBlock t2 c2 in
            if (end_ <? position c3) && negb (hasSelection c3)
            then (t2, c3)
            else prefix_loop turns' prefix_type end_ t2 c3
        end
      else (t, cursor)
  end.

(** The text of the editor after [apply_list_prefix]; the cursor of the
    editor is not set by the method. *)
Definition apply_list_prefix (prefix_type : block_type) (e : editor)
  : editor :=
  let cursor := textCursor e in
  let start := selectionStart cursor in
  let c0 := setPosition (plain e) start cursor in
  let prev_block := previousBlock None (document (plain e)) (position c0) in
  let needs_blank :=
    match prev_block with
    | Some b =>
        match strip (block_text b) with
        | [] => false
        | _ :: _ => negb (Re.list_pattern (block_text b))
        end
    | None => false
    end in
  let (t1, c1) :=
    if needs_blank
    then insertText [LF] (plain e) (movePosition_StartOfBlock (plain e) c0)
    else (plain e, c0) in
  let start := selectionStart c1 in
  let end_ := selectionEnd c1 in
  let c2 := setPosition t1 start c1 in
  let c3 := movePosition_StartOfBlock t1 c2 in
  let (t4, _) :=
    prefix_loop (length (blocks t1)) prefix_type end_ t1 c3 in
  Editor t4 (textCursor e) (is_fixing e).

(** *** [get_suggested_filename] *)

(** The class of the pattern that cleans a title: backslash, slash,
    colon, star, question mark, double quote, the angle brackets and the
    bar. *)
Definition forbidden (c : ascii) : bool :=
  existsb (Ascii.eqb c)
    ["\"; "/"; ":"; "*"; "?"; "034"; "<"; ">"; "|"]%char.

(** [re.sub(pattern, '_', title).strip(" .")[:50]] with that class as
    the pattern. *)
Definition clean_title (title : str) : str :=
  firstn 50
    (strip_chars " ."
       (map (fun c => if forbidden c then "_"%char else c) title)).

(** The loop [for i in range(1, 7)] over the levels that are left. *)
Fixpoint title_of_levels (levels : list nat) (content : str)
  : option str :=
  match levels with
  | [] => None
  | i :: rest =>
      match Re.heading_title i true content with
      | Some g =>
          match clean_title (strip g) with
          | [] => title_of_levels rest content
          | (_ :: _) as name => Some name
          end
      | None => title_of_levels rest content
      end
  end.

Section SuggestedFilename.

(** [os.path.splitext(os.path.basename(path))[0]] *)
Variable base_name : str -> str.

(** [current_file_path] is [None] or a path; [content] is the plain text
    of the editor and [timestamp] is
    [datetime.now().strftime("%Y%m%d_%H%M")]. *)
Definition get_suggested_filename (current_file_path : option str)
           (content timestamp extension : str) : str :=
  match current_file_path with
  | Some ((_ :: _) as path) => base_name path ++ lit "." ++ extension
  | _ =>
      match title_of_levels (seq 1 6) content with
      | Some name => name ++ lit "." ++ extension
      | None => lit "Export_" ++ timestamp ++ lit "." ++ extension
      end
  end.

End SuggestedFilename.

End MarkdownEditor.

(** ** Notions used in the statements *)

Import Py Qt SmartEditor.

(** A string without line feed: what the text of a block always is. *)
Definition line_free (s : str) : Prop := ~ In LF s.

(** All characters of [s] are white space. *)
Definition all_space (s : str) : Prop := Forall (fun c => isspace c = true) s.

(** A run [ws] of characters of the class [p] that stops where [tail]
    starts: at the end of the line or at a character outside the class. *)
Definition run_then (p : ascii -> bool) (ws tail : str) : Prop :=
  Forall (fun c => p c = true) ws
  /\ match tail with [] => True | c :: _ => p c = false end.

(** The list-item lines of the three grammars of [keyPressEvent]: an
    indent, the marker, the white space [ws] that ends the marker, and the
    rest of the line. *)
Definition task_item (indent : str) (b c : ascii) (ws tail : str) : str :=
  indent ++ b :: " "%char :: "["%char :: c :: "]"%char :: ws ++ tail.

Definition bullet_item (indent : str) (b : ascii) (ws tail : str) : str :=
  indent ++ b :: ws ++ tail.

Definition numbered_item (indent digits ws tail : str) : str :=
  indent ++ digits ++ "."%char :: ws ++ tail.

(** A line with a checkbox as [check_task_toggle] looks for it: indent,
    bullet, optional white space, and the bracket around [content]. *)
Definition checkbox_item (indent : str) (b : ascii) (gap content rest : str)
  : str :=
  (indent ++ b :: gap) ++ "["%char :: content ++ "]"%char :: rest.

(** A line that holds a list marker and nothing else. *)
Inductive bare_marker : str -> Prop :=
| bare_task : forall indent b c ws,
    all_space indent -> Re.one_of "-*" b = true ->
    Re.one_of "xX " c = true -> ws <> [] -> all_space ws ->
    bare_marker (task_item indent b c ws [])
| bare_bullet : forall indent b ws,
    all_space indent -> Re.one_of "-*+" b = true ->
    ws <> [] -> all_space ws ->
    bare_marker (bullet_item indent b ws [])
| bare_number : forall indent digits ws,
    all_space indent -> digits <> [] ->
    Forall (fun c => isdigit c = true) digits ->
    ws <> [] -> all_space ws ->
    bare_marker (numbered_item indent digits ws []).

(** What a toggle puts between the brackets. *)
Definition flip_box (content : str) : str :=
  match strip content with
  | [] => lit "x"
  | _ :: _ => lit " "
  end.

(** The text with one line feed put in at offset [p]. *)
Definition insert_at (p : nat) (t : str) : str :=
  firstn p t ++ LF :: skipn p t.

(** The number of positions the blocks [bs] take up, separators included:
    the position of the block that follows them. *)
Fixpoint extent (bs : list str) : nat :=
  match bs with
  | [] => 0
  | b :: rest => length b + 1 + extent rest
  end.

(** The text of the blocks [bs] when a block follows them, and when a
    block precedes them. *)
Definition lead (bs : list str) : str :=
  concat (map (fun b => b ++ [LF]) bs).
Definition trail (bs : list str) : str :=
  concat (map (fun b => LF :: b) bs).

(** [Subseq s t]: [s] is [t] with some characters left out. *)
Inductive Subseq {A : Type} : list A -> list A -> Prop :=
| Subseq_nil : Subseq [] []
| Subseq_keep : forall x s t, Subseq s t -> Subseq (x :: s) (x :: t)
| Subseq_skip : forall x s t, Subseq s t -> Subseq s (x :: t).

(** [blank_lines_added bs bs']: the lines [bs'] are the lines [bs], in
    order and unchanged, with empty lines put between or around them. *)
Inductive blank_lines_added : list str -> list str -> Prop :=
| bla_nil : blank_lines_added [] []
| bla_keep : forall l bs bs',
    blank_lines_added bs bs' -> blank_lines_added (l :: bs) (l :: bs')
| bla_blank : forall bs bs',
    blank_lines_added bs bs' -> blank_lines_added bs ([] :: bs').

(** What the scan remembers from one block to the next, apart from the
    positions it has collected: [prev_type], [prev_indent] and
    [in_code_block]. *)
Definition mode : Type := block_type * nat * bool.

Definition mode_of (s : scan_state) : mode :=
  (prev_type s, prev_indent s, in_code_block s).

Definition next_mode (m : mode) (line : str) : mode :=
  let '(pt, pi, code) := m in
  if is_fence line then (code_fence, 0, negb code)
  else if code then m
  else
    let ct := identify_block_type line in
    if negb (block_type_eqb ct empty) then (ct, get_indent line, code)
    else (empty, 0, code).

(** The scan hands the line to [identify_block_type]. *)
Definition classified_at (m : mode) (line : str) : bool :=
  let '(_, _, code) := m in negb (is_fence line) && negb code.

(** The scan records the start of the line as an insertion position. *)
Definition conflict_at (m : mode) (line : str) : bool :=
  let '(pt, pi, _) := m in
  classified_at m line
  && check_conflict pt (identify_block_type line) pi (get_indent line).

Definition final_mode (m : mode) (bs : list str) : mode :=
  fold_left next_mode bs m.

(** The positions recorded for the lines [bs], the first of which starts at
    [start], by a scan that reaches them in mode [m]. *)
Fixpoint plan (m : mode) (start : nat) (bs : list str) : list nat :=
  match bs with
  | [] => []
  | l :: rest =>
      (if conflict_at m l then [start] else [])
      ++ plan (next_mode m l) (start + length l + 1) rest
  end.

(** The positions of the lines that are classified. *)
Fixpoint visits (m : mode) (start : nat) (bs : list str) : list nat :=
  match bs with
  | [] => []
  | l :: rest =>
      (if classified_at m l then [start] else [])
      ++ visits (next_mode m l) (start + length l + 1) rest
  end.

(** The lines with an empty line before each one that has a conflict. *)
Fixpoint repair (m : mode) (bs : list str) : list str :=
  match bs with
  | [] => []
  | l :: rest =>
      (if conflict_at m l then [[]; l] else [l])
      ++ repair (next_mode m l) rest
  end.

Definition mode_init : mode := (empty, 0, false).

(** The number of fence lines among [bs]. *)
Definition fence_count (bs : list str) : nat :=
  length (filter is_fence bs).

(** A buffer given by its lines, and an editor on it with the caret at
    [caret], nothing selected, and no repair pass under way. *)
Definition buffer (lines : list string) : str := toPlainText (map lit lines).

Definition editing (lines : list string) (caret : nat) : editor :=
  Editor (buffer lines) (Cursor caret caret) false.

(** The buffer of three lines used as an example for the repair pass. *)
Definition three_lines (caret : nat) : editor :=
  editing ["Some text"; "- item one"; "| a |"]%string caret.

(** A cursor of the document [t]: anchor and position are offsets of its
    text. *)
Definition in_document (t : str) (c : QTextCursor) : Prop :=
  anchor c <= length t /\ position c <= length t.

(** The empty line that [apply_list_prefix] puts between the lines
    [before] and the line it turns into a list item: one when the last of
    them is neither blank nor a list item. *)
Definition separator (before : list str) : list str :=
  match rev before with
  | [] => []
  | prev :: _ =>
      match strip prev with
      | [] => []
      | _ :: _ => if Re.list_pattern prev then [] else [[]]
      end
  end.

(** ** Strings *)

Section Runs.
Variable p : ascii -> bool.

Lemma take_drop_while (s : str) :
  take_while p s ++ drop_while p s = s.
Proof.
  induction s as [|c s IH]; simpl; [reflexivity|].
  destruct (p c); simpl; [now rewrite IH | reflexivity].
Qed.

Lemma take_while_all (s : str) :
  Forall (fun c => p c = true) (take_while p s).
Proof.
  induction s as [|c s IH]; simpl; [constructor|].
  destruct (p c) eqn:E; constructor; assumption.
Qed.

Lemma take_while_run (a r : str) :
  Forall (fun c => p c = true) a ->
  match r with [] => True | c :: _ => p c = false end ->
  take_while p (a ++ r) = a.
Proof.
  intros Ha Hr. induction Ha as [|c a Hc _ IH]; simpl.
  - destruct r as [|c r]; simpl; [reflexivity | now rewrite Hr].
  - now rewrite Hc, IH.
Qed.

Lemma drop_while_run (a r : str) :
  Forall (fun c => p c = true) a ->
  match r with [] => True | c :: _ => p c = false end ->
  drop_while p (a ++ r) = r.
Proof.
  intros Ha Hr. induction Ha as [|c a Hc _ IH]; simpl.
  - destruct r as [|c r]; simpl; [reflexivity | now rewrite Hr].
  - now rewrite Hc, IH.
Qed.

Lemma drop_while_stop (a : str) (k : ascii) (z : str) :
  p k = false ->
  drop_while p (a ++ k :: z) = drop_while p a ++ k :: z.
Proof.
  intros Hk. induction a as [|c a IH]; simpl.
  - now rewrite Hk.
  - destruct (p c); [exact IH | reflexivity].
Qed.

Lemma drop_while_all (a : str) :
  Forall (fun c => p c = true) a -> drop_while p a = [].
Proof.
  intros Ha. rewrite <- (app_nil_r a). now apply drop_while_run.
Qed.

Lemma drop_while_head (s : str) :
  match drop_while p s with [] => True | c :: _ => p c = false end.
Proof.
  induction s as [|c s IH]; simpl; [exact I|].
  destruct (p c) eqn:E; [exact IH | exact E].
Qed.

End Runs.

Lemma all_space_rev (s : str) : all_space s -> all_space (rev s).
Proof. unfold all_space. apply Forall_rev. Qed.

(** [rstrip] stops at the last character that is not white space. *)
Lemma rstrip_stop (a : str) (k : ascii) (z : str) :
  isspace k = false -> rstrip (a ++ k :: z) = a ++ k :: rstrip z.
Proof.
  intros Hk. unfold rstrip.
  rewrite rev_app_distr. simpl. rewrite <- app_assoc. simpl.
  rewrite drop_while_stop by exact Hk.
  rewrite rev_app_distr. simpl. rewrite rev_involutive.
  now rewrite <- app_assoc.
Qed.

Lemma rstrip_all_space (s : str) : all_space s -> rstrip s = [].
Proof.
  intros H. unfold rstrip.
  rewrite drop_while_all; [reflexivity | now apply all_space_rev].
Qed.

(** A line that is white space, then a core that starts with a character
    that is not white space. *)
Lemma strip_indented (indent : str) (k : ascii) (z : str) :
  all_space indent -> isspace k = false ->
  strip (indent ++ k :: z) = k :: rstrip z.
Proof.
  intros Hi Hk. unfold strip, lstrip.
  rewrite drop_while_run; [|exact Hi|exact Hk].
  apply (rstrip_stop [] k z Hk).
Qed.

Lemma strip_all_space (s : str) : all_space s -> strip s = [].
Proof.
  intros H. unfold strip, lstrip.
  rewrite drop_while_all; [reflexivity | exact H].
Qed.

Lemma lstrip_strip (s : str) : strip (lstrip s) = strip s.
Proof.
  unfold strip, lstrip. f_equal.
  pose proof (drop_while_head isspace s) as H.
  destruct (drop_while isspace s) as [|c r]; [reflexivity|].
  simpl. now rewrite H.
Qed.

(** ** Documents and their blocks *)

Lemma firstn_plus {A : Type} (a b : list A) (n : nat) :
  firstn (length a + n) (a ++ b) = a ++ firstn n b.
Proof. induction a as [|x a IH]; simpl; [reflexivity | now rewrite IH]. Qed.

Lemma skipn_plus {A : Type} (a b : list A) (n : nat) :
  skipn (length a + n) (a ++ b) = skipn n b.
Proof. induction a as [|x a IH]; simpl; [reflexivity | exact IH]. Qed.

Lemma firstn_exact {A : Type} (a b : list A) :
  firstn (length a) (a ++ b) = a.
Proof.
  rewrite <- (Nat.add_0_r (length a)), firstn_plus. simpl.
  apply app_nil_r.
Qed.

Lemma skipn_exact {A : Type} (a b : list A) :
  skipn (length a) (a ++ b) = b.
Proof. now rewrite <- (Nat.add_0_r (length a)), skipn_plus. Qed.

Lemma blocks_nonempty (t : str) : blocks t <> [].
Proof.
  destruct t as [|c t]; simpl; [discriminate|].
  destruct (Ascii.eqb c LF); [discriminate|].
  destruct (blocks t); discriminate.
Qed.

Lemma blocks_line_free (t : str) : Forall line_free (blocks t).
Proof.
  induction t as [|c t IH]; simpl.
  - constructor; [intros [] | constructor].
  - destruct (Ascii.eqb c LF) eqn:E.
    + constructor; [intros [] | exact IH].
    + apply Ascii.eqb_neq in E.
      destruct (blocks t) as [|b bs].
      * constructor; [|constructor]. intros [H|[]]. now apply E.
      * inversion IH as [|? ? Hb Hbs]; subst. constructor; [|exact Hbs].
        intros [H|H]; [now apply E | now apply Hb].
Qed.

Lemma toPlainText_cons (l : str) (bs : list str) :
  toPlainText (l :: bs) = l ++ trail bs.
Proof.
  revert l. induction bs as [|b bs IH]; intros l.
  - simpl. now rewrite app_nil_r.
  - change (toPlainText (l :: b :: bs)) with (l ++ LF :: toPlainText (b :: bs)).
    rewrite IH. reflexivity.
Qed.

Lemma toPlainText_blocks (t : str) : toPlainText (blocks t) = t.
Proof.
  induction t as [|c t IH]; simpl; [reflexivity|].
  destruct (Ascii.eqb c LF) eqn:E.
  - apply Ascii.eqb_eq in E. subst c.
    pose proof (blocks_nonempty t) as Hne.
    destruct (blocks t) as [|b bs]; [contradiction|].
    change (toPlainText ([] :: b :: bs)) with (LF :: toPlainText (b :: bs)).
    now rewrite IH.
  - pose proof (blocks_nonempty t) as Hne.
    destruct (blocks t) as [|b bs]; [contradiction|].
    rewrite toPlainText_cons in *. simpl. now rewrite IH.
Qed.

Lemma blocks_single (b : str) : line_free b -> blocks b = [b].
Proof.
  induction b as [|c b IH]; intros Hb; simpl; [reflexivity|].
  destruct (Ascii.eqb c LF) eqn:E.
  - apply Ascii.eqb_eq in E. exfalso. apply Hb. now left.
  - rewrite IH; [reflexivity|]. intros H. apply Hb. now right.
Qed.

Lemma blocks_break (b t : str) :
  line_free b -> blocks (b ++ LF :: t) = b :: blocks t.
Proof.
  induction b as [|c b IH]; intros Hb; simpl.
  - reflexivity.
  - destruct (Ascii.eqb c LF) eqn:E.
    + apply Ascii.eqb_eq in E. exfalso. apply Hb. now left.
    + rewrite IH; [reflexivity|]. intros H. apply Hb. now right.
Qed.

Lemma blocks_toPlainText (bs : list str) :
  bs <> [] -> Forall line_free bs -> blocks (toPlainText bs) = bs.
Proof.
  induction bs as [|b bs IH]; intros Hne Hall; [contradiction|].
  inversion Hall as [|? ? Hb Hbs]; subst.
  destruct bs as [|b' bs].
  - simpl. now apply blocks_single.
  - change (toPlainText (b :: b' :: bs))
      with (b ++ LF :: toPlainText (b' :: bs)).
    rewrite blocks_break by exact Hb.
    rewrite IH; [reflexivity | discriminate | exact Hbs].
Qed.

Lemma lead_length (bs : list str) : length (lead bs) = extent bs.
Proof.
  induction bs as [|b bs IH]; simpl; [reflexivity|].
  unfold lead in *. simpl. rewrite !length_app, IH. simpl. lia.
Qed.

Lemma lead_app (a b : list str) : lead (a ++ b) = lead a ++ lead b.
Proof. unfold lead. now rewrite map_app, concat_app. Qed.

Lemma trail_app (a b : list str) : trail (a ++ b) = trail a ++ trail b.
Proof. unfold trail. now rewrite map_app, concat_app. Qed.

Lemma extent_app (a b : list str) : extent (a ++ b) = extent a + extent b.
Proof. induction a as [|x a IH]; simpl; [reflexivity | rewrite IH; lia]. Qed.

Lemma toPlainText_lead (before rest : list str) :
  rest <> [] -> toPlainText (before ++ rest) = lead before ++ toPlainText rest.
Proof.
  intros Hne. induction before as [|b before IH]; [reflexivity|].
  change ((b :: before) ++ rest) with (b :: (before ++ rest)).
  destruct (before ++ rest) as [|x r] eqn:E.
  - destruct before; [simpl in E; contradiction | discriminate].
  - change (toPlainText (b :: x :: r)) with (b ++ LF :: toPlainText (x :: r)).
    rewrite IH. unfold lead. simpl. now rewrite <- !app_assoc.
Qed.

Lemma toPlainText_trail (ls after : list str) :
  ls <> [] -> toPlainText (ls ++ after) = toPlainText ls ++ trail after.
Proof.
  intros Hne. destruct ls as [|l ls]; [contradiction|].
  change ((l :: ls) ++ after) with (l :: (ls ++ after)).
  rewrite !toPlainText_cons, trail_app. apply app_assoc.
Qed.

(** The plain text of a document around a run of its blocks. *)
Lemma toPlainText_around (before ls after : list str) :
  ls <> [] ->
  toPlainText (before ++ ls ++ after)
  = lead before ++ toPlainText ls ++ trail after.
Proof.
  intros Hne. rewrite toPlainText_lead.
  - now rewrite toPlainText_trail.
  - destruct ls; [contradiction | discriminate].
Qed.

Lemma plain_around (t : str) (before : list str) (line : str)
      (after : list str) :
  blocks t = before ++ line :: after ->
  t = lead before ++ line ++ trail after.
Proof.
  intros H. rewrite <- (toPlainText_blocks t), H.
  apply (toPlainText_around before [line] after). discriminate.
Qed.

Lemma findBlock_layout (before : list str) (line : str) (after : list str)
      (start pos : nat) :
  start + extent before <= pos <= start + extent before + length line ->
  findBlock (layout start (before ++ line :: after)) pos
  = Block (start + extent before) line.
Proof.
  revert start. induction before as [|b before IH]; intros start Hpos.
  - simpl in *. rewrite Nat.add_0_r in *.
    destruct after as [|a after]; simpl; [reflexivity|].
    unfold block_length. simpl.
    destruct (Nat.ltb_spec pos (start + (length line + 1)));
      [reflexivity | lia].
  - simpl in Hpos.
    replace (start + extent (b :: before))
      with (start + length b + 1 + extent before) by (simpl; lia).
    rewrite <- (IH (start + length b + 1)) by lia.
    change ((b :: before) ++ line :: after)
      with (b :: (before ++ line :: after)).
    simpl layout.
    destruct (layout (start + length b + 1) (before ++ line :: after)) eqn:E.
    + destruct before; discriminate.
    + rewrite <- E. simpl findBlock. rewrite E. rewrite <- E.
      unfold block_length. simpl.
      destruct (Nat.ltb_spec pos (start + (length b + 1))); [lia|].
      reflexivity.
Qed.

(** The block under a cursor that stands on the line [line]. *)
Lemma block_at (t : str) (before : list str) (line : str)
      (after : list str) (c : QTextCursor) :
  blocks t = before ++ line :: after ->
  extent before <= position c <= extent before + length line ->
  block t c = Block (extent before) line.
Proof.
  intros H Hpos. unfold block, document. rewrite H.
  now apply (findBlock_layout before line after 0).
Qed.

(** ** The scan of [auto_fix_spacing] *)

Lemma scan_block_mode (s : scan_state) (b : QTextBlock) :
  mode_of (scan_block s b) = next_mode (mode_of s) (block_text b).
Proof.
  unfold scan_block, next_mode, mode_of. destruct s as [ps pt pi code cl].
  simpl. destruct (is_fence (block_text b)); [reflexivity|].
  destruct code; [reflexivity|].
  destruct (negb (block_type_eqb (identify_block_type (block_text b)) empty));
    reflexivity.
Qed.

Lemma scan_block_positions (s : scan_state) (b : QTextBlock) :
  insert_positions (scan_block s b)
  = insert_positions s
    ++ (if conflict_at (mode_of s) (block_text b) then [block_position b]
        else []).
Proof.
  unfold scan_block, conflict_at, classified_at, mode_of.
  destruct s as [ps pt pi code cl]. simpl.
  destruct (is_fence (block_text b)); simpl; [now rewrite app_nil_r|].
  destruct code; simpl; [now rewrite app_nil_r|].
  destruct (check_conflict pt (identify_block_type (block_text b)) pi
              (get_indent (block_text b)));
    destruct (negb (block_type_eqb (identify_block_type (block_text b)) empty));
    simpl; now rewrite ?app_nil_r.
Qed.

Lemma scan_block_classified (s : scan_state) (b : QTextBlock) :
  classified (scan_block s b)
  = classified s
    ++ (if classified_at (mode_of s) (block_text b) then [block_position b]
        else []).
Proof.
  unfold scan_block, classified_at, mode_of.
  destruct s as [ps pt pi code cl]. simpl.
  destruct (is_fence (block_text b)); simpl; [now rewrite app_nil_r|].
  destruct code; simpl; [now rewrite app_nil_r|].
  destruct (negb (block_type_eqb (identify_block_type (block_text b)) empty));
    reflexivity.
Qed.

(** The loop over the blocks, in terms of [plan], [visits] and
    [final_mode]. *)
Lemma scan_layout (bs : list str) (start : nat) (s : scan_state) :
  let s' := fold_left scan_block (layout start bs) s in
  insert_positions s' = insert_positions s ++ plan (mode_of s) start bs
  /\ classified s' = classified s ++ visits (mode_of s) start bs
  /\ mode_of s' = final_mode (mode_of s) bs.
Proof.
  revert start s. induction bs as [|l bs IH]; intros start s; simpl.
  - now rewrite !app_nil_r.
  - destruct (IH (start + length l + 1) (scan_block s (Block start l)))
      as (Hp & Hc & Hm).
    rewrite scan_block_mode in Hp, Hc, Hm. simpl in Hp, Hc, Hm.
    rewrite scan_block_positions in Hp. rewrite scan_block_classified in Hc.
    simpl in Hp, Hc. rewrite <- !app_assoc in *.
    unfold final_mode in *. simpl. auto.
Qed.

Lemma scan_plan (t : str) :
  insert_positions (scan t) = plan mode_init 0 (blocks t).
Proof. exact (proj1 (scan_layout (blocks t) 0 scan_init)). Qed.

Lemma scan_visits (t : str) :
  classified (scan t) = visits mode_init 0 (blocks t).
Proof. exact (proj1 (proj2 (scan_layout (blocks t) 0 scan_init))). Qed.

Lemma plan_app (m : mode) (start : nat) (a b : list str) :
  plan m start (a ++ b)
  = plan m start a ++ plan (final_mode m a) (start + extent a) b.
Proof.
  revert m start. induction a as [|l a IH]; intros m start; simpl.
  - now rewrite Nat.add_0_r.
  - rewrite IH, <- app_assoc. do 3 f_equal. lia.
Qed.

Lemma visits_app (m : mode) (start : nat) (a b : list str) :
  visits m start (a ++ b)
  = visits m start a ++ visits (final_mode m a) (start + extent a) b.
Proof.
  revert m start. induction a as [|l a IH]; intros m start; simpl.
  - now rewrite Nat.add_0_r.
  - rewrite IH, <- app_assoc. do 3 f_equal. lia.
Qed.

(** Recorded and classified positions are starts of lines of the run. *)
Lemma plan_visits (m : mode) (start : nat) (bs : list str) (p : nat) :
  In p (plan m start bs) -> In p (visits m start bs).
Proof.
  revert m start. induction bs as [|l bs IH]; intros m start; simpl; [easy|].
  rewrite !in_app_iff. intros [H|H]; [left | right; now apply IH].
  unfold conflict_at in H. destruct m as [[pt pi] code].
  destruct (classified_at (pt, pi, code) l); simpl in *; [|easy].
  destruct (check_conflict pt (identify_block_type l) pi (get_indent l));
    [exact H | easy].
Qed.

Lemma visits_starts (m : mode) (start : nat) (bs : list str) (p : nat) :
  In p (visits m start bs) -> In p (map block_position (layout start bs)).
Proof.
  revert m start. induction bs as [|l bs IH]; intros m start; simpl; [easy|].
  rewrite in_app_iff.
  intros [H|H]; [|right; now apply IH with (m := next_mode m l)].
  destruct (classified_at m l); simpl in H; [|easy].
  destruct H as [H|[]]. now left.
Qed.

Lemma layout_range (start : nat) (bs : list str) (p : nat) :
  In p (map block_position (layout start bs)) ->
  start <= p < start + extent bs.
Proof.
  revert start. induction bs as [|l bs IH]; intros start; simpl; [easy|].
  intros [H|H]; [lia|]. apply IH in H. lia.
Qed.

Lemma plan_range (m : mode) (start : nat) (bs : list str) (p : nat) :
  In p (plan m start bs) -> start <= p < start + extent bs.
Proof.
  intros H. apply layout_range.
  apply visits_starts with (m := m). now apply plan_visits.
Qed.

Lemma plan_sorted (m : mode) (start : nat) (bs : list str) :
  StronglySorted lt (plan m start bs).
Proof.
  revert m start. induction bs as [|l bs IH]; intros m start; simpl.
  - constructor.
  - destruct (conflict_at m l); simpl; [|apply IH].
    constructor; [apply IH|].
    apply Forall_forall. intros p Hp. apply plan_range in Hp. lia.
Qed.

Lemma extent_blocks (t : str) : extent (blocks t) = length t + 1.
Proof.
  induction t as [|c t IH]; simpl; [reflexivity|].
  destruct (Ascii.eqb c LF); simpl; [rewrite IH; lia|].
  pose proof (blocks_nonempty t) as Hne.
  destruct (blocks t) as [|b bs]; [contradiction|].
  simpl in *. lia.
Qed.

Lemma scan_positions_valid (t : str) :
  Forall (fun p => p <= length t) (insert_positions (scan t)).
Proof.
  rewrite scan_plan. apply Forall_forall. intros p Hp.
  apply plan_range in Hp. rewrite extent_blocks in Hp. lia.
Qed.

Lemma conflict_at_init (l : str) : conflict_at mode_init l = false.
Proof.
  unfold conflict_at, mode_init, check_conflict. simpl. apply andb_false_r.
Qed.

(** The first block never gets an insertion. *)
Lemma plan_first (start : nat) (bs : list str) :
  ~ In start (plan mode_init start bs).
Proof.
  destruct bs as [|l bs]; [easy|].
  change (plan mode_init start (l :: bs))
    with ((if conflict_at mode_init l then [start] else [])
          ++ plan (next_mode mode_init l) (start + length l + 1) bs).
  rewrite conflict_at_init. simpl. intros H. apply plan_range in H. lia.
Qed.

(** *** The repaired lines *)

Lemma repair_nonempty (m : mode) (bs : list str) :
  bs <> [] -> repair m bs <> [].
Proof.
  destruct bs as [|l bs]; [contradiction|]. intros _. simpl.
  destruct (conflict_at m l); discriminate.
Qed.

Lemma repair_line_free (m : mode) (bs : list str) :
  Forall line_free bs -> Forall line_free (repair m bs).
Proof.
  intros H. revert m. induction H as [|l bs Hl _ IH]; intros m; simpl.
  - constructor.
  - destruct (conflict_at m l); simpl.
    + constructor; [intros []|]. constructor; [exact Hl | apply IH].
    + constructor; [exact Hl | apply IH].
Qed.

Lemma repair_blank_lines (m : mode) (bs : list str) :
  blank_lines_added bs (repair m bs).
Proof.
  revert m. induction bs as [|l bs IH]; intros m; simpl.
  - constructor.
  - destruct (conflict_at m l); simpl.
    + apply bla_blank, bla_keep, IH.
    + apply bla_keep, IH.
Qed.

Lemma conflict_at_blank (m : mode) : conflict_at m [] = false.
Proof.
  destruct m as [[pt pi] code]. unfold conflict_at, check_conflict.
  destruct pt; simpl; apply andb_false_r.
Qed.

(** A line with a conflict is met outside a fence, is no fence line and is
    not empty. *)
Lemma conflict_at_inv (m : mode) (l : str) :
  conflict_at m l = true ->
  snd m = false /\ is_fence l = false
  /\ block_type_eqb (identify_block_type l) empty = false.
Proof.
  destruct m as [[pt pi] code]. unfold conflict_at, classified_at. simpl.
  intros H. apply andb_prop in H. destruct H as [H1 H2].
  apply andb_prop in H1. destruct H1 as [Hf Hc].
  apply negb_true_iff in Hf, Hc. repeat split; try assumption.
  unfold check_conflict in H2.
  destruct (block_type_eqb pt empty); [discriminate|].
  destruct (block_type_eqb (identify_block_type l) empty);
    [discriminate | reflexivity].
Qed.

(** After the inserted empty line the scan is in the mode
    [('empty', 0, False)], sees no conflict at the line and leaves it in
    the same mode as before the insertion. *)
Lemma after_blank (m : mode) (l : str) :
  conflict_at m l = true ->
  next_mode m [] = mode_init
  /\ conflict_at mode_init l = false
  /\ next_mode mode_init l = next_mode m l.
Proof.
  intros H. apply conflict_at_inv in H. destruct H as (Hc & Hf & He).
  destruct m as [[pt pi] code]. simpl in Hc. subst code.
  split; [reflexivity | split].
  - apply conflict_at_init.
  - unfold next_mode, mode_init. rewrite Hf, He. reflexivity.
Qed.

(** A scan of the repaired lines records nothing. *)
Lemma plan_repair (m : mode) (start : nat) (bs : list str) :
  plan m start (repair m bs) = [].
Proof.
  revert m start. induction bs as [|l bs IH]; intros m start; simpl.
  - reflexivity.
  - destruct (conflict_at m l) eqn:E.
    + destruct (after_blank m l E) as (H1 & H2 & H3).
      simpl. rewrite conflict_at_blank, H1, H2, H3. simpl. apply IH.
    + simpl. rewrite E. simpl. apply IH.
Qed.

(** *** The insertion loop *)

Lemma insert_at_length (p : nat) (t : str) :
  length (insert_at p t) = length t + 1.
Proof.
  unfold insert_at. rewrite length_app. simpl.
  rewrite <- (firstn_skipn p t) at 3. rewrite length_app. lia.
Qed.

Lemma insertions_length (ps : list nat) (t : str) :
  length (fold_right insert_at t ps) = length t + length ps.
Proof.
  induction ps as [|p ps IH]; simpl; [lia|].
  rewrite insert_at_length, IH. lia.
Qed.

Lemma fix_loop_step (p : nat) (ps : list nat) (f : fix_state) :
  fold_left insert_blank (rev (p :: ps)) f
  = insert_blank (fold_left insert_blank (rev ps) f) p.
Proof. simpl. now rewrite fold_left_app. Qed.

Lemma insert_blank_text (f : fix_state) (p : nat) :
  p <= length (fix_text f) ->
  fix_text (insert_blank f p) = insert_at p (fix_text f).
Proof.
  intros Hp. unfold insert_blank, setPosition, insertText.
  destruct (Nat.leb_spec p (length (fix_text f))); [|lia].
  simpl. unfold selectionStart, selectionEnd. simpl.
  now rewrite Nat.min_id, Nat.max_id.
Qed.

Lemma insert_blank_old_pos (f : fix_state) (p : nat) :
  old_pos (insert_blank f p)
  = if p <=? old_pos f then old_pos f + 1 else old_pos f.
Proof. unfold insert_blank, insertText. reflexivity. Qed.

(** The loop runs over the reversed list: the text it builds is the one
    obtained by inserting at the last position first. *)
Lemma fix_loop_text (ps : list nat) (t : str) (c : QTextCursor) (o : nat) :
  Forall (fun p => p <= length t) ps ->
  fix_text (fold_left insert_blank (rev ps) (Fix t c o))
  = fold_right insert_at t ps.
Proof.
  induction 1 as [|p ps Hp _ IH]; [reflexivity|].
  rewrite fix_loop_step, insert_blank_text; rewrite IH; [reflexivity|].
  rewrite insertions_length. lia.
Qed.

Lemma fix_loop_old_pos (ps : list nat) (t : str) (c : QTextCursor)
      (o : nat) :
  StronglySorted lt ps ->
  old_pos (fold_left insert_blank (rev ps) (Fix t c o))
  = o + length (filter (fun p => p <=? o) ps).
Proof.
  induction 1 as [|p ps _ IH Hall]; [simpl; lia|].
  rewrite fix_loop_step, insert_blank_old_pos, IH. simpl.
  destruct (Nat.leb_spec p o) as [Hle|Hgt].
  - destruct (Nat.leb_spec p (o + length (filter (fun q => q <=? o) ps)));
      simpl; lia.
  - assert (filter (fun q => q <=? o) ps = []) as ->.
    { clear IH. induction Hall as [|q ps Hq _ IH']; [reflexivity|].
      simpl. destruct (Nat.leb_spec q o); [lia | exact IH']. }
    simpl. rewrite Nat.add_0_r.
    destruct (Nat.leb_spec p o); lia.
Qed.

Lemma fold_left_insertions (ps : list nat) (t : str) :
  fold_left (fun t p => insert_at p t) (rev ps) t = fold_right insert_at t ps.
Proof.
  induction ps as [|p ps IH]; [reflexivity|].
  simpl. now rewrite fold_left_app, IH.
Qed.

Lemma sorted_rev (ps : list nat) :
  StronglySorted lt ps -> StronglySorted gt (rev ps).
Proof.
  induction 1 as [|p ps _ IH Hall]; simpl; [constructor|].
  assert (Forall (fun q => q > p) (rev ps)) as Hrev.
  { apply Forall_rev. apply Forall_impl with (2 := Hall). intros q Hq; lia. }
  clear Hall. induction IH as [|q qs Hs IHq Hq]; simpl.
  - constructor; constructor.
  - inversion Hrev; subst. constructor.
    + now apply IHq.
    + apply Forall_app. split; [exact Hq|].
      constructor; [assumption|constructor].
Qed.

(** Inserting at the recorded positions, last first, puts an empty line
    before every line with a conflict. *)
Lemma insertions_repair (bs : list str) (m : mode) (pre : str) :
  bs <> [] ->
  fold_right insert_at (pre ++ toPlainText bs) (plan m (length pre) bs)
  = pre ++ toPlainText (repair m bs).
Proof.
  revert m pre. induction bs as [|l bs IH]; intros m pre Hne; [contradiction|].
  destruct bs as [|x bs].
  - simpl. destruct (conflict_at m l); simpl; [|reflexivity].
    unfold insert_at. now rewrite firstn_exact, skipn_exact.
  - change (toPlainText (l :: x :: bs))
      with (l ++ LF :: toPlainText (x :: bs)).
    change (plan m (length pre) (l :: x :: bs))
      with ((if conflict_at m l then [length pre] else [])
            ++ plan (next_mode m l) (length pre + length l + 1) (x :: bs)).
    change (repair m (l :: x :: bs))
      with ((if conflict_at m l then [[]; l] else [l])
            ++ repair (next_mode m l) (x :: bs)).
    rewrite fold_right_app.
    replace (pre ++ l ++ LF :: toPlainText (x :: bs))
      with ((pre ++ l ++ [LF]) ++ toPlainText (x :: bs))
      by (now rewrite <- !app_assoc).
    replace (length pre + length l + 1) with (length (pre ++ l ++ [LF]))
      by (rewrite !length_app; simpl; lia).
    rewrite IH by discriminate.
    pose proof (@repair_nonempty (next_mode m l) (x :: bs)) as Hr.
    destruct (repair (next_mode m l) (x :: bs)) as [|y r];
      [exfalso; apply Hr; [discriminate | reflexivity]|].
    destruct (conflict_at m l); simpl.
    + unfold insert_at. rewrite <- !app_assoc.
      now rewrite firstn_exact, skipn_exact.
    + now rewrite <- !app_assoc.
Qed.

Lemma repaired_text (t : str) :
  fold_right insert_at t (plan mode_init 0 (blocks t))
  = toPlainText (repair mode_init (blocks t)).
Proof.
  rewrite <- (toPlainText_blocks t) at 1.
  apply (insertions_repair (blocks t) mode_init []).
  apply blocks_nonempty.
Qed.

(** What the pass does to the text when it runs. *)
Lemma auto_fix_text (e : editor) :
  is_fixing e = false ->
  plain (auto_fix_spacing e)
  = fold_right insert_at (plain e) (insert_positions (scan (plain e))).
Proof.
  intros Hfix. unfold auto_fix_spacing. rewrite Hfix.
  pose proof (scan_positions_valid (plain e)) as Hv.
  destruct (insert_positions (scan (plain e))) as [|p ps]; [reflexivity|].
  cbn [plain]. now apply fix_loop_text.
Qed.

Lemma auto_fix_blocks (e : editor) :
  is_fixing e = false ->
  blocks (plain (auto_fix_spacing e)) = repair mode_init (blocks (plain e)).
Proof.
  intros Hfix. rewrite auto_fix_text by exact Hfix.
  rewrite scan_plan, repaired_text.
  apply blocks_toPlainText.
  - apply repair_nonempty, blocks_nonempty.
  - apply repair_line_free, blocks_line_free.
Qed.

Lemma auto_fix_is_fixing (e : editor) :
  is_fixing e = false -> is_fixing (auto_fix_spacing e) = false.
Proof.
  intros Hfix. unfold auto_fix_spacing. rewrite Hfix.
  destruct (insert_positions (scan (plain e))); [exact Hfix | reflexivity].
Qed.

(** *** The character at the caret *)

Lemma nth_error_insert_at_before (p c : nat) (t : str) :
  p <= c -> p <= length t ->
  nth_error (insert_at p t) (c + 1) = nth_error t c.
Proof.
  intros Hpc Hp. unfold insert_at.
  assert (length (firstn p t) = p) as Hlen by (rewrite length_firstn; lia).
  rewrite nth_error_app2 by lia. rewrite Hlen.
  replace (c + 1 - p) with (S (c - p)) by lia. simpl.
  rewrite nth_error_skipn. f_equal. lia.
Qed.

Lemma nth_error_insert_at_after (p c : nat) (t : str) :
  c < p -> p <= length t ->
  nth_error (insert_at p t) c = nth_error t c.
Proof.
  intros Hcp Hp. unfold insert_at.
  assert (length (firstn p t) = p) as Hlen by (rewrite length_firstn; lia).
  rewrite nth_error_app1 by lia. rewrite nth_error_firstn.
  destruct (Nat.ltb_spec c p); [reflexivity | lia].
Qed.

(** After the insertions the character at the shifted caret is the one
    that was at the caret. *)
Lemma insertions_keep_caret (ps : list nat) (t : str) (c : nat) :
  StronglySorted lt ps -> Forall (fun p => p <= length t) ps ->
  nth_error (fold_right insert_at t ps)
    (c + length (filter (fun p => p <=? c) ps))
  = nth_error t c.
Proof.
  induction 1 as [|p ps _ IH Hall]; intros Hvalid.
  - simpl. now rewrite Nat.add_0_r.
  - inversion Hvalid as [|? ? Hp Hps]; subst. specialize (IH Hps).
    simpl. destruct (Nat.leb_spec p c) as [Hle|Hgt].
    + simpl. rewrite <- IH.
      replace (c + S (length (filter (fun q => q <=? c) ps)))
        with (c + length (filter (fun q => q <=? c) ps) + 1) by lia.
      apply nth_error_insert_at_before; [lia|].
      rewrite insertions_length. lia.
    + assert (filter (fun q => q <=? c) ps = []) as E.
      { clear IH Hps Hvalid. induction Hall as [|q ps Hq _ IH']; [reflexivity|].
        simpl. destruct (Nat.leb_spec q c); [lia | exact IH']. }
      rewrite E in *. simpl in *. rewrite Nat.add_0_r in *.
      rewrite <- IH. apply nth_error_insert_at_after; [lia|].
      rewrite insertions_length. lia.
Qed.

(** *** Subsequences *)

Lemma Subseq_refl {A : Type} (s : list A) : Subseq s s.
Proof. induction s; constructor; assumption. Qed.

Lemma Subseq_trans {A : Type} (a b c : list A) :
  Subseq a b -> Subseq b c -> Subseq a c.
Proof.
  intros Hab Hbc. revert a Hab.
  induction Hbc as [|x b c _ IH|x b c _ IH]; intros a Hab.
  - exact Hab.
  - inversion Hab; subst.
    + apply Subseq_keep, IH. assumption.
    + apply Subseq_skip, IH. assumption.
  - apply Subseq_skip, IH, Hab.
Qed.

Lemma Subseq_app {A : Type} (a a' b b' : list A) :
  Subseq a a' -> Subseq b b' -> Subseq (a ++ b) (a' ++ b').
Proof.
  intros Ha Hb. induction Ha; simpl; [exact Hb | | ]; constructor; assumption.
Qed.

Lemma Subseq_insert_at (p : nat) (t : str) : Subseq t (insert_at p t).
Proof.
  unfold insert_at. rewrite <- (firstn_skipn p t) at 1.
  apply Subseq_app; [apply Subseq_refl | apply Subseq_skip, Subseq_refl].
Qed.

Lemma Subseq_insertions (ps : list nat) (t : str) :
  Subseq t (fold_right insert_at t ps).
Proof.
  induction ps as [|p ps IH]; simpl; [apply Subseq_refl|].
  eapply Subseq_trans; [exact IH | apply Subseq_insert_at].
Qed.

Lemma blank_lines_added_refl (bs : list str) : blank_lines_added bs bs.
Proof. induction bs; constructor; assumption. Qed.

(** *** The fence toggle *)

Lemma next_mode_code (m : mode) (l : str) :
  snd (next_mode m l) = xorb (snd m) (is_fence l).
Proof.
  destruct m as [[pt pi] code]. unfold next_mode. simpl.
  destruct (is_fence l); simpl.
  - now destruct code.
  - destruct code; simpl; [reflexivity|].
    destruct (negb (block_type_eqb (identify_block_type l) empty));
      reflexivity.
Qed.

Lemma fence_count_cons (l : str) (bs : list str) :
  fence_count (l :: bs)
  = if is_fence l then S (fence_count bs) else fence_count bs.
Proof. unfold fence_count. simpl. now destruct (is_fence l). Qed.

Lemma fence_count_app (a b : list str) :
  fence_count (a ++ b) = fence_count a + fence_count b.
Proof. unfold fence_count. now rewrite filter_app, length_app. Qed.

Lemma fence_count_none (bs : list str) :
  Forall (fun l => is_fence l = false) bs -> fence_count bs = 0.
Proof.
  induction 1 as [|l bs Hl _ IH]; [reflexivity|].
  now rewrite fence_count_cons, Hl.
Qed.

Lemma final_mode_code (m : mode) (bs : list str) :
  snd (final_mode m bs) = xorb (snd m) (Nat.odd (fence_count bs)).
Proof.
  revert m. induction bs as [|l bs IH]; intros m.
  - simpl. now destruct (snd m).
  - unfold final_mode in *. simpl fold_left.
    rewrite IH, next_mode_code, fence_count_cons.
    destruct (is_fence l); [|now rewrite xorb_false_r].
    rewrite Nat.odd_succ, <- Nat.negb_odd.
    destruct (snd m), (Nat.odd (fence_count bs)); reflexivity.
Qed.

Lemma classified_at_in_code (m : mode) (l : str) :
  snd m = true -> classified_at m l = false.
Proof.
  destruct m as [[pt pi] code]. simpl. intros ->. apply andb_false_r.
Qed.

Lemma conflict_at_in_code (m : mode) (l : str) :
  snd m = true -> conflict_at m l = false.
Proof.
  intros H. unfold conflict_at. destruct m as [[pt pi] code].
  now rewrite classified_at_in_code.
Qed.

Lemma visits_range (m : mode) (start : nat) (bs : list str) (p : nat) :
  In p (visits m start bs) -> start <= p < start + extent bs.
Proof.
  intros H. apply layout_range. now apply visits_starts with (m := m).
Qed.

(** A line met inside a fence is neither recorded nor classified. *)
Lemma opaque_line (m : mode) (a : list str) (l : str) (b : list str) :
  snd (final_mode m a) = true ->
  ~ In (extent a) (plan m 0 (a ++ l :: b))
  /\ ~ In (extent a) (visits m 0 (a ++ l :: b)).
Proof.
  intros Hcode. rewrite plan_app, visits_app. simpl.
  rewrite conflict_at_in_code, classified_at_in_code by exact Hcode.
  simpl. split; intros H; apply in_app_or in H; destruct H as [H|H].
  - apply plan_range in H. lia.
  - apply plan_range in H. lia.
  - apply visits_range in H. lia.
  - apply visits_range in H. lia.
Qed.

(** ** The Boundary Repair Pass *)

(** C1.  Idempotence of the repair pass: when [auto_fix_spacing] has run,
    a second scan of the buffer records no insertion position, and a
    second run leaves the editor, its buffer text included, as the first
    run left it. *)
Theorem auto_fix_spacing_idempotent (e : editor) :
  is_fixing e = false ->
  insert_positions (scan (plain (auto_fix_spacing e))) = []
  /\ auto_fix_spacing (auto_fix_spacing e) = auto_fix_spacing e.
Proof.
  intros Hfix.
  assert (insert_positions (scan (plain (auto_fix_spacing e))) = []) as Hnone.
  { rewrite scan_plan, auto_fix_blocks by exact Hfix. apply plan_repair. }
  split; [exact Hnone|].
  unfold auto_fix_spacing at 1.
  rewrite (auto_fix_is_fixing e Hfix), Hnone. reflexivity.
Qed.

Lemma auto_fix_spacing_idempotent_witness :
  is_fixing (three_lines 3) = false
  /\ (insert_positions (scan (plain (auto_fix_spacing (three_lines 3)))) = []
      /\ auto_fix_spacing (auto_fix_spacing (three_lines 3))
         = auto_fix_spacing (three_lines 3)).
Proof.
  split; [reflexivity|].
  apply (auto_fix_spacing_idempotent (three_lines 3)). reflexivity.
Defined.

(** C2.  The insertion loop of the repair pass goes through the recorded
    positions in descending order, inserting one line feed at each, and
    leaves the caret at its original offset plus one for every recorded
    position at or before that offset; at that offset stands the
    character that stood at the caret before. *)
Theorem auto_fix_spacing_caret (e : editor) :
  is_fixing e = false ->
  position (textCursor e) <= length (plain e) ->
  let ps := insert_positions (scan (plain e)) in
  StronglySorted gt (rev ps)
  /\ plain (auto_fix_spacing e)
     = fold_left (fun t p => insert_at p t) (rev ps) (plain e)
  /\ position (textCursor (auto_fix_spacing e))
     = position (textCursor e)
       + length (filter (fun p => p <=? position (textCursor e)) ps)
  /\ nth_error (plain (auto_fix_spacing e))
       (position (textCursor e)
        + length (filter (fun p => p <=? position (textCursor e)) ps))
     = nth_error (plain e) (position (textCursor e)).
Proof.
  intros Hfix Hcaret ps.
  assert (StronglySorted lt ps) as Hsorted.
  { unfold ps. rewrite scan_plan. apply plan_sorted. }
  pose proof (scan_positions_valid (plain e)) as Hvalid. fold ps in Hvalid.
  split; [now apply sorted_rev|].
  split; [rewrite fold_left_insertions; now apply auto_fix_text|].
  split;
    [|rewrite auto_fix_text by exact Hfix; now apply insertions_keep_caret].
  unfold auto_fix_spacing. rewrite Hfix. fold ps.
  destruct ps as [|p ps'] eqn:Eps; [simpl; lia|].
  rewrite <- Eps in *. cbn [textCursor].
  unfold setPosition.
  rewrite fix_loop_text by exact Hvalid.
  rewrite fix_loop_old_pos by exact Hsorted.
  rewrite insertions_length.
  pose proof (filter_length_le (fun q => q <=? position (textCursor e)) ps).
  destruct (Nat.leb_spec
              (position (textCursor e)
               + length (filter (fun q => q <=? position (textCursor e)) ps))
              (length (plain e) + length ps)); [reflexivity | lia].
Qed.

Lemma auto_fix_spacing_caret_witness :
  is_fixing (three_lines 12) = false
  /\ position (textCursor (three_lines 12))
     <= length (plain (three_lines 12))
  /\ position (textCursor (auto_fix_spacing (three_lines 12))) = 13.
Proof.
  split; [reflexivity|]. split; [vm_compute; lia|].
  destruct (auto_fix_spacing_caret (three_lines 12))
    as (_ & _ & H & _); [reflexivity | vm_compute; lia |].
  rewrite H. reflexivity.
Defined.

(** C10.  The repair pass only inserts line feeds, and only at starts of
    lines: every recorded position is the position of a block, never that
    of the first block; the text is the original with a line feed put in
    at each recorded position; the original text is a subsequence of the
    repaired text; the repaired lines are the original lines with empty
    lines added; and the first line stays the first line. *)
Theorem auto_fix_spacing_only_adds_blank_lines (e : editor) :
  let ps := insert_positions (scan (plain e)) in
  Forall (fun p => In p (map block_position (document (plain e)))) ps
  /\ ~ In 0 ps
  /\ plain (auto_fix_spacing e)
     = (if is_fixing e then plain e else fold_right insert_at (plain e) ps)
  /\ Subseq (plain e) (plain (auto_fix_spacing e))
  /\ blank_lines_added (blocks (plain e))
       (blocks (plain (auto_fix_spacing e)))
  /\ hd_error (blocks (plain (auto_fix_spacing e)))
     = hd_error (blocks (plain e)).
Proof.
  intros ps. unfold ps.
  split.
  { rewrite scan_plan. apply Forall_forall. intros p Hp.
    unfold document. apply visits_starts with (m := mode_init).
    now apply plan_visits. }
  split; [rewrite scan_plan; apply plan_first|].
  destruct (is_fixing e) eqn:Hfix.
  - assert (auto_fix_spacing e = e) as ->
        by (unfold auto_fix_spacing; now rewrite Hfix).
    repeat split; [apply Subseq_refl | apply blank_lines_added_refl].
  - split; [now apply auto_fix_text|].
    split; [rewrite auto_fix_text by exact Hfix; apply Subseq_insertions|].
    rewrite auto_fix_blocks by exact Hfix.
    split; [apply repair_blank_lines|].
    pose proof (blocks_nonempty (plain e)) as Hne.
    destruct (blocks (plain e)) as [|l bs]; [contradiction|].
    change (repair mode_init (l :: bs))
      with ((if conflict_at mode_init l then [[]; l] else [l])
            ++ repair (next_mode mode_init l) bs).
    now rewrite conflict_at_init.
Qed.

(** C9.  Code-fence opacity.  Take a fence line that opens a fence (an
    even number of fence lines come before it), the lines up to the next
    fence line, and that closing fence line.  No line in between has its
    position recorded for an insertion, and none is handed to
    [identify_block_type].  The fence state is a toggle without nesting:
    after any number of lines, [in_code_block] holds exactly when an odd
    number of fence lines has been scanned. *)
Theorem code_fence_opacity (t : str) (pre : list str) (opening : str)
        (inside : list str) (closing : str) (post : list str) :
  blocks t = pre ++ opening :: inside ++ closing :: post ->
  Nat.even (fence_count pre) = true ->
  is_fence opening = true ->
  Forall (fun l => is_fence l = false) inside ->
  is_fence closing = true ->
  (forall a l b, inside = a ++ l :: b ->
     ~ In (extent (pre ++ opening :: a)) (insert_positions (scan t))
     /\ ~ In (extent (pre ++ opening :: a)) (classified (scan t)))
  /\ (forall seen rest, blocks t = seen ++ rest ->
        in_code_block (fold_left scan_block (layout 0 seen) scan_init)
        = Nat.odd (fence_count seen)).
Proof.
  intros Ht Heven Hopen Hinside Hclose. split.
  - intros a l b Hsplit.
    rewrite scan_plan, scan_visits, Ht, Hsplit.
    replace (pre ++ opening :: (a ++ l :: b) ++ closing :: post)
      with ((pre ++ opening :: a) ++ l :: (b ++ closing :: post))
      by (rewrite <- ?app_assoc; simpl; rewrite <- ?app_assoc; reflexivity).
    apply opaque_line.
    rewrite final_mode_code, fence_count_app, fence_count_cons, Hopen.
    rewrite (fence_count_none a).
    + simpl. replace (fence_count pre + 1) with (S (fence_count pre)) by lia.
      rewrite Nat.odd_succ. exact Heven.
    + subst inside. apply Forall_app in Hinside. tauto.
  - intros seen rest _.
    destruct (scan_layout seen 0 scan_init) as (_ & _ & Hm).
    apply (f_equal snd) in Hm. simpl in Hm. rewrite Hm.
    now rewrite final_mode_code.
Qed.

Lemma code_fence_opacity_witness :
  (forall a l b,
     [lit "x = 1"; lit "- not a list"] = a ++ l :: b ->
     ~ In (extent ([lit "Some text"] ++ lit "```" :: a))
          (insert_positions
             (scan (buffer ["Some text"; "```"; "x = 1"; "- not a list";
                            "```"; "- item"]%string)))
     /\ ~ In (extent ([lit "Some text"] ++ lit "```" :: a))
             (classified
                (scan (buffer ["Some text"; "```"; "x = 1"; "- not a list";
                               "```"; "- item"]%string))))
  /\ (forall seen rest,
        blocks (buffer ["Some text"; "```"; "x = 1"; "- not a list";
                        "```"; "- item"]%string) = seen ++ rest ->
        in_code_block (fold_left scan_block (layout 0 seen) scan_init)
        = Nat.odd (fence_count seen)).
Proof.
  apply (code_fence_opacity
           (buffer ["Some text"; "```"; "x = 1"; "- not a list";
                    "```"; "- item"]%string)
           [lit "Some text"] (lit "```") [lit "x = 1"; lit "- not a list"]
           (lit "```") [lit "- item"]).
  - reflexivity.
  - reflexivity.
  - reflexivity.
  - repeat constructor.
  - reflexivity.
Defined.

(** ** The Line Classifier and the Conflict Rule Table *)

Lemma hash_not_space (c : ascii) :
  isspace c = true -> Ascii.eqb "#" c = false.
Proof.
  intros H. destruct (Ascii.eqb_spec "#"%char c) as [<-|]; [|reflexivity].
  discriminate H.
Qed.

Lemma repeat_hashes (n : nat) :
  Forall (fun c => Ascii.eqb "#" c = true) (repeat "#"%char n).
Proof. induction n; simpl; constructor; [reflexivity | assumption]. Qed.

(** [r'^#{1,6}\s'] on one to six hashes and a white space character. *)
Lemma heading_matches (n : nat) (w : ascii) (rest : str) :
  1 <= n <= 6 -> isspace w = true ->
  Re.heading (repeat "#"%char n ++ w :: rest) = true.
Proof.
  intros Hn Hw. unfold Re.heading.
  rewrite take_while_run, drop_while_run;
    try apply repeat_hashes; try now apply hash_not_space.
  rewrite repeat_length, Hw.
  destruct (Nat.leb_spec 1 n); [|lia].
  destruct (Nat.leb_spec n 6); [reflexivity | lia].
Qed.

(** C3, counterexample.  The line ["# Title"] matches the heading pattern
    after stripping and is not empty, yet [identify_block_type] gives it
    the tag ['text'], the tag of the plain line ["Title"]: the source has
    no heading tag. *)
Lemma heading_tag_counterexample :
  strip (lit "# Title") <> []
  /\ Re.heading (lstrip (lit "# Title")) = true
  /\ identify_block_type (lit "# Title") = text
  /\ identify_block_type (lit "# Title") = identify_block_type (lit "Title").
Proof. repeat split; try reflexivity. discriminate. Qed.

(** C3, amended.  A line that is white space, then one to six hashes, then
    a white space character, is given the tag ['text'] by
    [identify_block_type]: the same tag as plain text. *)
Theorem heading_is_text (indent : str) (n : nat) (w : ascii) (rest : str) :
  all_space indent -> 1 <= n <= 6 -> isspace w = true ->
  strip (indent ++ repeat "#"%char n ++ w :: rest) <> []
  /\ Re.heading (lstrip (indent ++ repeat "#"%char n ++ w :: rest)) = true
  /\ identify_block_type (indent ++ repeat "#"%char n ++ w :: rest) = text.
Proof.
  intros Hi Hn Hw.
  destruct n as [|n]; [lia|]. simpl repeat. simpl app.
  assert (lstrip (indent ++ "#"%char :: repeat "#"%char n ++ w :: rest)
          = repeat "#"%char (S n) ++ w :: rest) as Hl.
  { unfold lstrip. now rewrite drop_while_run. }
  assert (Re.heading (repeat "#"%char (S n) ++ w :: rest) = true) as Hh
      by now apply heading_matches.
  assert (strip (indent ++ "#"%char :: repeat "#"%char n ++ w :: rest) <> [])
    as Hs by (rewrite strip_indented by easy; discriminate).
  split; [exact Hs|]. split; [now rewrite Hl|].
  unfold identify_block_type. rewrite lstrip_strip, Hl, Hh.
  destruct (strip (indent ++ "#"%char :: repeat "#"%char n ++ w :: rest));
    [contradiction | reflexivity].
Qed.

Lemma heading_is_text_witness :
  all_space (lit "  ") /\ 1 <= 2 <= 6 /\ isspace " " = true
  /\ identify_block_type (lit "  ## Title") = text.
Proof.
  split; [repeat constructor|]. split; [lia|]. split; [reflexivity|].
  apply (heading_is_text (lit "  ") 2 " " (lit "Title"));
    [repeat constructor | lia | reflexivity].
Defined.

(** C4.  Plain text directly followed by a list-like line (['ul'], ['ol']
    or ['task']) is a conflict whatever the indents; and the repair of the
    buffer ["Some text"], ["- item one"] puts one empty line between the
    two lines. *)
Theorem text_then_list_needs_separator (prev curr : str) :
  identify_block_type prev = text ->
  In (identify_block_type curr) list_types ->
  (forall i1 i2,
     check_conflict (identify_block_type prev) (identify_block_type curr)
       i1 i2 = true)
  /\ (forall caret,
        plain (auto_fix_spacing
                 (editing ["Some text"; "- item one"]%string caret))
        = buffer ["Some text"; ""; "- item one"]%string).
Proof.
  intros Hprev Hcurr. split.
  - intros i1 i2. rewrite Hprev.
    destruct Hcurr as [<-|[<-|[<-|[]]]]; reflexivity.
  - intros caret. rewrite auto_fix_text by reflexivity. reflexivity.
Qed.

Lemma text_then_list_needs_separator_witness :
  identify_block_type (lit "Some text") = text
  /\ In (identify_block_type (lit "- item one")) list_types
  /\ check_conflict (identify_block_type (lit "Some text"))
       (identify_block_type (lit "- item one"))
       (get_indent (lit "Some text")) (get_indent (lit "- item one"))
     = true.
Proof.
  split; [reflexivity|]. split; [left; reflexivity|].
  apply (text_then_list_needs_separator (lit "Some text")
           (lit "- item one")); [reflexivity | left; reflexivity].
Defined.

(** C5.  A list-like line directly followed by plain text is a conflict
    exactly when the indent of the plain line is at most that of the list
    line; and the repair of the buffer ["- item"], ["  continued text"]
    records no position and changes nothing. *)
Theorem list_then_text_needs_separator (prev curr : str) :
  In (identify_block_type prev) list_types ->
  identify_block_type curr = text ->
  (forall i1 i2,
     check_conflict (identify_block_type prev) (identify_block_type curr)
       i1 i2 = (i2 <=? i1))
  /\ insert_positions (scan (buffer ["- item"; "  continued text"]%string))
     = []
  /\ (forall caret,
        auto_fix_spacing
          (editing ["- item"; "  continued text"]%string caret)
        = editing ["- item"; "  continued text"]%string caret).
Proof.
  intros Hprev Hcurr. split; [|split].
  - intros i1 i2. rewrite Hcurr.
    destruct Hprev as [<-|[<-|[<-|[]]]]; unfold check_conflict; simpl;
      now destruct (i2 <=? i1).
  - reflexivity.
  - intros caret. reflexivity.
Qed.

Lemma list_then_text_needs_separator_witness :
  In (identify_block_type (lit "- item")) list_types
  /\ identify_block_type (lit "  continued text") = text
  /\ check_conflict (identify_block_type (lit "- item"))
       (identify_block_type (lit "  continued text"))
       (get_indent (lit "- item")) (get_indent (lit "  continued text"))
     = (get_indent (lit "  continued text") <=? get_indent (lit "- item")).
Proof.
  split; [left; reflexivity|]. split; [reflexivity|].
  apply (list_then_text_needs_separator (lit "- item")
           (lit "  continued text")); [left; reflexivity | reflexivity].
Defined.

(** ** Characters and list prefixes *)

Ltac each_char c :=
  destruct c as [[] [] [] [] [] [] [] []];
  try reflexivity; try discriminate.

Lemma bullet_not_space (b : ascii) :
  Re.one_of "-*+" b = true -> isspace b = false.
Proof. each_char b. Qed.

Lemma bullet_not_digit (b : ascii) :
  Re.one_of "-*+" b = true -> isdigit b = false.
Proof. each_char b. Qed.

Lemma task_bullet_is_bullet (b : ascii) :
  Re.one_of "-*" b = true -> Re.one_of "-*+" b = true.
Proof. each_char b. Qed.

Lemma digit_not_space (d : ascii) : isdigit d = true -> isspace d = false.
Proof. each_char d. Qed.

Lemma digit_not_bullet (d : ascii) :
  isdigit d = true -> Re.one_of "-*+" d = false.
Proof. each_char d. Qed.

Lemma digit_not_task_bullet (d : ascii) :
  isdigit d = true -> Re.one_of "-*" d = false.
Proof. each_char d. Qed.

Lemma str_eqb_refl (s : str) : str_eqb s s = true.
Proof. unfold str_eqb. now destruct (list_eq_dec ascii_dec s s). Qed.

Lemma str_eqb_neq (a b : str) : a <> b -> str_eqb a b = false.
Proof. unfold str_eqb. now destruct (list_eq_dec ascii_dec a b). Qed.

Lemma take_run (p : ascii -> bool) (ws tail : str) :
  run_then p ws tail -> take_while p (ws ++ tail) = ws.
Proof. intros [H1 H2]. now apply take_while_run. Qed.

(** [r'^(\s{0,})([-*]) \[[xX ]\]\s+'] on a task item. *)
Lemma task_prefix_matches (indent : str) (b c : ascii) (ws tail : str) :
  all_space indent -> Re.one_of "-*" b = true ->
  Re.one_of "xX " c = true -> ws <> [] -> run_then isspace ws tail ->
  Re.task_prefix
    (indent ++ b :: " "%char :: "["%char :: c :: "]"%char :: ws ++ tail)
  = Some (Re.PrefixMatch
            (indent ++ [b; " "; "["; c; "]"]%char ++ ws) indent [b]).
Proof.
  intros Hi Hb Hc Hne Hws. unfold Re.task_prefix.
  pose proof (bullet_not_space b (task_bullet_is_bullet b Hb)) as Hbs.
  rewrite take_while_run, drop_while_run by easy.
  rewrite Hb, Hc. simpl. rewrite take_run by exact Hws.
  destruct ws; [contradiction | reflexivity].
Qed.

(** [r'^(\s{0,})([-*+])\s+'] on a bullet item. *)
Lemma ul_prefix_matches (indent : str) (b : ascii) (ws tail : str) :
  all_space indent -> Re.one_of "-*+" b = true ->
  ws <> [] -> run_then isspace ws tail ->
  Re.ul_prefix (indent ++ b :: ws ++ tail)
  = Some (Re.PrefixMatch (indent ++ [b] ++ ws) indent [b]).
Proof.
  intros Hi Hb Hne Hws. unfold Re.ul_prefix.
  pose proof (bullet_not_space b Hb) as Hbs.
  rewrite take_while_run, drop_while_run by easy.
  rewrite Hb. rewrite take_run by exact Hws.
  destruct ws; [contradiction | reflexivity].
Qed.

(** [r'^(\s{0,})(\d+)\.\s+'] on a numbered item. *)
Lemma ol_prefix_matches (indent digits : str) (ws tail : str) :
  all_space indent -> digits <> [] ->
  Forall (fun c => isdigit c = true) digits ->
  ws <> [] -> run_then isspace ws tail ->
  Re.ol_prefix (indent ++ digits ++ "."%char :: ws ++ tail)
  = Some (Re.PrefixMatch (indent ++ digits ++ ["."%char] ++ ws)
            indent digits).
Proof.
  intros Hi Hne Hd Hwne Hws. unfold Re.ol_prefix.
  destruct digits as [|d ds]; [contradiction|].
  inversion Hd as [|? ? Hd1 Hds]; subst.
  pose proof (digit_not_space d Hd1) as Hsp.
  simpl app.
  rewrite take_while_run, drop_while_run by easy.
  change (d :: ds ++ "."%char :: ws ++ tail)
    with ((d :: ds) ++ "."%char :: ws ++ tail).
  rewrite take_while_run, drop_while_run by easy.
  simpl. rewrite take_run by exact Hws.
  destruct ws; [contradiction | reflexivity].
Qed.

(** No digits after the indent: the numbered pattern fails. *)
Lemma ol_prefix_fails (indent : str) (b : ascii) (tail : str) :
  all_space indent -> isspace b = false -> isdigit b = false ->
  Re.ol_prefix (indent ++ b :: tail) = None.
Proof.
  intros Hi Hs Hd. unfold Re.ol_prefix.
  rewrite drop_while_run by easy. simpl. now rewrite Hd.
Qed.

(** No bullet after the indent: the bullet and task patterns fail. *)
Lemma ul_prefix_fails (indent : str) (d : ascii) (tail : str) :
  all_space indent -> isspace d = false -> Re.one_of "-*+" d = false ->
  Re.ul_prefix (indent ++ d :: tail) = None.
Proof.
  intros Hi Hs Hd. unfold Re.ul_prefix.
  rewrite drop_while_run by easy. now rewrite Hd.
Qed.

Lemma task_prefix_fails (indent : str) (d : ascii) (tail : str) :
  all_space indent -> isspace d = false -> Re.one_of "-*" d = false ->
  Re.task_prefix (indent ++ d :: tail) = None.
Proof.
  intros Hi Hs Hd. unfold Re.task_prefix.
  rewrite drop_while_run by easy. rewrite Hd.
  destruct tail as [|? [|? [|? [|? ?]]]]; reflexivity.
Qed.

(** A bullet followed by white space only: the task pattern fails. *)
Lemma task_prefix_fails_bare (indent : str) (b : ascii) (ws : str) :
  all_space indent -> isspace b = false -> all_space ws ->
  Re.task_prefix (indent ++ b :: ws) = None.
Proof.
  intros Hi Hs Hws. unfold Re.task_prefix.
  rewrite drop_while_run by easy.
  destruct ws as [|w1 [|w2 ws]]; try reflexivity.
  inversion Hws as [|? ? _ Hws']; subst. inversion Hws' as [|? ? H2 _]; subst.
  assert (Ascii.eqb w2 "[" = false) as E.
  { destruct (Ascii.eqb_spec w2 "["%char) as [->|];
      [discriminate H2 | reflexivity]. }
  destruct ws as [|? [|? ?]]; try reflexivity; rewrite E, !andb_false_r;
    simpl; reflexivity.
Qed.

(** ** Edits through a cursor *)

(** Replacing the part [mid] of a text. *)
Lemma splice (pre mid post s : str) (lo hi : nat) :
  lo = length pre -> hi = length pre + length mid ->
  firstn lo (pre ++ mid ++ post) ++ s ++ skipn hi (pre ++ mid ++ post)
  = pre ++ s ++ post.
Proof.
  intros -> ->. rewrite firstn_exact.
  rewrite <- length_app, (app_assoc pre mid post), skipn_exact. reflexivity.
Qed.

Lemma line_free_app (a b : str) :
  line_free (a ++ b) <-> line_free a /\ line_free b.
Proof.
  unfold line_free. split.
  - intros H. split; intros Hin; apply H, in_or_app; tauto.
  - intros [Ha Hb] H. apply in_app_or in H. tauto.
Qed.

Lemma line_free_cons (c : ascii) (s : str) :
  line_free (c :: s) <-> c <> LF /\ line_free s.
Proof.
  unfold line_free. simpl. split.
  - intros H. split.
    + intros ->. apply H. now left.
    + intros Hin. apply H. now right.
  - intros [Hc Hs] [H|H]; [now apply Hc | now apply Hs].
Qed.

Lemma line_in_blocks (t : str) (before : list str) (line : str)
      (after : list str) :
  blocks t = before ++ line :: after -> line_free line.
Proof.
  intros H. pose proof (blocks_line_free t) as Hall. rewrite H in Hall.
  apply Forall_app in Hall. destruct Hall as [_ Hla]. now inversion Hla.
Qed.

(** A line break and a prefix typed at the end of a line. *)
Lemma insert_new_line_at_end (e : editor) (before : list str) (line : str)
      (after : list str) (prefix : str) :
  blocks (plain e) = before ++ line :: after ->
  textCursor e
  = Cursor (extent before + length line) (extent before + length line) ->
  insert_new_line_with_prefix e prefix
  = Editor (toPlainText (before ++ [line; prefix] ++ after))
      (Cursor (extent before + length line + 1 + length prefix)
              (extent before + length line + 1 + length prefix))
      (is_fixing e).
Proof.
  intros Hb Hc. unfold insert_new_line_with_prefix, insertText.
  rewrite Hc. unfold selectionStart, selectionEnd. simpl anchor. simpl position.
  rewrite !Nat.min_id, !Nat.max_id.
  rewrite (plain_around _ _ _ _ Hb).
  rewrite toPlainText_around by discriminate.
  f_equal.
  rewrite <- (lead_length before).
  replace (lead before ++ line ++ trail after)
    with ((lead before ++ line) ++ [] ++ trail after)
    by (now rewrite <- app_assoc).
  rewrite (splice (lead before ++ line) [] (trail after) [LF])
    by (rewrite ?length_app; simpl; lia).
  replace ((lead before ++ line) ++ [LF] ++ trail after)
    with (((lead before ++ line) ++ [LF]) ++ [] ++ trail after)
    by (now rewrite <- !app_assoc).
  rewrite (splice ((lead before ++ line) ++ [LF]) [] (trail after) prefix)
    by (rewrite ?length_app; simpl; lia).
  simpl. rewrite <- !app_assoc. reflexivity.
Qed.

(** ** The List Continuation Controller *)

Lemma strip_task_item (indent : str) (b c : ascii) (ws : str) (x : ascii)
      (rest : str) :
  all_space indent -> Re.one_of "-*" b = true ->
  isspace x = false ->
  strip (task_item indent b c ws (x :: rest))
  = b :: ([" "; "["; c; "]"]%char ++ ws) ++ x :: rstrip rest.
Proof.
  intros Hi Hb Hx. unfold task_item.
  pose proof (bullet_not_space b (task_bullet_is_bullet b Hb)) as Hbs.
  rewrite strip_indented by assumption. f_equal.
  change (" "%char :: "["%char :: c :: "]"%char :: ws ++ x :: rest)
    with (([" "; "["; c; "]"]%char ++ ws) ++ x :: rest).
  now apply rstrip_stop.
Qed.

Lemma strip_task_marker (indent : str) (b c : ascii) (ws : str) :
  all_space indent -> Re.one_of "-*" b = true -> all_space ws ->
  strip (indent ++ [b; " "; "["; c; "]"]%char ++ ws)
  = [b; " "; "["; c; "]"]%char.
Proof.
  intros Hi Hb Hws.
  pose proof (bullet_not_space b (task_bullet_is_bullet b Hb)) as Hbs.
  change (indent ++ [b; " "; "["; c; "]"]%char ++ ws)
    with (indent ++ b :: [" "; "["; c]%char ++ "]"%char :: ws).
  rewrite strip_indented by assumption.
  rewrite rstrip_stop by reflexivity.
  now rewrite rstrip_all_space.
Qed.

(** C6.  A line break at the end of a task item that has text after its
    marker: the key is handled, the line stays as it is, and a new line
    follows it that consists of the same indent, the same bullet and the
    unchecked marker, whatever the state of the checkbox was; the caret
    is at the end of the new line.  On ["- [ ] buy milk"] the result is
    the two lines ["- [ ] buy milk"] and ["- [ ] "] with the caret after
    the new marker. *)
Theorem task_item_line_break (k : key) (e : editor)
        (before after : list str) (indent : str) (b c : ascii) (ws : str)
        (x : ascii) (rest : str) :
  k = Key_Return \/ k = Key_Enter ->
  all_space indent -> Re.one_of "-*" b = true ->
  Re.one_of "xX " c = true -> ws <> [] -> all_space ws ->
  isspace x = false ->
  blocks (plain e)
  = before ++ task_item indent b c ws (x :: rest) :: after ->
  textCursor e
  = Cursor (extent before + length (task_item indent b c ws (x :: rest)))
           (extent before + length (task_item indent b c ws (x :: rest))) ->
  let line := task_item indent b c ws (x :: rest) in
  let fresh := indent ++ b :: lit " [ ] " in
  let caret := extent (before ++ [line]) + length fresh in
  keyPressEvent k e
  = Handled (Editor (toPlainText (before ++ line :: fresh :: after))
                    (Cursor caret caret) (is_fixing e))
  /\ blocks (toPlainText (before ++ line :: fresh :: after))
     = before ++ line :: fresh :: after
  /\ keyPressEvent Key_Return (editing ["- [ ] buy milk"]%string 14)
     = Handled (editing ["- [ ] buy milk"; "- [ ] "]%string 21).
Proof.
  intros Hk Hi Hb Hc Hne Hws Hx Hblocks Hcursor line fresh caret.
  pose proof (task_bullet_is_bullet b Hb) as Hb'.
  pose proof (bullet_not_space b Hb') as Hbs.
  pose proof (line_in_blocks _ _ _ _ Hblocks) as Hfree. fold line in Hfree.
  assert (line_free fresh) as Hfresh.
  { unfold line, task_item in Hfree. apply line_free_app in Hfree.
    destruct Hfree as [Hfi Hfr]. apply line_free_cons in Hfr.
    unfold fresh. apply line_free_app. split; [exact Hfi|].
    apply line_free_cons. split; [tauto|].
    intros [H|[H|[H|[H|[H|[]]]]]]; discriminate H. }
  assert (Re.task_prefix line
          = Some (Re.PrefixMatch
                    (indent ++ [b; " "; "["; c; "]"]%char ++ ws) indent [b]))
    as Htask.
  { unfold line, task_item.
    apply task_prefix_matches; try assumption. split; assumption. }
  assert (Re.ul_prefix line
          = Some (Re.PrefixMatch (indent ++ [b] ++ [" "%char]) indent [b]))
    as Hul.
  { unfold line, task_item.
    apply (ul_prefix_matches indent b [" "%char]
             ("["%char :: c :: "]"%char :: ws ++ x :: rest));
      try assumption; try discriminate.
    split; [repeat constructor | reflexivity]. }
  assert (Re.ol_prefix line = None) as Hol.
  { unfold line, task_item.
    apply ol_prefix_fails; try assumption. now apply bullet_not_digit. }
  assert (strip line = b :: ([" "; "["; c; "]"]%char ++ ws) ++ x :: rstrip rest)
    as Hstrip by (now apply strip_task_item).
  split; [|split; [|reflexivity]].
  - assert (keyPressEvent Key_Return e = keyPressEvent k e) as <-
        by (destruct Hk; subst k; reflexivity).
    unfold keyPressEvent. cbv zeta.
    rewrite (block_at _ before line after);
      [|exact Hblocks | rewrite Hcursor; cbn [position]; fold line; lia].
    cbn [block_text]. rewrite Htask, Hul, Hol.
    cbn [Re.group0 Re.group1 Re.group2].
    rewrite strip_task_marker by assumption. rewrite Hstrip.
    replace (length (b :: ([" "; "["; c; "]"]%char ++ ws) ++ x :: rstrip rest)
             =? length [b; " "; "["; c; "]"]%char) with false
      by (symmetry; apply Nat.eqb_neq; simpl; rewrite length_app; simpl; lia).
    rewrite str_eqb_neq by (simpl; discriminate).
    rewrite (insert_new_line_at_end e before line after) by assumption.
    do 2 f_equal.
    unfold caret, fresh. rewrite extent_app. simpl extent.
    f_equal; simpl; lia.
  - apply blocks_toPlainText.
    + destruct before; discriminate.
    + pose proof (blocks_line_free (plain e)) as Hall.
      rewrite Hblocks in Hall. apply Forall_app in Hall.
      destruct Hall as [Hbefore Hrest]. inversion Hrest; subst.
      apply Forall_app. split; [assumption|].
      constructor; [assumption|]. constructor; assumption.
Qed.

Lemma task_item_line_break_witness :
  keyPressEvent Key_Return (editing ["- [x] buy milk"]%string 14)
  = Handled (editing ["- [x] buy milk"; "- [ ] "]%string 21).
Proof.
  destruct (task_item_line_break Key_Return
              (editing ["- [x] buy milk"]%string 14) [] [] []
              "-"%char "x"%char [" "%char] "b"%char (lit "uy milk"))
    as [H _].
  - left; reflexivity.
  - constructor.
  - reflexivity.
  - reflexivity.
  - discriminate.
  - repeat constructor.
  - reflexivity.
  - reflexivity.
  - reflexivity.
  - exact H.
Defined.

(** Cutting the part [mid] out of a text. *)
Lemma cut (pre mid post : str) (lo hi : nat) :
  lo = length pre -> hi = length pre + length mid ->
  firstn lo (pre ++ mid ++ post) ++ skipn hi (pre ++ mid ++ post)
  = pre ++ post.
Proof. intros Hlo Hhi. exact (splice pre mid post [] lo hi Hlo Hhi). Qed.

(** [remove_current_line_marker] on the first block of the document: the
    text of the block goes, and the new block comes on top of it. *)
Lemma remove_marker_first (e : editor) (line : str) (after : list str)
      (c : QTextCursor) :
  blocks (plain e) = line :: after -> line <> [] ->
  position c <= length line ->
  remove_current_line_marker e c
  = Editor (toPlainText ([] :: [] :: after)) (Cursor 1 1) (is_fixing e).
Proof.
  intros Hb Hne Hpos. unfold remove_current_line_marker.
  unfold select_BlockUnderCursor.
  rewrite (block_at (plain e) [] line after c) by (simpl; auto; lia).
  unfold block_length. cbn [block_text block_position extent].
  destruct (Nat.eqb_spec (length line + 1) 1) as [E|_];
    [destruct line; [contradiction | simpl in E; lia]|].
  cbn [Nat.eqb]. unfold removeSelectedText, insertBlock, insertText.
  unfold selectionStart, selectionEnd. cbn [anchor position].
  rewrite !Nat.min_0_l, !Nat.max_0_l.
  rewrite (plain_around (plain e) [] line after Hb).
  cbn [lead map concat app firstn skipn Nat.add Nat.min Nat.max length].
  rewrite skipn_exact. rewrite !toPlainText_cons. reflexivity.
Qed.

(** [remove_current_line_marker] on a later block: the text of the block
    goes with the separator before it, and the new block takes its
    place. *)
Lemma remove_marker_later (e : editor) (before : list str) (prev line : str)
      (after : list str) (c : QTextCursor) :
  blocks (plain e) = (before ++ [prev]) ++ line :: after -> line <> [] ->
  extent (before ++ [prev]) <= position c
  <= extent (before ++ [prev]) + length line ->
  remove_current_line_marker e c
  = Editor (toPlainText ((before ++ [prev]) ++ [] :: after))
      (Cursor (extent (before ++ [prev])) (extent (before ++ [prev])))
      (is_fixing e).
Proof.
  intros Hb Hne Hpos. unfold remove_current_line_marker.
  unfold select_BlockUnderCursor.
  rewrite (block_at (plain e) (before ++ [prev]) line after c) by assumption.
  unfold block_length. cbn [block_text block_position].
  destruct (Nat.eqb_spec (length line + 1) 1) as [E|_];
    [destruct line; [contradiction | simpl in E; lia]|].
  assert (extent (before ++ [prev]) = length (lead before ++ prev) + 1) as HE.
  { rewrite extent_app, length_app, lead_length. simpl. lia. }
  destruct (Nat.eqb_spec (extent (before ++ [prev])) 0) as [E|_]; [lia|].
  unfold removeSelectedText, insertBlock, insertText.
  unfold selectionStart, selectionEnd. cbn [anchor position].
  rewrite Nat.min_id, Nat.max_id.
  rewrite Nat.min_l, Nat.max_r by lia.
  rewrite (plain_around (plain e) (before ++ [prev]) line after Hb).
  assert (toPlainText ((before ++ [prev]) ++ [] :: after)
          = lead (before ++ [prev]) ++ trail after) as ->
      by (apply (toPlainText_around (before ++ [prev]) [[]] after);
          discriminate).
  assert (lead (before ++ [prev]) = lead before ++ prev ++ [LF]) as ->
      by (rewrite lead_app; unfold lead at 2; simpl; now rewrite app_nil_r).
  replace ((lead before ++ prev ++ [LF]) ++ line ++ trail after)
    with ((lead before ++ prev) ++ (LF :: line) ++ trail after)
    by (rewrite <- !app_assoc; reflexivity).
  rewrite (cut (lead before ++ prev) (LF :: line) (trail after))
    by (simpl; lia).
  replace ((lead before ++ prev) ++ trail after)
    with ((lead before ++ prev) ++ [] ++ trail after) by reflexivity.
  rewrite (splice (lead before ++ prev) [] (trail after) [LF])
    by (simpl; lia).
  f_equal.
  - simpl. rewrite <- !app_assoc. reflexivity.
  - simpl. f_equal; lia.
Qed.

Lemma bare_marker_not_empty (line : str) : bare_marker line -> line <> [].
Proof.
  intros [indent b c ws|indent b ws|indent digits ws Hi Hne];
    unfold task_item, bullet_item, numbered_item; intros;
    destruct indent; try discriminate.
  destruct digits; [contradiction | discriminate].
Qed.

(** On a bare marker one of the three termination tests of
    [keyPressEvent] holds. *)
Lemma bare_marker_terminates (k : key) (e : editor) (line : str) :
  k = Key_Return \/ k = Key_Enter ->
  bare_marker line ->
  block_text (block (plain e) (textCursor e)) = line ->
  keyPressEvent k e
  = Handled (remove_current_line_marker e (textCursor e)).
Proof.
  intros Hk Hbare Hline.
  assert (keyPressEvent Key_Return e = keyPressEvent k e) as <-
      by (destruct Hk; subst k; reflexivity).
  unfold keyPressEvent. cbv zeta. rewrite Hline. clear Hline.
  destruct Hbare as [indent b c ws Hi Hb Hc Hne Hws
                    |indent b ws Hi Hb Hne Hws
                    |indent digits ws Hi Hne Hd Hwne Hws].
  - unfold task_item.
    rewrite (task_prefix_matches indent b c ws [] Hi Hb Hc Hne (conj Hws I)).
    cbn [Re.group0]. rewrite app_nil_r.
    change (indent ++ b :: " "%char :: "["%char :: c :: "]"%char :: ws)
      with (indent ++ [b; " "; "["; c; "]"]%char ++ ws).
    rewrite Nat.eqb_refl. reflexivity.
  - unfold bullet_item. rewrite app_nil_r.
    pose proof (bullet_not_space b Hb) as Hbs.
    rewrite task_prefix_fails_bare by assumption.
    rewrite <- (app_nil_r ws) at 1.
    rewrite (ul_prefix_matches indent b ws [] Hi Hb Hne (conj Hws I)).
    rewrite ?app_nil_r.
    cbn [Re.group2]. rewrite strip_indented by assumption.
    rewrite rstrip_all_space by assumption.
    rewrite str_eqb_refl. reflexivity.
  - unfold numbered_item. rewrite app_nil_r.
    destruct digits as [|d ds]; [contradiction|].
    inversion Hd as [|? ? Hd1 Hds]; subst.
    pose proof (digit_not_space d Hd1) as Hsp.
    change (indent ++ (d :: ds) ++ "."%char :: ws)
      with (indent ++ d :: (ds ++ "."%char :: ws)).
    rewrite task_prefix_fails
      by (try assumption; now apply digit_not_task_bullet).
    rewrite ul_prefix_fails by (try assumption; now apply digit_not_bullet).
    change (indent ++ d :: (ds ++ "."%char :: ws))
      with (indent ++ (d :: ds) ++ "."%char :: ws).
    rewrite <- (app_nil_r ws) at 1.
    rewrite (ol_prefix_matches indent (d :: ds) ws [] Hi Hne Hd Hwne
               (conj Hws I)).
    rewrite ?app_nil_r. cbn [Re.group2].
    change (indent ++ (d :: ds) ++ "."%char :: ws)
      with (indent ++ d :: (ds ++ "."%char :: ws)).
    rewrite strip_indented by assumption.
    rewrite rstrip_stop by reflexivity.
    rewrite rstrip_all_space by assumption.
    change (d :: ds ++ ["."%char]) with ((d :: ds) ++ lit ".").
    rewrite str_eqb_refl. reflexivity.
Qed.

(** A line break on a bare marker that is not on the first line of the
    buffer: the line is replaced by one empty line, the other lines stay,
    and the caret is on the empty line. *)
Lemma bare_marker_line_break_later (k : key) (e : editor)
      (before : list str) (prev line : str) (after : list str) :
  k = Key_Return \/ k = Key_Enter ->
  bare_marker line ->
  blocks (plain e) = (before ++ [prev]) ++ line :: after ->
  extent (before ++ [prev]) <= position (textCursor e)
  <= extent (before ++ [prev]) + length line ->
  keyPressEvent k e
  = Handled (Editor (toPlainText ((before ++ [prev]) ++ [] :: after))
               (Cursor (extent (before ++ [prev]))
                       (extent (before ++ [prev])))
               (is_fixing e)).
Proof.
  intros Hk Hbare Hb Hpos.
  rewrite (bare_marker_terminates k e line Hk Hbare)
    by (now rewrite (block_at _ _ _ _ _ Hb Hpos)).
  f_equal. apply remove_marker_later with (line := line);
    [assumption | now apply bare_marker_not_empty | assumption].
Qed.

(** A line break on a bare marker on the first line of the buffer: the
    line is replaced by two empty lines, and the caret is on the second. *)
Lemma bare_marker_line_break_first (k : key) (e : editor) (line : str)
      (after : list str) :
  k = Key_Return \/ k = Key_Enter ->
  bare_marker line ->
  blocks (plain e) = line :: after ->
  position (textCursor e) <= length line ->
  keyPressEvent k e
  = Handled (Editor (toPlainText ([] :: [] :: after)) (Cursor 1 1)
               (is_fixing e)).
Proof.
  intros Hk Hbare Hb Hpos.
  rewrite (bare_marker_terminates k e line Hk Hbare)
    by (rewrite (block_at _ [] line after); simpl; auto; lia).
  f_equal. apply remove_marker_first with (line := line);
    [assumption | now apply bare_marker_not_empty | assumption].
Qed.

(** C7, at the failing input.  A line break on the bare marker ["- "] as
    the only line of the buffer leaves two empty lines, the caret on the
    second; one line below other text the same key leaves one empty
    line. *)
Theorem bare_marker_first_line :
  keyPressEvent Key_Return (editing ["- "]%string 2)
  = Handled (editing [""; ""]%string 1)
  /\ blocks (buffer [""; ""]%string) = [[]; []]
  /\ keyPressEvent Key_Return (editing ["some text"; ""; "- "]%string 13)
     = Handled (editing ["some text"; ""; ""]%string 11).
Proof. repeat split. Qed.

(** ** The Task Toggle Controller *)

(** [r'^(\s*[-*]\s{0,})\[([ xX]{0,})\]'] on a checkbox line. *)
Lemma checkbox_matches (indent : str) (b : ascii) (gap content rest : str) :
  all_space indent -> Re.one_of "-*" b = true -> all_space gap ->
  Forall (fun c => Re.one_of " xX" c = true) content ->
  Re.checkbox (checkbox_item indent b gap content rest)
  = Some (Re.CheckboxMatch (indent ++ [b] ++ gap) content
            (length (indent ++ [b] ++ gap) + 1 + length content + 1)).
Proof.
  intros Hi Hb Hg Hc. unfold checkbox_item, Re.checkbox.
  pose proof (bullet_not_space b (task_bullet_is_bullet b Hb)) as Hbs.
  rewrite <- app_assoc. cbn [app].
  rewrite take_while_run, drop_while_run by easy.
  rewrite Hb.
  rewrite take_while_run, drop_while_run by easy.
  cbn [Ascii.eqb Bool.eqb].
  rewrite take_while_run, drop_while_run by easy.
  reflexivity.
Qed.

Lemma flip_box_length (content : str) : length (flip_box content) = 1.
Proof. unfold flip_box. now destruct (strip content). Qed.

Lemma flip_box_line_free (content : str) : line_free (flip_box content).
Proof.
  unfold flip_box. destruct (strip content); intros [H|[]]; discriminate H.
Qed.

Lemma checkbox_item_length (indent : str) (b : ascii)
      (gap content rest : str) :
  length (checkbox_item indent b gap content rest)
  = length (indent ++ b :: gap) + length content + 2 + length rest.
Proof.
  unfold checkbox_item. rewrite !length_app. simpl.
  rewrite !length_app. simpl. lia.
Qed.

Lemma checkbox_item_line_free (indent : str) (b : ascii)
      (gap content content' rest : str) :
  line_free (checkbox_item indent b gap content rest) ->
  line_free content' ->
  line_free (checkbox_item indent b gap content' rest).
Proof.
  unfold checkbox_item. intros H Hc.
  apply line_free_app in H. destruct H as [Hm H].
  apply line_free_cons in H. destruct H as [_ H].
  apply line_free_app in H. destruct H as [_ H].
  apply line_free_cons in H. destruct H as [_ Hr].
  apply line_free_app. split; [exact Hm|].
  apply line_free_cons. split; [discriminate|].
  apply line_free_app. split; [exact Hc|].
  apply line_free_cons. split; [discriminate | exact Hr].
Qed.

Lemma plain_length (t : str) (before : list str) (line : str)
      (after : list str) :
  blocks t = before ++ line :: after ->
  length t = extent before + length line + length (trail after).
Proof.
  intros H. rewrite (plain_around t before line after H) at 1.
  rewrite !length_app, lead_length. lia.
Qed.

(** A line of the document replaced by another. *)
Lemma blocks_replace_line (t : str) (before : list str) (line : str)
      (after : list str) (line' : str) :
  blocks t = before ++ line :: after -> line_free line' ->
  blocks (toPlainText (before ++ line' :: after)) = before ++ line' :: after.
Proof.
  intros H Hfree. apply blocks_toPlainText.
  - destruct before; discriminate.
  - pose proof (blocks_line_free t) as Hall. rewrite H in Hall.
    apply Forall_app in Hall. destruct Hall as [Hb Hla].
    inversion Hla; subst.
    apply Forall_app; split; [exact Hb|]. constructor; assumption.
Qed.

(** What a toggle does on a checkbox line when the caret is inside the
    bracket and nothing is selected. *)
Lemma toggle_flip (e : editor) (before after : list str) (indent : str)
      (b : ascii) (gap content rest : str) (p : nat) :
  all_space indent -> Re.one_of "-*" b = true -> all_space gap ->
  Forall (fun c => Re.one_of " xX" c = true) content ->
  blocks (plain e)
  = before ++ checkbox_item indent b gap content rest :: after ->
  textCursor e = Cursor (extent before + p) (extent before + p) ->
  length (indent ++ b :: gap) < p
  <= length (indent ++ b :: gap) + length content + 1 ->
  check_task_toggle e
  = (Editor
       (toPlainText
          (before
           ++ checkbox_item indent b gap (flip_box content) rest :: after))
       (Cursor
          (extent before
           + Nat.min (length (indent ++ b :: gap) + length content + 2)
               (length (checkbox_item indent b gap (flip_box content) rest)))
          (extent before
           + Nat.min (length (indent ++ b :: gap) + length content + 2)
               (length (checkbox_item indent b gap (flip_box content) rest))))
       (is_fixing e),
     [textChanged]).
Proof.
  intros Hi Hb Hg Hc Hblocks Hcursor Hp.
  set (line := checkbox_item indent b gap content rest) in *.
  set (line' := checkbox_item indent b gap (flip_box content) rest).
  set (marker := indent ++ b :: gap) in *.
  pose proof (line_in_blocks _ _ _ _ Hblocks) as Hfree.
  assert (line_free line') as Hfree'
      by (apply (checkbox_item_line_free indent b gap content);
          [exact Hfree | apply flip_box_line_free]).
  pose proof (plain_length _ _ _ _ Hblocks) as Hlen.
  pose proof (checkbox_item_length indent b gap content rest) as Hll.
  fold line marker in Hll.
  pose proof (checkbox_item_length indent b gap (flip_box content) rest)
    as Hll'.
  fold line' marker in Hll'. rewrite flip_box_length in Hll'.
  (* the edit *)
  assert (firstn (extent before + length marker) (plain e)
          ++ ("["%char :: flip_box content ++ ["]"%char])
          ++ skipn (extent before + (length marker + 1 + length content + 1))
               (plain e)
          = toPlainText (before ++ line' :: after)) as Hedit.
  { rewrite (plain_around _ _ _ _ Hblocks).
    change (before ++ line' :: after) with (before ++ [line'] ++ after).
    rewrite toPlainText_around by discriminate.
    unfold line, line', checkbox_item. fold marker.
    replace (lead before ++ (marker ++ "["%char :: content ++ "]"%char :: rest)
             ++ trail after)
      with ((lead before ++ marker) ++ ("["%char :: content ++ ["]"%char])
            ++ (rest ++ trail after))
      by (rewrite <- !app_assoc; simpl; rewrite <- !app_assoc; reflexivity).
    rewrite splice
      by (rewrite ?length_app, ?lead_length; simpl;
          rewrite ?length_app; simpl; lia).
    simpl. rewrite <- !app_assoc. simpl. rewrite <- !app_assoc. reflexivity. }
  unfold check_task_toggle. cbv zeta. rewrite Hcursor.
  unfold hasSelection. cbn [anchor position]. rewrite Nat.eqb_refl. cbn [negb].
  unfold positionInBlock.
  rewrite (block_at _ before line after) by (cbn [position]; auto; lia).
  cbn [block_text block_position position].
  unfold line at 1. rewrite checkbox_matches by assumption.
  cbn [Re.marker Re.content Re.match_end].
  change (indent ++ [b] ++ gap) with marker.
  replace (extent before + p - extent before) with p by lia.
  destruct (Nat.ltb_spec (length marker) p); [|lia].
  destruct (Nat.leb_spec p (length marker + 1 + length content + 1 - 1));
    [|lia].
  cbn [andb].
  assert ((extent before
           + (length marker + 1 + length content + 1 - 1) + 1)
          = extent before + (length marker + 1 + length content + 1)) as ->
      by lia.
  match goal with
  | |- (let (t3, c3) := ?M in _) = _ =>
      assert (M = (toPlainText (before ++ line' :: after),
                   Cursor (extent before + length marker + 3)
                          (extent before + length marker + 3))) as ->
  end.
  { rewrite <- Hedit. unfold setPosition, setPosition_KeepAnchor.
    destruct (Nat.leb_spec (extent before + length marker)
                           (length (plain e))); [|lia].
    cbn [anchor position].
    destruct (Nat.leb_spec
                (extent before + (length marker + 1 + length content + 1))
                (length (plain e))); [|lia].
    unfold flip_box.
    destruct (strip content); unfold insertText, selectionStart, selectionEnd;
      cbn [anchor position]; rewrite Nat.min_l, Nat.max_r by lia;
      f_equal; simpl; try reflexivity; f_equal; lia. }
  pose proof (blocks_replace_line _ _ _ _ line' Hblocks Hfree') as Hblocks'.
  pose proof (plain_length _ _ _ _ Hblocks') as Hlen'.
  unfold document. rewrite Hblocks'.
  rewrite (findBlock_layout before line' after 0) by lia.
  unfold block_length. cbn [block_position block_text Nat.add].
  unfold setPosition.
  destruct (Nat.ltb_spec
              (extent before + (length marker + 1 + length content + 1))
              (extent before + (length line' + 1))).
  - destruct (Nat.leb_spec
                (extent before + (length marker + 1 + length content + 1))
                (length (toPlainText (before ++ line' :: after)))); [|lia].
    do 3 f_equal; lia.
  - destruct (Nat.leb_spec
                (extent before + (length line' + 1) - 1)
                (length (toPlainText (before ++ line' :: after)))); [|lia].
    do 3 f_equal; lia.
Qed.

Lemma strip_empty (s : str) : strip s = [] -> all_space s.
Proof.
  unfold strip, lstrip. intros H.
  rewrite <- (take_drop_while isspace s).
  pose proof (drop_while_head isspace s) as Hh.
  destruct (drop_while isspace s) as [|k z].
  - rewrite app_nil_r. apply take_while_all.
  - pose proof (rstrip_stop [] k z Hh) as Hr. simpl in Hr.
    rewrite Hr in H. discriminate H.
Qed.

Lemma flip_box_blank (content : str) :
  all_space content -> flip_box content = lit "x".
Proof. intros H. unfold flip_box. now rewrite strip_all_space. Qed.

Lemma flip_box_marked (content : str) :
  ~ all_space content -> flip_box content = lit " ".
Proof.
  intros H. unfold flip_box. destruct (strip content) eqn:E; [|reflexivity].
  exfalso. apply H. now apply strip_empty.
Qed.

(** C8, counterexample.  The checked item ["- [X] done?"], toggled twice
    with the caret inside the bracket each time, comes back as
    ["- [x] done?"], not as it was.  And a toggle of ["- [] done?"] leaves
    the caret at offset 4 of ["- [x] done?"], in front of the closing
    bracket, not past it. *)
Lemma task_toggle_counterexample :
  plain (fst (check_task_toggle (editing ["- [X] done?"]%string 3)))
  = buffer ["- [ ] done?"]%string
  /\ plain (fst (check_task_toggle (editing ["- [ ] done?"]%string 3)))
     = buffer ["- [x] done?"]%string
  /\ buffer ["- [x] done?"]%string <> buffer ["- [X] done?"]%string
  /\ fst (check_task_toggle (editing ["- [] done?"]%string 3))
     = editing ["- [x] done?"]%string 4
  /\ nth_error (buffer ["- [x] done?"]%string) 4 = Some "]"%char.
Proof. repeat split. discriminate. Qed.

(** C8, amended.  On a line with a checkbox, with nothing selected and
    the caret after the opening bracket and at or before the closing one,
    [check_task_toggle] replaces the bracket by [[x]] when its content is
    blank and by [[ ]] otherwise, leaves the rest of the line and the
    other lines as they are, and emits [textChanged].  When the bracket
    holds one character, the caret ends just past the closing bracket.
    When the bracket holds a space or a lower-case [x], a second toggle
    with the caret back inside the bracket restores the buffer; an
    upper-case [X] comes back as [x]. *)
Theorem task_toggle_flips (e : editor) (before after : list str)
        (indent : str) (b : ascii) (gap content rest : str) (p : nat) :
  all_space indent -> Re.one_of "-*" b = true -> all_space gap ->
  Forall (fun c => Re.one_of " xX" c = true) content ->
  blocks (plain e)
  = before ++ checkbox_item indent b gap content rest :: after ->
  textCursor e = Cursor (extent before + p) (extent before + p) ->
  length (indent ++ b :: gap) < p
  <= length (indent ++ b :: gap) + length content + 1 ->
  let toggled := fst (check_task_toggle e) in
  let again :=
    fst (check_task_toggle
           (Editor (plain toggled)
                   (Cursor (extent before + p) (extent before + p))
                   (is_fixing toggled))) in
  blocks (plain toggled)
  = before ++ checkbox_item indent b gap (flip_box content) rest :: after
  /\ (all_space content -> flip_box content = lit "x")
  /\ (~ all_space content -> flip_box content = lit " ")
  /\ snd (check_task_toggle e) = [textChanged]
  /\ (length content = 1 ->
      textCursor toggled
      = Cursor (extent before + length (indent ++ b :: gap) + 3)
               (extent before + length (indent ++ b :: gap) + 3))
  /\ (content = lit " " \/ content = lit "x" -> plain again = plain e)
  /\ (content = lit "X" ->
      blocks (plain again)
      = before ++ checkbox_item indent b gap (lit "x") rest :: after)
  /\ check_task_toggle (editing ["- [ ] done?"]%string 3)
     = (editing ["- [x] done?"]%string 5, [textChanged])
  /\ check_task_toggle (editing ["- [x] done?"]%string 3)
     = (editing ["- [ ] done?"]%string 5, [textChanged]).
Proof.
  intros Hi Hb Hg Hc Hblocks Hcursor Hp toggled again.
  pose proof (toggle_flip e before after indent b gap content rest p
                Hi Hb Hg Hc Hblocks Hcursor Hp) as Hflip.
  assert (line_free (checkbox_item indent b gap (flip_box content) rest))
    as Hfree.
  { apply (checkbox_item_line_free indent b gap content).
    - exact (line_in_blocks _ _ _ _ Hblocks).
    - apply flip_box_line_free. }
  pose proof (blocks_replace_line _ _ _ _ _ Hblocks Hfree) as Hblocks'.
  assert (plain toggled
          = toPlainText
              (before
               ++ checkbox_item indent b gap (flip_box content) rest :: after))
    as Hplain by (unfold toggled; now rewrite Hflip).
  split; [now rewrite Hplain|].
  split; [apply flip_box_blank|].
  split; [apply flip_box_marked|].
  split; [now rewrite Hflip|].
  split.
  { intros Hone. unfold toggled. rewrite Hflip. cbn [fst textCursor].
    rewrite checkbox_item_length, flip_box_length, Hone.
    rewrite Nat.min_l by lia. f_equal; lia. }
  assert (length content = 1 ->
          plain again
          = toPlainText
              (before
               ++ checkbox_item indent b gap (flip_box (flip_box content)) rest
               :: after)) as Hagain.
  { intros Hone.
    assert (Forall (fun c => Re.one_of " xX" c = true) (flip_box content))
      as Hc' by (unfold flip_box; destruct (strip content);
                 repeat constructor).
    unfold again.
    rewrite (toggle_flip _ before after indent b gap (flip_box content)
               rest p); try assumption.
    - reflexivity.
    - cbn [plain]. now rewrite Hplain.
    - reflexivity.
    - rewrite flip_box_length. lia. }
  split; [|split; [|split; reflexivity]].
  - intros Hcontent.
    assert (length content = 1 /\ flip_box (flip_box content) = content)
      as [Hone Hback]
        by (destruct Hcontent; subst content; split; reflexivity).
    rewrite (Hagain Hone), Hback, <- Hblocks. apply toPlainText_blocks.
  - intros ->. rewrite (Hagain eq_refl).
    change (flip_box (flip_box (lit "X"))) with (lit "x").
    apply (blocks_replace_line _ _ _ _ _ Hblocks).
    apply (checkbox_item_line_free indent b gap (lit "X")).
    + exact (line_in_blocks _ _ _ _ Hblocks).
    + intros [H|[]]; discriminate H.
Qed.

Lemma task_toggle_flips_witness :
  check_task_toggle (editing ["note"; " * [x] done?"]%string 9)
  = (editing ["note"; " * [ ] done?"]%string 11, [textChanged])
  /\ plain
       (fst (check_task_toggle
               (Editor
                  (plain (fst (check_task_toggle
                                 (editing ["note"; " * [x] done?"]%string 9))))
                  (Cursor 9 9) false)))
     = buffer ["note"; " * [x] done?"]%string.
Proof.
  destruct (task_toggle_flips
              (editing ["note"; " * [x] done?"]%string 9)
              [lit "note"] [] [" "%char] "*"%char [" "%char] (lit "x")
              (lit " done?") 4)
    as (_ & _ & _ & _ & _ & Hback & _ & _).
  - repeat constructor.
  - reflexivity.
  - repeat constructor.
  - repeat constructor.
  - reflexivity.
  - reflexivity.
  - simpl. lia.
  - split; [reflexivity|]. apply Hback. right. reflexivity.
Defined.

(** ** The repair pass after an edit

    [textChanged] is connected to [auto_fix_spacing], so the pass runs
    after every edit of the buffer, those of [keyPressEvent] and of
    [check_task_toggle] included.  The lemmas of this part show that it
    then finds nothing to do, provided it had nothing to do before the
    edit: the results stated above for the two methods are also the
    states in which the editor comes to rest. *)

Lemma bullet_facts (b : ascii) :
  Re.one_of "-*" b = true ->
  Ascii.eqb "#" b = false /\ Ascii.eqb b "`" = false
  /\ Ascii.eqb b "|" = false /\ isdigit b = false.
Proof. each_char b; repeat split. Qed.

Lemma box_char_task (c : ascii) :
  Re.one_of " xX" c = true -> Re.one_of "xX " c = true.
Proof. each_char c. Qed.

Lemma space_not_bracket (w : ascii) :
  isspace w = true -> Ascii.eqb w "[" = false.
Proof. each_char w. Qed.

Lemma forallb_stop (p : ascii -> bool) (a : str) (k : ascii) (z : str) :
  p k = false -> forallb p (a ++ k :: z) = false.
Proof.
  intros Hk. rewrite forallb_app. simpl. rewrite Hk.
  now rewrite andb_false_r.
Qed.

Lemma lstrip_checkbox_item (indent : str) (b : ascii)
      (gap content rest : str) :
  all_space indent -> Re.one_of "-*" b = true ->
  lstrip (checkbox_item indent b gap content rest)
  = b :: gap ++ "["%char :: content ++ "]"%char :: rest.
Proof.
  intros Hi Hb. unfold lstrip, checkbox_item.
  pose proof (bullet_not_space b (task_bullet_is_bullet b Hb)) as Hbs.
  rewrite <- app_assoc. cbn [app]. now rewrite drop_while_run.
Qed.

Lemma strip_checkbox_item (indent : str) (b : ascii)
      (gap content rest : str) :
  all_space indent -> Re.one_of "-*" b = true ->
  strip (checkbox_item indent b gap content rest)
  = b :: (gap ++ "["%char :: content) ++ "]"%char :: rstrip rest.
Proof.
  intros Hi Hb. unfold checkbox_item.
  pose proof (bullet_not_space b (task_bullet_is_bullet b Hb)) as Hbs.
  rewrite <- app_assoc. cbn [app]. rewrite strip_indented by assumption.
  f_equal.
  replace (gap ++ "["%char :: content ++ "]"%char :: rest)
    with ((gap ++ "["%char :: content) ++ "]"%char :: rest)
    by (now rewrite <- app_assoc).
  now apply rstrip_stop.
Qed.

(** How the classifier sees a checkbox line with one character in the
    bracket: by the white space between bullet and bracket alone. *)
Lemma identify_checkbox_item (indent : str) (b : ascii) (gap : str)
      (c : ascii) (rest : str) :
  all_space indent -> Re.one_of "-*" b = true -> all_space gap ->
  Re.one_of " xX" c = true ->
  identify_block_type (checkbox_item indent b gap [c] rest)
  = match gap with
    | [] => text
    | [_] => task
    | _ :: _ :: _ => ul
    end.
Proof.
  intros Hi Hb Hg Hc. unfold identify_block_type.
  rewrite lstrip_strip, strip_checkbox_item, lstrip_checkbox_item
    by assumption.
  destruct (bullet_facts b Hb) as (Hhash & Htick & Hbar & Hdig).
  pose proof (task_bullet_is_bullet b Hb) as Hb'.
  pose proof (box_char_task c Hc) as Hc'.
  assert (Re.heading (b :: gap ++ "["%char :: [c] ++ "]"%char :: rest) = false)
    as ->
      by (unfold Re.heading; cbn [take_while drop_while]; now rewrite Hhash).
  assert (Re.ol (b :: gap ++ "["%char :: [c] ++ "]"%char :: rest) = false)
    as -> by (unfold Re.ol; cbn [take_while drop_while]; now rewrite Hdig).
  assert (Re.hr (b :: (gap ++ "["%char :: [c]) ++ "]"%char :: rstrip rest)
          = false) as ->.
  { unfold Re.hr.
    change (b :: (gap ++ "["%char :: [c]) ++ "]"%char :: rstrip rest)
      with ((b :: gap ++ "["%char :: [c]) ++ "]"%char :: rstrip rest).
    rewrite forallb_stop by reflexivity. apply andb_false_r. }
  assert (startswith
            (b :: (gap ++ "["%char :: [c]) ++ "]"%char :: rstrip rest)
            (lit "|") = false) as ->
      by (cbn [startswith lit list_ascii_of_string]; now rewrite Hbar).
  cbn [app].
  destruct gap as [|w1 [|w2 gap]].
  - unfold Re.task, Re.ul. cbn [app]. cbv iota.
    change (isspace "[") with false.
    destruct rest; rewrite ?Hb, ?Hb'; reflexivity.
  - inversion Hg as [|? ? Hw1 _]; subst.
    unfold Re.task. cbn [app]. cbv iota.
    change (Ascii.eqb "[" "[") with true. change (Ascii.eqb "]" "]") with true.
    rewrite Hb, Hw1, Hc'. reflexivity.
  - inversion Hg as [|? ? Hw1 Hg']; subst.
    inversion Hg' as [|? ? Hw2 _]; subst.
    pose proof (space_not_bracket w2 Hw2) as Hw2b.
    cbn [app].
    assert (Re.task (b :: w1 :: w2 :: gap ++ "["%char :: c :: "]"%char :: rest)
            = false) as ->.
    { unfold Re.task.
      destruct gap as [|g1 [|g2 gap]]; cbn [app]; cbv iota;
        rewrite Hb, Hw1, Hw2b; reflexivity. }
    unfold Re.ul. cbv iota. rewrite Hb', Hw1. reflexivity.
Qed.

Lemma plan_same_view (m : mode) (start : nat) (before : list str)
      (l l' : str) (after : list str) :
  is_fence l' = is_fence l ->
  identify_block_type l' = identify_block_type l ->
  get_indent l' = get_indent l -> length l' = length l ->
  plan m start (before ++ l' :: after) = plan m start (before ++ l :: after).
Proof.
  intros Hf Ht Hi Hl. rewrite !plan_app. f_equal.
  destruct (final_mode m before) as [[pt pi] code].
  cbn [plan]. unfold conflict_at, classified_at, next_mode.
  now rewrite Hf, Ht, Hi, Hl.
Qed.

Lemma plan_shift (m : mode) (start d : nat) (bs : list str) :
  plan m (start + d) bs = map (fun p => p + d) (plan m start bs).
Proof.
  revert m start. induction bs as [|l bs IH]; intros m start; [reflexivity|].
  cbn [plan]. rewrite map_app.
  replace (start + d + length l + 1) with (start + length l + 1 + d) by lia.
  rewrite IH. now destruct (conflict_at m l).
Qed.

Lemma plan_nil_shift (m : mode) (start start' : nat) (bs : list str) :
  plan m start bs = [] -> plan m start' bs = [].
Proof.
  intros H.
  assert (plan m 0 bs = []) as H0.
  { pose proof (plan_shift m 0 start bs) as Hs. simpl in Hs.
    rewrite H in Hs. destruct (plan m 0 bs); [reflexivity | discriminate]. }
  pose proof (plan_shift m 0 start' bs) as Hs. simpl in Hs.
  now rewrite Hs, H0.
Qed.

Lemma is_fence_checkbox_item (indent : str) (b : ascii)
      (gap content rest : str) :
  all_space indent -> Re.one_of "-*" b = true ->
  is_fence (checkbox_item indent b gap content rest) = false.
Proof.
  intros Hi Hb. unfold is_fence. rewrite strip_checkbox_item by assumption.
  destruct (bullet_facts b Hb) as (_ & Htick & _).
  cbn [startswith lit list_ascii_of_string]. now rewrite Htick.
Qed.

Lemma get_indent_checkbox_item (indent : str) (b : ascii)
      (gap content rest : str) :
  all_space indent -> Re.one_of "-*" b = true ->
  get_indent (checkbox_item indent b gap content rest) = length indent.
Proof.
  intros Hi Hb. unfold get_indent, Re.leading_space, checkbox_item.
  pose proof (bullet_not_space b (task_bullet_is_bullet b Hb)) as Hbs.
  rewrite <- app_assoc. cbn [app]. now rewrite take_while_run.
Qed.

(** The scan does not tell a box from a ticked one. *)
Lemma toggle_keeps_plan (e : editor) (before after : list str)
      (indent : str) (b : ascii) (gap : str) (c : ascii) (rest : str)
      (p : nat) :
  all_space indent -> Re.one_of "-*" b = true -> all_space gap ->
  Re.one_of " xX" c = true ->
  blocks (plain e)
  = before ++ checkbox_item indent b gap [c] rest :: after ->
  textCursor e = Cursor (extent before + p) (extent before + p) ->
  length (indent ++ b :: gap) < p <= length (indent ++ b :: gap) + 2 ->
  insert_positions (scan (plain (fst (check_task_toggle e))))
  = insert_positions (scan (plain e)).
Proof.
  intros Hi Hb Hg Hc Hblocks Hcursor Hp.
  assert (Forall (fun x => Re.one_of " xX" x = true) [c]) as Hcs
      by (constructor; [exact Hc | constructor]).
  assert (length (indent ++ b :: gap) < p
          <= length (indent ++ b :: gap) + length [c] + 1) as Hp'
      by (simpl; lia).
  rewrite (toggle_flip e before after indent b gap [c] rest p
             Hi Hb Hg Hcs Hblocks Hcursor Hp').
  cbn [fst plain]. rewrite !scan_plan, Hblocks.
  rewrite (blocks_replace_line (plain e) before
             (checkbox_item indent b gap [c] rest) after).
  - assert (exists c', flip_box [c] = [c'] /\ Re.one_of " xX" c' = true)
      as (c' & -> & Hc').
    { unfold flip_box. destruct (strip [c]);
        [exists "x"%char | exists " "%char]; split; reflexivity. }
    apply plan_same_view.
    + now rewrite !is_fence_checkbox_item.
    + now rewrite !identify_checkbox_item.
    + now rewrite !get_indent_checkbox_item.
    + now rewrite !checkbox_item_length.
  - exact Hblocks.
  - apply (checkbox_item_line_free indent b gap [c]).
    + exact (line_in_blocks _ _ _ _ Hblocks).
    + apply flip_box_line_free.
Qed.

(** X17.  The pass that [textChanged] sets off after a toggle of a box
    that holds one character finds nothing to do in a buffer in which it
    had nothing to do before: [auto_fix_spacing] leaves the toggled
    editor as it is. *)
Lemma toggle_stays_repaired (e : editor) (before after : list str)
      (indent : str) (b : ascii) (gap : str) (c : ascii) (rest : str)
      (p : nat) :
  all_space indent -> Re.one_of "-*" b = true -> all_space gap ->
  Re.one_of " xX" c = true ->
  blocks (plain e)
  = before ++ checkbox_item indent b gap [c] rest :: after ->
  textCursor e = Cursor (extent before + p) (extent before + p) ->
  length (indent ++ b :: gap) < p <= length (indent ++ b :: gap) + 2 ->
  insert_positions (scan (plain e)) = [] ->
  auto_fix_spacing (fst (check_task_toggle e)) = fst (check_task_toggle e).
Proof.
  intros Hi Hb Hg Hc Hblocks Hcursor Hp Hrepaired.
  unfold auto_fix_spacing.
  rewrite (toggle_keeps_plan e before after indent b gap c rest p)
    by assumption.
  rewrite Hrepaired. now destruct (is_fixing (fst (check_task_toggle e))).
Qed.

Lemma toggle_stays_repaired_witness :
  auto_fix_spacing
    (fst (check_task_toggle (editing ["Some text"; ""; "- [ ] a"]%string 14)))
  = fst (check_task_toggle (editing ["Some text"; ""; "- [ ] a"]%string 14)).
Proof.
  refine (toggle_stays_repaired
            (editing ["Some text"; ""; "- [ ] a"]%string 14)
            [lit "Some text"; []] [] [] "-"%char [" "%char] " "%char
            (lit " a") 3 _ _ _ _ _ _ _ _).
  - constructor.
  - reflexivity.
  - repeat constructor.
  - reflexivity.
  - reflexivity.
  - reflexivity.
  - simpl. lia.
  - reflexivity.
Defined.

Lemma identify_task_item (indent : str) (b c : ascii) (ws tail : str) :
  all_space indent -> Re.one_of "-*" b = true ->
  Re.one_of "xX " c = true ->
  identify_block_type (task_item indent b c ws tail) = task.
Proof.
  intros Hi Hb Hc. unfold identify_block_type, task_item.
  pose proof (bullet_not_space b (task_bullet_is_bullet b Hb)) as Hbs.
  destruct (bullet_facts b Hb) as (Hhash & _).
  rewrite lstrip_strip, strip_indented by assumption.
  unfold lstrip. rewrite drop_while_run by easy.
  unfold Re.heading, Re.task. cbn [take_while drop_while].
  rewrite Hhash, Hb, Hc. reflexivity.
Qed.

Lemma is_fence_task_item (indent : str) (b c : ascii) (ws tail : str) :
  all_space indent -> Re.one_of "-*" b = true ->
  is_fence (task_item indent b c ws tail) = false.
Proof.
  intros Hi Hb. unfold is_fence, task_item.
  pose proof (bullet_not_space b (task_bullet_is_bullet b Hb)) as Hbs.
  destruct (bullet_facts b Hb) as (_ & Htick & _).
  rewrite strip_indented by assumption.
  cbn [startswith lit list_ascii_of_string]. now rewrite Htick.
Qed.

Lemma get_indent_task_item (indent : str) (b c : ascii) (ws tail : str) :
  all_space indent -> Re.one_of "-*" b = true ->
  get_indent (task_item indent b c ws tail) = length indent.
Proof.
  intros Hi Hb. unfold get_indent, Re.leading_space, task_item.
  pose proof (bullet_not_space b (task_bullet_is_bullet b Hb)) as Hbs.
  now rewrite take_while_run.
Qed.

(** A second task item right after a task item with the same indent is no
    conflict and leaves the scan in the mode it was in. *)
Lemma task_after_task (m : mode) (indent : str) (b c b' c' : ascii)
      (ws tail ws' tail' : str) :
  all_space indent -> Re.one_of "-*" b = true ->
  Re.one_of "xX " c = true -> Re.one_of "-*" b' = true ->
  Re.one_of "xX " c' = true ->
  let m' := next_mode m (task_item indent b c ws tail) in
  conflict_at m' (task_item indent b' c' ws' tail') = false
  /\ next_mode m' (task_item indent b' c' ws' tail') = m'.
Proof.
  intros Hi Hb Hc Hb' Hc' m'. unfold m'. clear m'.
  destruct m as [[pt pi] code].
  unfold next_mode, conflict_at, classified_at.
  rewrite !is_fence_task_item, !identify_task_item, !get_indent_task_item
    by assumption.
  destruct code; cbn [negb block_type_eqb andb].
  - split; reflexivity.
  - split; [|reflexivity].
    unfold check_conflict. cbn.
    destruct (Nat.leb (length indent) (length indent)); reflexivity.
Qed.

(** X14.  The pass that follows the line break of a task item finds
    nothing to do in a buffer in which it had nothing to do before: with
    the new task line in place the scan records no position. *)
Lemma line_break_stays_repaired (t : str) (before after : list str)
      (indent : str) (b c : ascii) (ws tail : str) :
  all_space indent -> Re.one_of "-*" b = true ->
  Re.one_of "xX " c = true ->
  blocks t = before ++ task_item indent b c ws tail :: after ->
  insert_positions (scan t) = [] ->
  insert_positions
    (scan (toPlainText
             (before ++ task_item indent b c ws tail
                     :: (indent ++ b :: lit " [ ] ") :: after)))
  = [].
Proof.
  intros Hi Hb Hc Hblocks Hrepaired.
  assert (line_free (indent ++ b :: lit " [ ] ")) as Hfresh.
  { pose proof (line_in_blocks _ _ _ _ Hblocks) as Hfree.
    unfold task_item in Hfree. apply line_free_app in Hfree.
    destruct Hfree as [Hfi Hfr]. apply line_free_cons in Hfr.
    apply line_free_app. split; [exact Hfi|].
    apply line_free_cons. split; [tauto|].
    intros [H|[H|[H|[H|[H|[]]]]]]; discriminate H. }
  rewrite scan_plan in *. rewrite Hblocks in Hrepaired.
  rewrite blocks_toPlainText.
  - rewrite plan_app in *. cbn [plan] in *.
    apply app_eq_nil in Hrepaired. destruct Hrepaired as [H1 H2].
    apply app_eq_nil in H2. destruct H2 as [H2 H3].
    rewrite H1, H2. cbn [app].
    destruct (task_after_task (final_mode mode_init before) indent b c b " "
                ws tail [" "%char] [] Hi Hb Hc Hb eq_refl) as [Hno Hsame].
    change (indent ++ b :: lit " [ ] ")
      with (task_item indent b " " [" "%char] []).
    rewrite Hno, Hsame. cbn [app].
    now apply plan_nil_shift with (1 := H3).
  - destruct before; discriminate.
  - pose proof (blocks_line_free t) as Hall.
    rewrite Hblocks in Hall. apply Forall_app in Hall.
    destruct Hall as [Hbefore Hrest]. inversion Hrest; subst.
    apply Forall_app. split; [assumption|].
    constructor; [assumption|]. constructor; assumption.
Qed.

Lemma line_break_stays_repaired_witness :
  insert_positions
    (scan (toPlainText
             ([lit "Some text"; []]
                ++ task_item [] "-" "x" [" "%char] (lit "a")
                :: ([] ++ "-"%char :: lit " [ ] ") :: [lit "- [ ] b"])))
  = [].
Proof.
  refine (line_break_stays_repaired
            (buffer ["Some text"; ""; "- [x] a"; "- [ ] b"]%string)
            [lit "Some text"; []] [lit "- [ ] b"] [] "-"%char "x"%char
            [" "%char] (lit "a") _ _ _ _ _).
  - constructor.
  - reflexivity.
  - reflexivity.
  - reflexivity.
  - reflexivity.
Defined.

(** ** The classifier and the scan, line by line *)

Lemma lstrip_indent (indent line : str) :
  all_space indent -> lstrip (indent ++ line) = lstrip line.
Proof.
  induction 1 as [|c indent Hc _ IH]; [reflexivity|].
  unfold lstrip in *. simpl. now rewrite Hc.
Qed.

Lemma take_while_indent (indent line : str) :
  all_space indent ->
  take_while isspace (indent ++ line) = indent ++ take_while isspace line.
Proof.
  induction 1 as [|c indent Hc _ IH]; [reflexivity|].
  simpl. now rewrite Hc, IH.
Qed.

Lemma lstrip_head (line : str) (k : ascii) (z : str) :
  lstrip line = k :: z -> isspace k = false.
Proof.
  intros H. pose proof (drop_while_head isspace line) as Hh.
  unfold lstrip in H. now rewrite H in Hh.
Qed.

(** The classifier as a function of the line without its indent. *)
Lemma identify_from (line : str) (k : ascii) (z : str) :
  lstrip line = k :: z ->
  identify_block_type line
  = if Re.heading (k :: z) then text
    else if Re.task (k :: z) then task
    else if Re.ul (k :: z) then ul
    else if Re.ol (k :: z) then ol
    else if Re.hr (k :: rstrip z) then hr
    else if startswith (k :: rstrip z) (lit "|") then table
    else text.
Proof.
  intros H. pose proof (lstrip_head _ _ _ H) as Hk.
  unfold identify_block_type. rewrite H.
  assert (strip (k :: z) = k :: rstrip z) as ->.
  { exact (strip_indented [] k z (Forall_nil _) Hk). }
  reflexivity.
Qed.

Lemma identify_blank (line : str) :
  lstrip line = [] -> identify_block_type line = empty.
Proof. intros H. unfold identify_block_type. now rewrite H. Qed.

Lemma task_head_fails (b : ascii) (z : str) :
  Re.one_of "-*" b = false -> Re.task (b :: z) = false.
Proof.
  intros H. unfold Re.task.
  destruct z as [|w [|l [|c [|r z]]]]; try reflexivity. now rewrite H.
Qed.

Lemma ul_head_fails (b : ascii) (z : str) :
  Re.one_of "-*+" b = false -> Re.ul (b :: z) = false.
Proof.
  intros H. unfold Re.ul. destruct z as [|w z]; [reflexivity|]. now rewrite H.
Qed.

Lemma heading_head_fails (b : ascii) (z : str) :
  Ascii.eqb "#" b = false -> Re.heading (b :: z) = false.
Proof.
  intros H. unfold Re.heading.
  change (take_while (Ascii.eqb "#") (b :: z))
    with (if Ascii.eqb "#" b then b :: take_while (Ascii.eqb "#") z else []).
  now rewrite H.
Qed.

Lemma bullet_not_hash (b : ascii) :
  Re.one_of "-*+" b = true -> Ascii.eqb "#" b = false.
Proof. each_char b. Qed.

Lemma digit_not_hash (d : ascii) :
  isdigit d = true -> Ascii.eqb "#" d = false.
Proof. each_char d. Qed.

(** X1.  Indentation does not change the class of a line: white space put
    in front of a line leaves the result of [identify_block_type] and of
    the fence test of the scan as they were, and adds its length to
    [get_indent]. *)
Theorem classification_ignores_indent (indent line : str) :
  all_space indent ->
  identify_block_type (indent ++ line) = identify_block_type line
  /\ is_fence (indent ++ line) = is_fence line
  /\ get_indent (indent ++ line) = length indent + get_indent line.
Proof.
  intros Hi. repeat split.
  - unfold identify_block_type. now rewrite lstrip_indent.
  - unfold is_fence, strip. now rewrite lstrip_indent.
  - unfold get_indent, Re.leading_space.
    now rewrite take_while_indent, length_app.
Qed.

Lemma classification_ignores_indent_witness :
  all_space (lit "    ")
  /\ identify_block_type (lit "    - item") = identify_block_type (lit "- item")
  /\ get_indent (lit "    - item") = 4 + get_indent (lit "- item").
Proof.
  split; [repeat constructor|].
  destruct (classification_ignores_indent (lit "    ") (lit "- item"))
    as [H1 [_ H3]]; [repeat constructor|].
  split; [exact H1 | exact H3].
Defined.

Lemma identify_not_empty (line : str) (k : ascii) (z : str) :
  lstrip line = k :: z -> identify_block_type line <> empty.
Proof.
  intros H. rewrite (identify_from _ _ _ H).
  repeat match goal with |- context [if ?c then _ else _] => destruct c end;
    discriminate.
Qed.

Lemma lstrip_empty (s : str) : lstrip s = [] -> all_space s.
Proof.
  intros H. apply strip_empty. unfold strip. now rewrite H.
Qed.

(** X2.  A line is classified as ['empty'] exactly when it consists of
    white space only (the empty line included), by [identify_block_type]
    and by [get_line_type] alike. *)
Theorem blank_line_iff (line : str) :
  (identify_block_type line = empty <-> all_space line)
  /\ (MarkdownEditor.get_line_type line = empty <-> all_space line).
Proof.
  split; split.
  - intros H. destruct (lstrip line) as [|k z] eqn:E.
    + now apply lstrip_empty.
    + now destruct (identify_not_empty _ _ _ E).
  - intros H. apply identify_blank. now apply drop_while_all.
  - unfold MarkdownEditor.get_line_type. intros H.
    destruct (strip line) as [|k z] eqn:E; [now apply strip_empty|].
    repeat match type of H with
           | (if ?c then _ else _) = _ => destruct c
           end; discriminate.
  - intros H. unfold MarkdownEditor.get_line_type.
    now rewrite strip_all_space.
Qed.

(** The position of a line is recorded exactly when the scan finds a
    conflict on reaching it. *)
Lemma plan_at (m : mode) (start : nat) (before : list str) (line : str)
      (after : list str) :
  In (start + extent before) (plan m start (before ++ line :: after))
  <-> conflict_at (final_mode m before) line = true.
Proof.
  rewrite plan_app. cbn [plan]. split.
  - intros H. apply in_app_or in H. destruct H as [H|H].
    + apply plan_range in H. lia.
    + apply in_app_or in H. destruct H as [H|H].
      * destruct (conflict_at (final_mode m before) line);
          [reflexivity | destruct H].
      * apply plan_range in H. lia.
  - intros H. apply in_or_app. right. rewrite H. now left.
Qed.

Lemma final_mode_app (m : mode) (a b : list str) :
  final_mode m (a ++ b) = final_mode (final_mode m a) b.
Proof. unfold final_mode. apply fold_left_app. Qed.

Lemma check_conflict_empty_l (t : block_type) (i1 i2 : nat) :
  check_conflict empty t i1 i2 = false.
Proof. reflexivity. Qed.

(** Outside a fence the conflict of a line is decided by the line above. *)
Lemma conflict_at_after (m : mode) (prev line : str) :
  snd m = false -> is_fence prev = false -> is_fence line = false ->
  conflict_at (next_mode m prev) line
  = check_conflict (identify_block_type prev) (identify_block_type line)
      (get_indent prev) (get_indent line).
Proof.
  destruct m as [[pt pi] code]. cbn [snd]. intros -> Hp Hl.
  unfold next_mode, conflict_at, classified_at. rewrite Hp.
  destruct (identify_block_type prev) eqn:E; cbn [block_type_eqb negb];
    rewrite Hl; reflexivity.
Qed.

Lemma even_no_code (bs : list str) :
  Nat.even (fence_count bs) = true -> snd (final_mode mode_init bs) = false.
Proof.
  intros H. rewrite final_mode_code. cbn [snd mode_init].
  rewrite <- Nat.negb_even, H. reflexivity.
Qed.

Lemma conflict_planned (before : list str) (prev line : str)
      (after : list str) :
  Nat.even (fence_count before) = true ->
  is_fence prev = false -> is_fence line = false ->
  In (extent (before ++ [prev]))
     (plan mode_init 0 (before ++ prev :: line :: after))
  <-> check_conflict (identify_block_type prev) (identify_block_type line)
        (get_indent prev) (get_indent line) = true.
Proof.
  intros Heven Hp Hl.
  change (before ++ prev :: line :: after)
    with (before ++ [prev] ++ line :: after).
  rewrite app_assoc.
  rewrite <- (Nat.add_0_l (extent (before ++ [prev]))).
  rewrite plan_at, final_mode_app. cbn [final_mode fold_left].
  fold (final_mode mode_init before).
  rewrite conflict_at_after by (try assumption; now apply even_no_code).
  reflexivity.
Qed.



(** X4.  What the pass achieves: in the buffer that [auto_fix_spacing]
    leaves, no two adjacent lines outside code fences are in conflict
    according to [check_conflict]. *)
Theorem repaired_lines_do_not_conflict (e : editor) (before : list str)
        (prev line : str) (after : list str) :
  is_fixing e = false ->
  blocks (plain (auto_fix_spacing e)) = before ++ prev :: line :: after ->
  Nat.even (fence_count before) = true ->
  is_fence prev = false -> is_fence line = false ->
  check_conflict (identify_block_type prev) (identify_block_type line)
    (get_indent prev) (get_indent line) = false.
Proof.
  intros Hfix Hblocks Heven Hp Hl.
  pose proof (conflict_planned before prev line after Heven Hp Hl) as Hiff.
  rewrite <- Hblocks, (auto_fix_blocks e Hfix), plan_repair in Hiff.
  destruct (check_conflict _ _ _ _); [|reflexivity].
  destruct (proj2 Hiff eq_refl).
Qed.

Lemma repaired_lines_do_not_conflict_witness :
  check_conflict (identify_block_type []) (identify_block_type (lit "- item one"))
    (get_indent []) (get_indent (lit "- item one")) = false
  /\ check_conflict (identify_block_type (lit "Some text")) (identify_block_type [])
       (get_indent (lit "Some text")) (get_indent []) = false.
Proof.
  split.
  - exact (repaired_lines_do_not_conflict (three_lines 0)
             [lit "Some text"] [] (lit "- item one") [[]; lit "| a |"]
             eq_refl eq_refl eq_refl eq_refl eq_refl).
  - exact (repaired_lines_do_not_conflict (three_lines 0)
             [] (lit "Some text") [] [lit "- item one"; []; lit "| a |"]
             eq_refl eq_refl eq_refl eq_refl eq_refl).
Defined.

Lemma repair_length (m : mode) (start : nat) (bs : list str) :
  length (repair m bs) = length bs + length (plan m start bs).
Proof.
  revert m start. induction bs as [|l bs IH]; intros m start; [reflexivity|].
  cbn [repair plan]. rewrite !length_app.
  rewrite (IH _ (start + length l + 1)).
  destruct (conflict_at m l); simpl; lia.
Qed.

(** X5.  The pass changes the editor exactly when it is not re-entered and
    its scan records a position; the text then grows by one character,
    and the document by one block, for each recorded position. *)
Theorem auto_fix_spacing_changes_iff (e : editor) :
  let ps := insert_positions (scan (plain e)) in
  (auto_fix_spacing e = e <-> is_fixing e = true \/ ps = [])
  /\ length (plain (auto_fix_spacing e))
     = length (plain e) + (if is_fixing e then 0 else length ps)
  /\ length (blocks (plain (auto_fix_spacing e)))
     = length (blocks (plain e)) + (if is_fixing e then 0 else length ps).
Proof.
  intros ps.
  assert (length (plain (auto_fix_spacing e))
          = length (plain e) + (if is_fixing e then 0 else length ps)) as Hlen.
  { destruct (is_fixing e) eqn:Hfix.
    - unfold auto_fix_spacing. rewrite Hfix. lia.
    - rewrite auto_fix_text by exact Hfix. apply insertions_length. }
  split; [|split; [exact Hlen|]].
  - split.
    + intros Hsame. rewrite Hsame in Hlen.
      destruct (is_fixing e); [now left | right].
      destruct ps; [reflexivity | simpl in Hlen; lia].
    + intros [Hfix | Hnil]; unfold auto_fix_spacing.
      * now rewrite Hfix.
      * fold ps. rewrite Hnil. now destruct (is_fixing e).
  - destruct (is_fixing e) eqn:Hfix.
    + unfold auto_fix_spacing. rewrite Hfix. lia.
    + rewrite auto_fix_blocks by exact Hfix. unfold ps. rewrite scan_plan.
      apply repair_length.
Qed.

(** Inside a fence that is not closed nothing is classified or recorded. *)
Lemma plan_in_code (m : mode) (start : nat) (bs : list str) :
  snd m = true -> Forall (fun l => is_fence l = false) bs ->
  plan m start bs = [] /\ visits m start bs = [].
Proof.
  revert m start. induction bs as [|l bs IH]; intros m start Hm Hall;
    [split; reflexivity|].
  inversion Hall as [|? ? Hl Hbs]; subst.
  cbn [plan visits].
  rewrite conflict_at_in_code, classified_at_in_code by exact Hm.
  cbn [app]. apply IH; [|exact Hbs].
  rewrite next_mode_code, Hm, Hl. reflexivity.
Qed.

Lemma fence_not_classified (m : mode) (l : str) :
  is_fence l = true -> classified_at m l = false /\ conflict_at m l = false.
Proof.
  intros H. destruct m as [[pt pi] code].
  unfold conflict_at, classified_at. now rewrite H.
Qed.

(** X6.  A fence that is opened and not closed suspends the pass for the
    rest of the buffer: no line from the opening fence line on is
    classified or recorded, and the recorded positions are those of the
    lines before the fence alone. *)
Theorem open_fence_suspends_repair (t : str) (pre : list str)
        (opening : str) (rest : list str) :
  blocks t = pre ++ opening :: rest ->
  Nat.even (fence_count pre) = true ->
  is_fence opening = true ->
  Forall (fun l => is_fence l = false) rest ->
  (forall p, In p (insert_positions (scan t)) -> p < extent pre)
  /\ (forall p, In p (classified (scan t)) -> p < extent pre)
  /\ (pre <> [] ->
      insert_positions (scan t) = insert_positions (scan (toPlainText pre))).
Proof.
  intros Hblocks Heven Hopen Hrest.
  pose proof (even_no_code pre Heven) as Hcode.
  destruct (fence_not_classified (final_mode mode_init pre) opening Hopen)
    as [Hcl Hco].
  assert (snd (next_mode (final_mode mode_init pre) opening) = true) as Hin
      by (now rewrite next_mode_code, Hcode, Hopen).
  destruct (plan_in_code _ (0 + extent pre + length opening + 1) rest Hin Hrest)
    as [Hplan Hvisits].
  assert (insert_positions (scan t) = plan mode_init 0 pre) as Hps.
  { rewrite scan_plan, Hblocks, plan_app. cbn [plan].
    rewrite Hco, Hplan. cbn [app]. apply app_nil_r. }
  assert (classified (scan t) = visits mode_init 0 pre) as Hvs.
  { rewrite scan_visits, Hblocks, visits_app. cbn [visits].
    rewrite Hcl, Hvisits. cbn [app]. apply app_nil_r. }
  split; [|split].
  - intros p Hp. rewrite Hps in Hp. apply plan_range in Hp. lia.
  - intros p Hp. rewrite Hvs in Hp. apply visits_range in Hp. lia.
  - intros Hne. rewrite Hps, scan_plan. rewrite blocks_toPlainText.
    + reflexivity.
    + exact Hne.
    + pose proof (blocks_line_free t) as Hall. rewrite Hblocks in Hall.
      apply Forall_app in Hall. tauto.
Qed.

Lemma open_fence_suspends_repair_witness :
  insert_positions
    (scan (buffer ["intro"; "```"; "text"; "- item"]%string))
  = insert_positions (scan (toPlainText [lit "intro"])).
Proof.
  destruct (open_fence_suspends_repair
              (buffer ["intro"; "```"; "text"; "- item"]%string)
              [lit "intro"] (lit "```") [lit "text"; lit "- item"])
    as [_ [_ H]].
  - reflexivity.
  - reflexivity.
  - reflexivity.
  - repeat constructor.
  - apply H. discriminate.
Defined.

(** X7.  Nested content stays with its list item: outside code fences, a
    line that is indented more deeply than the list item directly above
    it, and is not a table row, is never recorded by the scan of
    [auto_fix_spacing], whatever its own type is. *)
Theorem nested_line_not_separated (t : str) (before : list str)
        (prev line : str) (after : list str) :
  blocks t = before ++ prev :: line :: after ->
  Nat.even (fence_count before) = true ->
  is_fence prev = false -> is_fence line = false ->
  In (identify_block_type prev) list_types ->
  get_indent prev < get_indent line ->
  identify_block_type line <> table ->
  ~ In (extent (before ++ [prev])) (insert_positions (scan t)).
Proof.
  intros Hblocks Heven Hp Hl Hlist Hdeeper Htable Hin.
  rewrite scan_plan, Hblocks in Hin.
  apply (conflict_planned before prev line after Heven Hp Hl) in Hin.
  assert ((get_indent line <=? get_indent prev) = false) as Hle
      by (apply Nat.leb_gt; exact Hdeeper).
  unfold check_conflict in Hin. rewrite Hle in Hin.
  destruct Hlist as [E|[E|[E|[]]]]; rewrite <- E in Hin;
    destruct (identify_block_type line);
    try discriminate Hin; now apply Htable.
Qed.

Lemma nested_line_not_separated_witness :
  ~ In 7 (insert_positions
            (scan (buffer ["- item"; "  1. nested"; "  more"]%string))).
Proof.
  refine (nested_line_not_separated
            (buffer ["- item"; "  1. nested"; "  more"]%string)
            [] (lit "- item") (lit "  1. nested") [lit "  more"]
            _ _ _ _ _ _ _).
  - reflexivity.
  - reflexivity.
  - reflexivity.
  - reflexivity.
  - left. reflexivity.
  - vm_compute. lia.
  - discriminate.
Defined.

(** ** The cursor and the document *)

(** The block found for a position lies in the document. *)
Lemma findBlock_in (bs : list str) (start pos : nat) :
  bs <> [] ->
  let b := findBlock (layout start bs) pos in
  start <= block_position b
  /\ block_position b + length (block_text b) + 1 <= start + extent bs.
Proof.
  revert start. induction bs as [|l bs IH]; intros start Hne; [contradiction|].
  destruct bs as [|l' bs].
  - cbn. lia.
  - cbv zeta.
    change (findBlock (layout start (l :: l' :: bs)) pos)
      with (if pos <? start + block_length (Block start l)
            then Block start l
            else findBlock (layout (start + length l + 1) (l' :: bs)) pos).
    destruct (pos <? _).
    + cbn [block_position block_text extent]. lia.
    + specialize (IH (start + length l + 1) ltac:(discriminate)).
      cbv zeta in IH. cbn [extent] in *. lia.
Qed.

Lemma block_in_document (t : str) (c : QTextCursor) :
  block_position (block t c) + length (block_text (block t c)) <= length t.
Proof.
  pose proof (findBlock_in (blocks t) 0 (position c) (blocks_nonempty t)) as H.
  cbv zeta in H. fold (document t) in H. fold (block t c) in H.
  rewrite extent_blocks in H. lia.
Qed.

Lemma insertText_in_document (s t : str) (c : QTextCursor) :
  in_document t c ->
  in_document (fst (insertText s t c)) (snd (insertText s t c)).
Proof.
  unfold in_document, insertText, selectionStart, selectionEnd.
  cbn [fst snd anchor position]. intros [Ha Hp].
  rewrite !length_app, length_firstn. lia.
Qed.

Lemma setPosition_in_document (t : str) (p : nat) (c : QTextCursor) :
  in_document t c -> in_document t (setPosition t p c).
Proof.
  unfold in_document, setPosition. intros H.
  destruct (Nat.leb_spec p (length t)); [cbn; lia | exact H].
Qed.

Lemma setPosition_KeepAnchor_in_document (t : str) (p : nat)
      (c : QTextCursor) :
  in_document t c -> in_document t (setPosition_KeepAnchor t p c).
Proof.
  unfold in_document, setPosition_KeepAnchor. intros H.
  destruct (Nat.leb_spec p (length t)); [cbn; lia | exact H].
Qed.

Lemma remove_marker_in_document (e : editor) (c : QTextCursor) :
  in_document (plain e) c ->
  in_document (plain (remove_current_line_marker e c))
    (textCursor (remove_current_line_marker e c)).
Proof.
  intros [Ha Hp].
  pose proof (block_in_document (plain e) c) as Hb.
  unfold remove_current_line_marker, insertBlock, insertText,
    removeSelectedText, select_BlockUnderCursor, in_document.
  destruct (block_length (block (plain e) c) =? 1);
    [|destruct (block_position (block (plain e) c) =? 0)];
    unfold selectionStart, selectionEnd;
    cbn [plain textCursor anchor position];
    rewrite ?length_app, ?length_firstn, ?length_skipn; cbn [length];
    rewrite ?length_app, ?length_firstn, ?length_skipn; cbn [length]; lia.
Qed.

Lemma insert_new_line_in_document (e : editor) (prefix : str) :
  in_document (plain e) (textCursor e) ->
  in_document (plain (insert_new_line_with_prefix e prefix))
    (textCursor (insert_new_line_with_prefix e prefix)).
Proof.
  intros [Ha Hp].
  unfold insert_new_line_with_prefix, insertText, in_document.
  unfold selectionStart, selectionEnd.
  cbn [plain textCursor anchor position].
  rewrite ?length_app, ?length_firstn, ?length_skipn; cbn [length];
    rewrite ?length_app, ?length_firstn, ?length_skipn; cbn [length]; lia.
Qed.

Lemma keyPressEvent_handled (k : key) (e e' : editor) :
  keyPressEvent k e = Handled e' ->
  e' = remove_current_line_marker e (textCursor e)
  \/ exists prefix, e' = insert_new_line_with_prefix e prefix.
Proof.
  intros H.
  assert (keyPressEvent Key_Return e = Handled e') as H'
      by (destruct k; [exact H | exact H | discriminate H]).
  clear H. unfold keyPressEvent in H'. cbv zeta in H'.
  repeat match type of H' with
         | (if ?c then _ else _) = _ => destruct c
         | match ?m with Some _ => _ | None => _ end = _ => destruct m
         end;
    try discriminate H'; injection H' as <-; eauto.
Qed.

Lemma insert_blank_in_document (f : fix_state) (p : nat) :
  in_document (fix_text f) (fix_cursor f) ->
  in_document (fix_text (insert_blank f p)) (fix_cursor (insert_blank f p)).
Proof.
  intros H. unfold insert_blank.
  pose proof (insertText_in_document [LF] (fix_text f)
                (setPosition (fix_text f) p (fix_cursor f))
                (setPosition_in_document _ p _ H)) as Hi.
  destruct (insertText [LF] (fix_text f)
              (setPosition (fix_text f) p (fix_cursor f))) as [t' c'].
  exact Hi.
Qed.

Lemma fix_loop_in_document (ps : list nat) (f : fix_state) :
  in_document (fix_text f) (fix_cursor f) ->
  in_document (fix_text (fold_left insert_blank ps f))
    (fix_cursor (fold_left insert_blank ps f)).
Proof.
  revert f. induction ps as [|p ps IH]; intros f H; [exact H|].
  cbn [fold_left]. apply IH. now apply insert_blank_in_document.
Qed.

Lemma auto_fix_in_document (e : editor) :
  in_document (plain e) (textCursor e) ->
  in_document (plain (auto_fix_spacing e)) (textCursor (auto_fix_spacing e)).
Proof.
  intros H. unfold auto_fix_spacing.
  destruct (is_fixing e); [exact H|].
  destruct (insert_positions (scan (plain e))) as [|p ps]; [exact H|].
  cbn [plain textCursor].
  apply setPosition_in_document.
  exact (fix_loop_in_document (rev (p :: ps)) (Fix _ _ _) H).
Qed.

Lemma toggle_in_document (e : editor) :
  in_document (plain e) (textCursor e) ->
  in_document (plain (fst (check_task_toggle e)))
    (textCursor (fst (check_task_toggle e))).
Proof.
  intros H. unfold check_task_toggle.
  destruct (hasSelection (textCursor e)); [exact H|].
  destruct (Re.checkbox _) as [m|]; [|exact H].
  destruct (_ && _); [|exact H].
  set (b := block (plain e) (textCursor e)).
  set (c2 := setPosition_KeepAnchor (plain e) _
               (setPosition (plain e) _ (textCursor e))).
  assert (in_document (plain e) c2) as H2
      by (apply setPosition_KeepAnchor_in_document,
            setPosition_in_document, H).
  destruct (strip (Re.content m)).
  - pose proof (insertText_in_document (lit "[x]") _ _ H2) as H3.
    destruct (insertText (lit "[x]") (plain e) c2) as [t3 c3].
    cbn [fst snd plain textCursor] in *.
    destruct (_ <? _); now apply setPosition_in_document.
  - pose proof (insertText_in_document (lit "[ ]") _ _ H2) as H3.
    destruct (insertText (lit "[ ]") (plain e) c2) as [t3 c3].
    cbn [fst snd plain textCursor] in *.
    destruct (_ <? _); now apply setPosition_in_document.
Qed.

(** X8.  The cursor stays in the document: when anchor and position of the
    text cursor are offsets of the buffer, they still are after
    [auto_fix_spacing], after [check_task_toggle] and after a key press
    that [keyPressEvent] handles. *)
Theorem cursor_stays_in_document (e : editor) :
  in_document (plain e) (textCursor e) ->
  in_document (plain (auto_fix_spacing e)) (textCursor (auto_fix_spacing e))
  /\ in_document (plain (fst (check_task_toggle e)))
       (textCursor (fst (check_task_toggle e)))
  /\ (forall k e', keyPressEvent k e = Handled e' ->
        in_document (plain e') (textCursor e')).
Proof.
  intros H. split; [now apply auto_fix_in_document|].
  split; [now apply toggle_in_document|].
  intros k e' Hk. destruct (keyPressEvent_handled k e e' Hk) as [->|[p ->]].
  - now apply remove_marker_in_document.
  - now apply insert_new_line_in_document.
Qed.

Lemma cursor_stays_in_document_witness :
  in_document (plain (auto_fix_spacing (three_lines 21)))
    (textCursor (auto_fix_spacing (three_lines 21))).
Proof.
  refine (proj1 (cursor_stays_in_document (three_lines 21) _)).
  split; cbn; lia.
Defined.

(** ** Line breaks in list items *)

Lemma task_prefix_identify (line : str) (m : Re.prefix_match) :
  Re.task_prefix line = Some m -> identify_block_type line = task.
Proof.
  unfold Re.task_prefix. intros H.
  destruct (drop_while isspace line) as [|b [|sp [|l [|c [|r rest]]]]] eqn:E;
    try discriminate H.
  destruct (Re.one_of "-*" b && Ascii.eqb sp " " && Ascii.eqb l "["
            && Re.one_of "xX " c && Ascii.eqb r "]") eqn:C;
    [|discriminate H].
  apply andb_prop in C. destruct C as [C Hr].
  apply andb_prop in C. destruct C as [C Hc].
  apply andb_prop in C. destruct C as [C Hl].
  apply andb_prop in C. destruct C as [Hb Hsp].
  apply Ascii.eqb_eq in Hsp. subst sp.
  rewrite (identify_from line b (" "%char :: l :: c :: r :: rest) E).
  rewrite heading_head_fails
    by (apply bullet_not_hash; now apply task_bullet_is_bullet).
  unfold Re.task. now rewrite Hb, Hl, Hc, Hr.
Qed.

Lemma ul_prefix_identify (line : str) (m : Re.prefix_match) :
  Re.ul_prefix line = Some m ->
  identify_block_type line = task \/ identify_block_type line = ul.
Proof.
  unfold Re.ul_prefix. intros H.
  destruct (drop_while isspace line) as [|b rest] eqn:E; [discriminate H|].
  destruct (Re.one_of "-*+" b) eqn:Hb; [|discriminate H].
  destruct rest as [|w rest]; [discriminate H|].
  cbn [take_while] in H. destruct (isspace w) eqn:Hw; [|discriminate H].
  rewrite (identify_from line b (w :: rest) E).
  rewrite heading_head_fails by (now apply bullet_not_hash).
  destruct (Re.task (b :: w :: rest)); [now left|].
  right. unfold Re.ul. now rewrite Hb, Hw.
Qed.

Lemma ol_prefix_identify (line : str) (m : Re.prefix_match) :
  Re.ol_prefix line = Some m -> identify_block_type line = ol.
Proof.
  unfold Re.ol_prefix. intros H.
  destruct (take_while isdigit (drop_while isspace line)) as [|d ds] eqn:Ed;
    [discriminate H|].
  destruct (drop_while isdigit (drop_while isspace line)) as [|dot rest] eqn:Er;
    [discriminate H|].
  destruct (Ascii.eqb dot ".") eqn:Hdot; [|discriminate H].
  apply Ascii.eqb_eq in Hdot. subst dot.
  pose proof (take_drop_while isdigit (drop_while isspace line)) as Hsplit.
  rewrite Ed, Er in Hsplit. cbn [app] in Hsplit. symmetry in Hsplit.
  pose proof (take_while_all isdigit (drop_while isspace line)) as Hall.
  rewrite Ed in Hall. inversion Hall as [|? ? Hd1 Hds]; subst.
  rewrite (identify_from line d (ds ++ "."%char :: rest) Hsplit).
  rewrite heading_head_fails by (now apply digit_not_hash).
  rewrite task_head_fails by (now apply digit_not_task_bullet).
  rewrite ul_head_fails by (now apply digit_not_bullet).
  unfold Re.ol.
  change (d :: ds ++ "."%char :: rest) with ((d :: ds) ++ "."%char :: rest).
  rewrite take_while_run, drop_while_run by easy. reflexivity.
Qed.

(** X9.  [keyPressEvent] handles a key itself only when the key is Return
    or Enter and the line of the caret is one that [identify_block_type]
    classifies as a list item (['ul'], ['ol'] or ['task']); every other
    key press goes to [QTextEdit]. *)
Theorem keyPressEvent_handles_list_items_only (k : key) (e e' : editor) :
  keyPressEvent k e = Handled e' ->
  (k = Key_Return \/ k = Key_Enter)
  /\ In (identify_block_type (block_text (block (plain e) (textCursor e))))
        list_types.
Proof.
  intros H.
  assert (k = Key_Return \/ k = Key_Enter) as Hk
      by (destruct k; [now left | now right | discriminate H]).
  split; [exact Hk|].
  assert (keyPressEvent Key_Return e = keyPressEvent k e) as Hsame
      by (destruct Hk; subst k; reflexivity).
  rewrite <- Hsame in H. clear Hsame Hk.
  unfold keyPressEvent in H. cbv zeta in H.
  set (line := block_text (block (plain e) (textCursor e))) in *.
  unfold list_types.
  destruct (Re.task_prefix line) as [mt|] eqn:Et.
  { rewrite (task_prefix_identify _ _ Et). simpl. tauto. }
  destruct (Re.ul_prefix line) as [mu|] eqn:Eu.
  { destruct (ul_prefix_identify _ _ Eu) as [-> | ->]; simpl; tauto. }
  destruct (Re.ol_prefix line) as [mo|] eqn:Eo.
  { rewrite (ol_prefix_identify _ _ Eo). simpl. tauto. }
  discriminate H.
Qed.

Lemma keyPressEvent_handles_list_items_only_witness :
  In (identify_block_type
        (block_text (block (plain (editing ["a"; "1. b"]%string 6))
                       (textCursor (editing ["a"; "1. b"]%string 6)))))
     list_types.
Proof.
  exact (proj2 (keyPressEvent_handles_list_items_only Key_Enter
                  (editing ["a"; "1. b"]%string 6)
                  (editing ["a"; "1. b"; "2. "]%string 10) eq_refl)).
Defined.

(** A line break and a prefix typed inside a line: the line is split at
    the caret and the prefix starts the second part. *)
Lemma insert_new_line_at (e : editor) (before : list str) (line : str)
      (after : list str) (prefix : str) (off : nat) :
  blocks (plain e) = before ++ line :: after ->
  off <= length line ->
  textCursor e = Cursor (extent before + off) (extent before + off) ->
  insert_new_line_with_prefix e prefix
  = Editor (toPlainText
              (before ++ [firstn off line; prefix ++ skipn off line] ++ after))
      (Cursor (extent before + off + 1 + length prefix)
              (extent before + off + 1 + length prefix))
      (is_fixing e).
Proof.
  intros Hb Hoff Hc.
  pose proof (firstn_skipn off line) as Hab.
  assert (length (firstn off line) = off) as Hlen
      by (rewrite length_firstn; lia).
  set (a := firstn off line) in *. set (b := skipn off line) in *.
  clearbody a b. subst line off.
  unfold insert_new_line_with_prefix, insertText.
  rewrite Hc. unfold selectionStart, selectionEnd. simpl anchor. simpl position.
  rewrite !Nat.min_id, !Nat.max_id.
  rewrite (plain_around _ _ _ _ Hb).
  rewrite toPlainText_around by discriminate.
  f_equal.
  rewrite <- (lead_length before).
  replace (lead before ++ (a ++ b) ++ trail after)
    with ((lead before ++ a) ++ [] ++ (b ++ trail after))
    by (now rewrite <- !app_assoc).
  rewrite (splice (lead before ++ a) [] (b ++ trail after) [LF])
    by (rewrite ?length_app; simpl; lia).
  replace ((lead before ++ a) ++ [LF] ++ b ++ trail after)
    with (((lead before ++ a) ++ [LF]) ++ [] ++ (b ++ trail after))
    by (now rewrite <- !app_assoc).
  rewrite (splice ((lead before ++ a) ++ [LF]) [] (b ++ trail after) prefix)
    by (rewrite ?length_app; simpl; lia).
  simpl. rewrite <- !app_assoc. simpl. rewrite <- ?app_assoc. reflexivity.
Qed.

Lemma split_line_blocks (t : str) (before : list str) (line : str)
      (after : list str) (a b : str) :
  blocks t = before ++ line :: after -> line_free a -> line_free b ->
  blocks (toPlainText (before ++ a :: b :: after)) = before ++ a :: b :: after.
Proof.
  intros Hblocks Ha Hb. apply blocks_toPlainText.
  - destruct before; discriminate.
  - pose proof (blocks_line_free t) as Hall.
    rewrite Hblocks in Hall. apply Forall_app in Hall.
    destruct Hall as [Hbefore Hrest]. inversion Hrest; subst.
    apply Forall_app. split; [assumption|].
    constructor; [assumption|]. constructor; assumption.
Qed.

Lemma line_free_firstn (n : nat) (s : str) : line_free s -> line_free (firstn n s).
Proof.
  intros H Hin. apply H. rewrite <- (firstn_skipn n s).
  apply in_or_app. now left.
Qed.

Lemma line_free_skipn (n : nat) (s : str) : line_free s -> line_free (skipn n s).
Proof.
  intros H Hin. apply H. rewrite <- (firstn_skipn n s).
  apply in_or_app. now right.
Qed.

Lemma strip_bullet_item (indent : str) (b : ascii) (ws : str) (x : ascii)
      (rest : str) :
  all_space indent -> Re.one_of "-*+" b = true -> isspace x = false ->
  strip (bullet_item indent b ws (x :: rest)) = b :: ws ++ x :: rstrip rest.
Proof.
  intros Hi Hb Hx. unfold bullet_item.
  rewrite strip_indented by (try assumption; now apply bullet_not_space).
  f_equal. now apply rstrip_stop.
Qed.

(** X10.  A line break inside a bullet item that has text after its marker
    and is not a task item: the line is split at the caret, and the
    second part begins with the indent, the bullet and a single space;
    the caret is placed after this new marker. *)
Theorem bullet_item_line_break (k : key) (e : editor)
        (before after : list str) (indent : str) (b : ascii) (ws : str)
        (x : ascii) (rest : str) (off : nat) :
  k = Key_Return \/ k = Key_Enter ->
  all_space indent -> Re.one_of "-*+" b = true ->
  ws <> [] -> all_space ws -> isspace x = false ->
  Re.task_prefix (bullet_item indent b ws (x :: rest)) = None ->
  blocks (plain e)
  = before ++ bullet_item indent b ws (x :: rest) :: after ->
  off <= length (bullet_item indent b ws (x :: rest)) ->
  textCursor e = Cursor (extent before + off) (extent before + off) ->
  let line := bullet_item indent b ws (x :: rest) in
  let fresh := indent ++ b :: lit " " in
  let caret := extent before + off + 1 + length fresh in
  keyPressEvent k e
  = Handled (Editor
               (toPlainText
                  (before ++ firstn off line :: (fresh ++ skipn off line)
                          :: after))
               (Cursor caret caret) (is_fixing e))
  /\ blocks (toPlainText
               (before ++ firstn off line :: (fresh ++ skipn off line)
                       :: after))
     = before ++ firstn off line :: (fresh ++ skipn off line) :: after.
Proof.
  intros Hk Hi Hb Hne Hws Hx Htask Hblocks Hoff Hcursor line fresh caret.
  pose proof (bullet_not_space b Hb) as Hbs.
  pose proof (line_in_blocks _ _ _ _ Hblocks) as Hfree. fold line in Hfree.
  assert (line_free fresh) as Hfresh.
  { unfold line, bullet_item in Hfree. apply line_free_app in Hfree.
    destruct Hfree as [Hfi Hfr]. apply line_free_cons in Hfr.
    unfold fresh. apply line_free_app. split; [exact Hfi|].
    apply line_free_cons. split; [tauto|].
    intros [H|[]]; discriminate H. }
  assert (Re.ul_prefix line
          = Some (Re.PrefixMatch (indent ++ [b] ++ ws) indent [b])) as Hul.
  { unfold line, bullet_item. apply ul_prefix_matches; try assumption.
    split; assumption. }
  assert (Re.ol_prefix line = None) as Hol.
  { unfold line, bullet_item.
    apply ol_prefix_fails; try assumption. now apply bullet_not_digit. }
  split.
  - assert (keyPressEvent Key_Return e = keyPressEvent k e) as <-
        by (destruct Hk; subst k; reflexivity).
    unfold keyPressEvent. cbv zeta.
    rewrite (block_at _ before line after);
      [|exact Hblocks | rewrite Hcursor; cbn [position]; unfold line; lia].
    cbn [block_text]. fold line in Htask. rewrite Htask, Hul, Hol.
    cbn [Re.group0 Re.group1 Re.group2].
    unfold line. rewrite strip_bullet_item by assumption.
    rewrite str_eqb_neq
      by (intros H; injection H as H; destruct ws; [now apply Hne | discriminate H]).
    fold line.
    rewrite (insert_new_line_at e before line after _ off) by assumption.
    unfold fresh, caret. cbn [app lit list_ascii_of_string].
    rewrite <- !app_assoc. reflexivity.
  - apply (split_line_blocks (plain e) before line after); [exact Hblocks | |].
    + now apply line_free_firstn.
    + apply line_free_app. split; [exact Hfresh | now apply line_free_skipn].
Qed.

Lemma bullet_item_line_break_witness :
  keyPressEvent Key_Enter (editing ["intro"; "  * one two"]%string 13)
  = Handled (editing ["intro"; "  * one"; "  *  two"]%string 18).
Proof.
  destruct (bullet_item_line_break Key_Enter
              (editing ["intro"; "  * one two"]%string 13)
              [lit "intro"] [] (lit "  ") "*"%char [" "%char] "o"%char
              (lit "ne two") 7)
    as [H _].
  - right; reflexivity.
  - repeat constructor.
  - reflexivity.
  - discriminate.
  - repeat constructor.
  - reflexivity.
  - reflexivity.
  - reflexivity.
  - simpl. lia.
  - reflexivity.
  - exact H.
Defined.












(** X13.  A line break on a bare marker that is not on the first line of
    the buffer ends the list: the key is handled, the marker line becomes
    an empty line, all other lines stay, the number of lines is
    unchanged, and the caret is on the empty line with nothing selected,
    wherever in the line it was and whatever was selected. *)
Theorem bare_marker_ends_list (k : key) (e : editor)
        (before : list str) (prev line : str) (after : list str) :
  k = Key_Return \/ k = Key_Enter ->
  bare_marker line ->
  blocks (plain e) = (before ++ [prev]) ++ line :: after ->
  extent (before ++ [prev]) <= position (textCursor e)
  <= extent (before ++ [prev]) + length line ->
  exists e',
    keyPressEvent k e = Handled e'
    /\ blocks (plain e') = (before ++ [prev]) ++ [] :: after
    /\ textCursor e'
       = Cursor (extent (before ++ [prev])) (extent (before ++ [prev]))
    /\ length (blocks (plain e')) = length (blocks (plain e)).
Proof.
  intros Hk Hbare Hblocks Hpos.
  eexists. split.
  - apply (bare_marker_line_break_later k e before prev line after);
      assumption.
  - cbn [plain textCursor].
    assert (blocks (toPlainText ((before ++ [prev]) ++ [] :: after))
            = (before ++ [prev]) ++ [] :: after) as Hnew.
    { apply (blocks_replace_line (plain e) (before ++ [prev]) line after);
        [exact Hblocks | intros []]. }
    split; [exact Hnew|]. split; [reflexivity|].
    rewrite Hnew, Hblocks, !length_app. reflexivity.
Qed.

Lemma bare_marker_ends_list_witness :
  exists e',
    keyPressEvent Key_Return
      (Editor (buffer ["- one"; "- "; "end"]%string) (Cursor 0 7) false)
    = Handled e'
    /\ blocks (plain e') = ([] ++ [lit "- one"]) ++ [] :: [lit "end"]
    /\ textCursor e' = Cursor 6 6
    /\ length (blocks (plain e')) = 3.
Proof.
  refine (bare_marker_ends_list Key_Return
            (Editor (buffer ["- one"; "- "; "end"]%string) (Cursor 0 7) false)
            [] (lit "- one") (lit "- ") [lit "end"] _ _ _ _).
  - left; reflexivity.
  - apply (bare_bullet [] "-"%char [" "%char]).
    + constructor.
    + reflexivity.
    + discriminate.
    + repeat constructor.
  - reflexivity.
  - simpl. lia.
Defined.

(** ** Toggles that do not happen *)

(** The caret on a checkbox line but not on the box: nothing happens. *)
Lemma toggle_outside (e : editor) (before after : list str) (indent : str)
      (b : ascii) (gap content rest : str) (p : nat) :
  all_space indent -> Re.one_of "-*" b = true -> all_space gap ->
  Forall (fun c => Re.one_of " xX" c = true) content ->
  blocks (plain e)
  = before ++ checkbox_item indent b gap content rest :: after ->
  textCursor e = Cursor (extent before + p) (extent before + p) ->
  p <= length (checkbox_item indent b gap content rest) ->
  p <= length (indent ++ b :: gap)
  \/ length (indent ++ b :: gap) + length content + 1 < p ->
  check_task_toggle e = (e, []).
Proof.
  intros Hi Hb Hg Hc Hblocks Hcursor Hin Hp.
  set (line := checkbox_item indent b gap content rest) in *.
  set (marker := indent ++ b :: gap) in *.
  unfold check_task_toggle. cbv zeta. rewrite Hcursor.
  unfold hasSelection. cbn [anchor position]. rewrite Nat.eqb_refl. cbn [negb].
  unfold positionInBlock.
  rewrite (block_at _ before line after) by (cbn [position]; auto; lia).
  cbn [block_text block_position position].
  unfold line at 1. rewrite checkbox_matches by assumption.
  cbn [Re.marker Re.content Re.match_end].
  change (indent ++ [b] ++ gap) with marker.
  replace (extent before + p - extent before) with p by lia.
  destruct (Nat.ltb_spec (length marker) p);
    destruct (Nat.leb_spec p (length marker + 1 + length content + 1 - 1));
    try reflexivity.
  lia.
Qed.

Lemma flip_box_chars (content : str) :
  Forall (fun c => Re.one_of " xX" c = true) (flip_box content).
Proof. unfold flip_box. destruct (strip content); repeat constructor. Qed.

(** X15.  A caret on a checkbox line but not on the box (at or before the
    opening bracket, or after the closing bracket) toggles nothing:
    [check_task_toggle] leaves the editor as it is and emits no
    signal. *)
Theorem toggle_outside_box_inert (e : editor) (before after : list str)
        (indent : str) (b : ascii) (gap content rest : str) (p : nat) :
  all_space indent -> Re.one_of "-*" b = true -> all_space gap ->
  Forall (fun c => Re.one_of " xX" c = true) content ->
  blocks (plain e)
  = before ++ checkbox_item indent b gap content rest :: after ->
  textCursor e = Cursor (extent before + p) (extent before + p) ->
  p <= length (checkbox_item indent b gap content rest) ->
  p <= length (indent ++ b :: gap)
  \/ length (indent ++ b :: gap) + length content + 1 < p ->
  check_task_toggle e = (e, []).
Proof. apply toggle_outside. Qed.

Lemma toggle_outside_box_inert_witness :
  check_task_toggle (editing ["- [ ] done?"]%string 8)
  = (editing ["- [ ] done?"]%string 8, []).
Proof.
  refine (toggle_outside_box_inert (editing ["- [ ] done?"]%string 8) [] []
            [] "-"%char [" "%char] [" "%char] (lit " done?") 8
            _ _ _ _ _ _ _ _).
  - constructor.
  - reflexivity.
  - repeat constructor.
  - repeat constructor.
  - reflexivity.
  - reflexivity.
  - simpl. lia.
  - right. simpl. lia.
Defined.

(** X16.  A toggle settles: when [check_task_toggle] has flipped a box that
    held one character, [textChanged] is emitted once, and the handler
    called again on the result, as the move of the caret makes Qt do,
    leaves it alone, because the caret then stands after the closing
    bracket. *)
Theorem toggle_settles (e : editor) (before after : list str)
        (indent : str) (b : ascii) (gap : str) (c : ascii) (rest : str)
        (p : nat) :
  all_space indent -> Re.one_of "-*" b = true -> all_space gap ->
  Re.one_of " xX" c = true ->
  blocks (plain e)
  = before ++ checkbox_item indent b gap [c] rest :: after ->
  textCursor e = Cursor (extent before + p) (extent before + p) ->
  length (indent ++ b :: gap) < p <= length (indent ++ b :: gap) + 2 ->
  snd (check_task_toggle e) = [textChanged]
  /\ check_task_toggle (fst (check_task_toggle e))
     = (fst (check_task_toggle e), []).
Proof.
  intros Hi Hb Hg Hc Hblocks Hcursor Hp.
  assert (Forall (fun c => Re.one_of " xX" c = true) [c]) as Hcs
      by (constructor; [exact Hc | constructor]).
  rewrite (toggle_flip e before after indent b gap [c] rest p)
    by (try assumption; cbn [length]; lia).
  cbn [fst snd]. split; [reflexivity|].
  set (line' := checkbox_item indent b gap (flip_box [c]) rest).
  pose proof (checkbox_item_length indent b gap (flip_box [c]) rest) as Hll.
  fold line' in Hll. rewrite flip_box_length in Hll.
  apply (toggle_outside _ before after indent b gap (flip_box [c]) rest
           (Nat.min (length (indent ++ b :: gap) + length [c] + 2)
                    (length line'))).
  - exact Hi.
  - exact Hb.
  - exact Hg.
  - apply flip_box_chars.
  - cbn [plain].
    apply (blocks_replace_line (plain e) before
             (checkbox_item indent b gap [c] rest) after); [exact Hblocks|].
    apply (checkbox_item_line_free indent b gap [c]).
    + exact (line_in_blocks _ _ _ _ Hblocks).
    + apply flip_box_line_free.
  - reflexivity.
  - fold line'. lia.
  - right. rewrite flip_box_length. cbn [length]. fold line'. lia.
Qed.

Lemma toggle_settles_witness :
  check_task_toggle (fst (check_task_toggle (editing ["- [ ] done?"]%string 3)))
  = (fst (check_task_toggle (editing ["- [ ] done?"]%string 3)), []).
Proof.
  refine (proj2 (toggle_settles (editing ["- [ ] done?"]%string 3) [] []
                   [] "-"%char [" "%char] " "%char (lit " done?") 3
                   _ _ _ _ _ _ _)).
  - constructor.
  - reflexivity.
  - repeat constructor.
  - reflexivity.
  - reflexivity.
  - reflexivity.
  - simpl. lia.
Defined.

(** ** The main window: line types and the text of the preview *)

Import MarkdownEditor.

(** A string is its right-stripped part and a run of white space. *)
Lemma rstrip_decomp (s : str) :
  exists ws, all_space ws /\ s = rstrip s ++ ws.
Proof.
  exists (rev (take_while isspace (rev s))). split.
  - apply all_space_rev. apply take_while_all.
  - unfold rstrip. rewrite <- rev_app_distr, take_drop_while.
    now rewrite rev_involutive.
Qed.

Lemma lstrip_decomp (line : str) :
  exists ws, all_space ws /\ lstrip line = strip line ++ ws.
Proof. exact (rstrip_decomp (lstrip line)). Qed.

Lemma space_not_close (w : ascii) :
  isspace w = true -> Ascii.eqb w "]" = false.
Proof. each_char w. Qed.

Lemma task_literal_bullet (b : ascii) (z : str) :
  Re.task_literal (b :: z) = true -> Re.one_of "-*" b = true.
Proof.
  unfold Re.task_literal.
  destruct z as [|sp [|l [|c [|r z]]]]; try discriminate.
  destruct (Re.one_of "-*" b); [reflexivity | discriminate].
Qed.

(** The task pattern of the classifier on a stripped line and the white
    space that followed it. *)
Lemma task_with_trailing (b : ascii) (z ws : str) :
  all_space ws ->
  Re.ul_literal (b :: z) = true ->
  Re.task (b :: z ++ ws) = Re.task_literal (b :: z).
Proof.
  intros Hws Hul. unfold Re.ul_literal in Hul.
  destruct z as [|sp z]; [discriminate Hul|].
  apply andb_prop in Hul. destruct Hul as [_ Hsp].
  apply Ascii.eqb_eq in Hsp. subst sp.
  unfold Re.task, Re.task_literal. cbn [app].
  change (isspace " ") with true. change (Ascii.eqb " " " ") with true.
  destruct z as [|l [|c [|r z]]]; cbn [app].
  - destruct ws as [|w1 [|w2 [|w3 ws]]]; try reflexivity.
    inversion Hws as [|? ? _ H1]; subst. inversion H1 as [|? ? _ H2]; subst.
    inversion H2 as [|? ? H3 _]; subst.
    rewrite (space_not_close _ H3). now rewrite !andb_false_r.
  - destruct ws as [|w1 [|w2 ws]]; try reflexivity.
    inversion Hws as [|? ? _ H1]; subst. inversion H1 as [|? ? H2 _]; subst.
    rewrite (space_not_close _ H2). now rewrite !andb_false_r.
  - destruct ws as [|w1 ws]; try reflexivity.
    inversion Hws as [|? ? H1 _]; subst.
    rewrite (space_not_close _ H1). now rewrite !andb_false_r.
  - reflexivity.
Qed.

Lemma ul_literal_ul (b : ascii) (z ws : str) :
  Re.ul_literal (b :: z) = true ->
  Re.one_of "-*+" b = true /\ Re.ul (b :: z ++ ws) = true.
Proof.
  unfold Re.ul_literal, Re.ul. destruct z as [|sp z]; [discriminate|].
  intros H. apply andb_prop in H. destruct H as [Hb Hsp].
  apply Ascii.eqb_eq in Hsp. subst sp. split; [exact Hb|].
  cbn [app]. now rewrite Hb.
Qed.

Lemma ol_with_trailing (s ws : str) :
  Re.ol s = true ->
  Re.ol (s ++ ws) = true
  /\ exists d z, s = d :: z /\ isdigit d = true.
Proof.
  unfold Re.ol. intros H.
  destruct (take_while isdigit s) as [|d ds] eqn:Ed; [discriminate H|].
  destruct (drop_while isdigit s) as [|dot rest] eqn:Er; [discriminate H|].
  apply Ascii.eqb_eq in H. subst dot.
  pose proof (take_drop_while isdigit s) as Hsplit.
  rewrite Ed, Er in Hsplit.
  pose proof (take_while_all isdigit s) as Hall. rewrite Ed in Hall.
  split.
  - rewrite <- Hsplit, <- app_assoc. cbn [app].
    change (d :: ds ++ "."%char :: rest ++ ws)
      with ((d :: ds) ++ "."%char :: rest ++ ws).
    rewrite take_while_run, drop_while_run by easy. reflexivity.
  - exists d, (ds ++ "."%char :: rest). split; [now rewrite <- Hsplit|].
    now inversion Hall.
Qed.

(** X18.  The preview and the editor agree on list items: when
    [get_line_type] takes a line for a list item (['task'], ['ul'] or
    ['ol']), [identify_block_type] gives the same type. *)
Theorem line_types_agree (line : str) :
  In (get_line_type line) [task; ul; ol] ->
  identify_block_type line = get_line_type line.
Proof.
  unfold get_line_type. intros Hin.
  destruct (lstrip_decomp line) as [ws [Hws Hl]].
  destruct (strip line) as [|k z] eqn:Es.
  { destruct Hin as [H|[H|[H|[]]]]; discriminate H. }
  cbn [app] in Hl. rewrite (identify_from line k (z ++ ws) Hl).
  destruct (Re.task_literal (k :: z)) eqn:Et.
  - pose proof (task_literal_bullet _ _ Et) as Hb.
    rewrite heading_head_fails
      by (apply bullet_not_hash; now apply task_bullet_is_bullet).
    assert (Re.ul_literal (k :: z) = true) as Hul.
    { unfold Re.task_literal in Et. unfold Re.ul_literal.
      destruct z as [|sp [|l [|c [|r z]]]]; try discriminate Et.
      rewrite (task_bullet_is_bullet _ Hb).
      destruct (Ascii.eqb sp " "); [reflexivity|].
      now rewrite andb_false_r in Et. }
    now rewrite (task_with_trailing k z ws Hws Hul), Et.
  - destruct (Re.ul_literal (k :: z)) eqn:Eu.
    + destruct (ul_literal_ul k z ws Eu) as [Hb Hul].
      rewrite heading_head_fails by (now apply bullet_not_hash).
      now rewrite (task_with_trailing k z ws Hws Eu), Et, Hul.
    + destruct (Re.ol (k :: z)) eqn:Eo.
      * destruct (ol_with_trailing (k :: z) ws Eo) as [Hol [d [z' [Hd Hd1]]]].
        injection Hd as <- <-.
        rewrite heading_head_fails by (now apply digit_not_hash).
        rewrite task_head_fails by (now apply digit_not_task_bullet).
        rewrite ul_head_fails by (now apply digit_not_bullet).
        cbn [app] in Hol. now rewrite Hol.
      * destruct Hin as [H|[H|[H|[]]]]; discriminate H.
Qed.

Lemma line_types_agree_witness :
  identify_block_type (lit "  * [x] done  ") = get_line_type (lit "  * [x] done  ")
  /\ identify_block_type (lit " 12.") = get_line_type (lit " 12.").
Proof.
  split.
  - exact (line_types_agree (lit "  * [x] done  ") (or_introl eq_refl)).
  - exact (line_types_agree (lit " 12.")
             (or_intror (or_intror (or_introl eq_refl)))).
Defined.


Lemma processed_line_free (pt : block_type) (bs : list str) :
  Forall line_free bs -> Forall line_free (processed_lines pt bs).
Proof.
  revert pt. induction bs as [|l bs IH]; intros pt H; [constructor|].
  inversion H; subst. cbn [processed_lines].
  destruct (is_render_conflict pt (get_line_type l)); cbn [app];
    repeat constructor; try assumption; try (intros []); now apply IH.
Qed.


Lemma md_text_blocks (raw_text : str) :
  blocks (md_text raw_text) = processed_lines empty (blocks raw_text).
Proof.
  unfold md_text. apply blocks_toPlainText.
  - pose proof (blocks_nonempty raw_text) as Hne.
    destruct (blocks raw_text); [contradiction | discriminate].
  - apply processed_line_free, blocks_line_free.
Qed.



Lemma not_list_quiet (pt : block_type) :
  is_render_conflict pt empty = false /\ is_render_conflict empty pt = false.
Proof. split; [now destruct pt | reflexivity]. Qed.

Lemma processed_again (pt : block_type) (bs : list str) :
  processed_lines pt (processed_lines pt bs) = processed_lines pt bs.
Proof.
  revert pt. induction bs as [|l bs IH]; intros pt; [reflexivity|].
  cbn [processed_lines].
  destruct (is_render_conflict pt (get_line_type l)) eqn:E; cbn [app].
  - cbn [processed_lines].
    change (get_line_type []) with empty.
    rewrite (proj1 (not_list_quiet pt)). cbn [app].
    rewrite (proj2 (not_list_quiet (get_line_type l))). cbn [app].
    now rewrite IH.
  - cbn [processed_lines]. rewrite E. cbn [app]. now rewrite IH.
Qed.

(** X20.  The line preprocessing of [update_preview] is idempotent: applied
    to its own result it adds no further line. *)
Theorem preview_preprocessing_idempotent (raw_text : str) :
  md_text (md_text raw_text) = md_text raw_text.
Proof.
  unfold md_text at 1. rewrite md_text_blocks, processed_again. reflexivity.
Qed.




(** ** Headings and inline formatting *)

(** Replacing the text of a line that is selected from its start to its
    end. *)
Lemma replace_line (t : str) (before : list str) (line : str)
      (after : list str) (s : str) :
  blocks t = before ++ line :: after ->
  insertText s t (Cursor (extent before) (extent before + length line))
  = (toPlainText (before ++ s :: after),
     Cursor (extent before + length s) (extent before + length s)).
Proof.
  intros Hblocks. unfold insertText, selectionStart, selectionEnd.
  cbn [anchor position]. rewrite Nat.min_l, Nat.max_r by lia.
  f_equal.
  rewrite (plain_around _ _ _ _ Hblocks).
  change (before ++ s :: after) with (before ++ [s] ++ after).
  rewrite toPlainText_around by discriminate.
  rewrite splice by (rewrite ?lead_length; reflexivity).
  reflexivity.
Qed.

Lemma selected_line (t : str) (before : list str) (line : str)
      (after : list str) :
  blocks t = before ++ line :: after ->
  selectedText t (Cursor (extent before) (extent before + length line)) = line.
Proof.
  intros Hblocks. unfold selectedText, selectionStart, selectionEnd.
  cbn [anchor position]. rewrite Nat.min_l, Nat.max_r by lia.
  rewrite (plain_around _ _ _ _ Hblocks).
  rewrite <- (lead_length before), skipn_exact.
  replace (length (lead before) + length line - length (lead before))
    with (length line) by lia.
  apply firstn_exact.
Qed.

(** The line of the caret selected from its start to its end. *)
Lemma select_line (t : str) (before : list str) (line : str)
      (after : list str) (c : QTextCursor) :
  blocks t = before ++ line :: after ->
  extent before <= position c <= extent before + length line ->
  movePosition_EndOfBlock_KeepAnchor t (movePosition_StartOfBlock t c)
  = Cursor (extent before) (extent before + length line).
Proof.
  intros Hblocks Hpos.
  unfold movePosition_StartOfBlock.
  rewrite (block_at t before line after c Hblocks Hpos).
  cbn [block_position].
  unfold movePosition_EndOfBlock_KeepAnchor.
  rewrite (block_at t before line after _ Hblocks)
    by (cbn [position]; lia).
  reflexivity.
Qed.

Lemma line_free_drop_while (p : ascii -> bool) (s : str) :
  line_free s -> line_free (drop_while p s).
Proof.
  intros H Hin. apply H. rewrite <- (take_drop_while p s).
  apply in_or_app. now right.
Qed.

Lemma sub_heading_marks_line_free (s : str) :
  line_free s -> line_free (Re.sub_heading_marks s).
Proof.
  intros H. unfold Re.sub_heading_marks.
  destruct (take_while (Ascii.eqb "#") s); [exact H|].
  now do 2 apply line_free_drop_while.
Qed.

Lemma hashes_line_free (n : nat) : line_free (repeat "#"%char n).
Proof.
  intros H. apply repeat_spec in H. discriminate H.
Qed.

Lemma apply_heading_at (level : nat) (e : editor) (before : list str)
      (line : str) (after : list str) :
  blocks (plain e) = before ++ line :: after ->
  extent before <= position (textCursor e) <= extent before + length line ->
  let heading :=
    repeat "#"%char level ++ lit " " ++ Re.sub_heading_marks line in
  apply_heading level e
  = Editor (toPlainText (before ++ heading :: after))
      (Cursor (extent before + length heading)
              (extent before + length heading))
      (is_fixing e).
Proof.
  intros Hblocks Hpos heading. unfold apply_heading.
  rewrite (select_line _ before line after _ Hblocks Hpos).
  rewrite (selected_line _ before line after Hblocks).
  fold heading.
  now rewrite (replace_line _ before line after heading Hblocks).
Qed.

Lemma heading_line_free (level : nat) (line : str) :
  line_free line ->
  line_free (repeat "#"%char level ++ lit " " ++ Re.sub_heading_marks line).
Proof.
  intros H. apply line_free_app. split; [apply hashes_line_free|].
  apply line_free_app. split.
  - intros [E|[]]; discriminate E.
  - now apply sub_heading_marks_line_free.
Qed.

(** X22.  [apply_heading] with a level from 1 to 6 rewrites the line of the
    caret and no other: the leading run of hash marks with the white
    space after it is replaced by the new marks and one space, the result
    is a heading line for the classifier, and the caret ends at the end
    of that line. *)
Theorem apply_heading_rewrites_line (level : nat) (e : editor)
        (before : list str) (line : str) (after : list str) :
  blocks (plain e) = before ++ line :: after ->
  extent before <= position (textCursor e) <= extent before + length line ->
  1 <= level <= 6 ->
  let heading :=
    repeat "#"%char level ++ lit " " ++ Re.sub_heading_marks line in
  blocks (plain (apply_heading level e)) = before ++ heading :: after
  /\ textCursor (apply_heading level e)
     = Cursor (extent before + length heading)
              (extent before + length heading)
  /\ Re.heading heading = true
  /\ identify_block_type heading = text.
Proof.
  intros Hblocks Hpos Hlevel heading.
  rewrite (apply_heading_at level e before line after Hblocks Hpos).
  cbn [plain textCursor]. fold heading.
  assert (Re.heading heading = true) as Hh
      by (apply (heading_matches level " "); [exact Hlevel | reflexivity]).
  split; [|split; [reflexivity|split; [exact Hh|]]].
  - apply (blocks_replace_line (plain e) before line after); [exact Hblocks|].
    apply heading_line_free. exact (line_in_blocks _ _ _ _ Hblocks).
  - destruct level as [|n]; [lia|].
    rewrite (identify_from heading "#" (repeat "#"%char n ++ lit " "
                                          ++ Re.sub_heading_marks line))
      by reflexivity.
    change ("#"%char :: repeat "#"%char n ++ lit " "
              ++ Re.sub_heading_marks line) with heading.
    now rewrite Hh.
Qed.

Lemma apply_heading_rewrites_line_witness :
  blocks (plain (apply_heading 2 (editing ["intro"; "# Old title"]%string 9)))
  = [lit "intro"; lit "## Old title"].
Proof.
  refine (proj1 (apply_heading_rewrites_line 2
                   (editing ["intro"; "# Old title"]%string 9)
                   [lit "intro"] (lit "# Old title") [] _ _ _)).
  - reflexivity.
  - simpl. lia.
  - lia.
Defined.

Lemma sub_heading_marks_heading (level : nat) (title : str) :
  1 <= level ->
  Re.sub_heading_marks (repeat "#"%char level ++ lit " " ++ title)
  = lstrip title.
Proof.
  intros Hl. unfold Re.sub_heading_marks.
  rewrite take_while_run, drop_while_run
    by (try apply repeat_hashes; reflexivity).
  destruct level; [lia | reflexivity].
Qed.

Lemma lstrip_idem (s : str) : lstrip (lstrip s) = lstrip s.
Proof.
  unfold lstrip. pose proof (drop_while_head isspace s) as H.
  destruct (drop_while isspace s) as [|c r]; [reflexivity|].
  simpl. now rewrite H.
Qed.

(** X23.  Heading marks are replaced, not stacked: after [apply_heading] at
    one level, [apply_heading] at another leaves the line with the new
    marks, one space and the title without leading white space; applying
    the same level once more changes nothing. *)
Theorem apply_heading_changes_level (first second : nat) (e : editor)
        (before : list str) (line : str) (after : list str) :
  blocks (plain e) = before ++ line :: after ->
  extent before <= position (textCursor e) <= extent before + length line ->
  1 <= first -> 1 <= second ->
  let title := lstrip (Re.sub_heading_marks line) in
  blocks (plain (apply_heading second (apply_heading first e)))
  = before ++ (repeat "#"%char second ++ lit " " ++ title) :: after
  /\ apply_heading second
       (apply_heading second (apply_heading first e))
     = apply_heading second (apply_heading first e).
Proof.
  intros Hblocks Hpos Hfirst Hsecond title.
  pose proof (line_in_blocks _ _ _ _ Hblocks) as Hfree.
  set (h1 := repeat "#"%char first ++ lit " " ++ Re.sub_heading_marks line).
  assert (apply_heading first e
          = Editor (toPlainText (before ++ h1 :: after))
              (Cursor (extent before + length h1) (extent before + length h1))
              (is_fixing e)) as E1
      by (now apply apply_heading_at).
  assert (blocks (toPlainText (before ++ h1 :: after))
          = before ++ h1 :: after) as B1.
  { apply (blocks_replace_line (plain e) before line after); [exact Hblocks|].
    now apply heading_line_free. }
  set (h2 := repeat "#"%char second ++ lit " " ++ title).
  assert (line_free h2) as Hfree2.
  { unfold h2. apply line_free_app. split; [apply hashes_line_free|].
    apply line_free_app. split.
    - intros [E|[]]; discriminate E.
    - unfold title. apply line_free_drop_while.
      now apply sub_heading_marks_line_free. }
  assert (blocks (toPlainText (before ++ h2 :: after))
          = before ++ h2 :: after) as B2
      by (now apply (blocks_replace_line (plain e) before line after)).
  assert (apply_heading second (apply_heading first e)
          = Editor (toPlainText (before ++ h2 :: after))
              (Cursor (extent before + length h2) (extent before + length h2))
              (is_fixing e)) as E2.
  { rewrite E1.
    rewrite (apply_heading_at second (Editor _ _ _) before h1 after B1)
      by (cbn [textCursor position]; lia).
    unfold h1 at 1 2 3. rewrite sub_heading_marks_heading by exact Hfirst.
    reflexivity. }
  rewrite E2. cbn [plain]. split; [exact B2|].
  rewrite (apply_heading_at second (Editor _ _ _) before h2 after B2)
    by (cbn [textCursor position]; lia).
  unfold h2 at 1 2 3. rewrite sub_heading_marks_heading by exact Hsecond.
  unfold title at 1 2 3. rewrite lstrip_idem. reflexivity.
Qed.

Lemma apply_heading_changes_level_witness :
  blocks (plain (apply_heading 3
                   (apply_heading 1 (editing ["  plain line"]%string 4))))
  = [lit "### plain line"].
Proof.
  refine (proj1 (apply_heading_changes_level 1 3
                   (editing ["  plain line"]%string 4)
                   [] (lit "  plain line") [] _ _ _ _)).
  - reflexivity.
  - simpl. lia.
  - lia.
  - lia.
Defined.

Lemma moves_left (n q : nat) :
  Nat.iter n movePosition_Left (Cursor q q) = Cursor (q - n) (q - n).
Proof.
  induction n as [|n IH]; [now rewrite Nat.sub_0_r|].
  cbn [Nat.iter nat_rect]. unfold Nat.iter in IH. rewrite IH.
  unfold movePosition_Left. cbn [position]. f_equal; lia.
Qed.

(** X24.  [insert_formatting] wraps the selection: the selected text gets
    the prefix in front and the suffix behind, the text around it stays,
    and the caret ends after the suffix; with nothing selected, prefix
    and suffix are inserted at the caret and the caret is placed between
    them. *)
Theorem insert_formatting_wraps (prefix suffix : str) (e : editor)
        (pre sel post : str) :
  plain e = pre ++ sel ++ post ->
  selectionStart (textCursor e) = length pre ->
  selectionEnd (textCursor e) = length pre + length sel ->
  let caret :=
    match sel with
    | [] => length pre + length prefix
    | _ :: _ => length pre + length prefix + length sel + length suffix
    end in
  insert_formatting prefix suffix e
  = Editor (pre ++ prefix ++ sel ++ suffix ++ post) (Cursor caret caret)
      (is_fixing e).
Proof.
  intros Hplain Hstart Hend caret.
  unfold insert_formatting, hasSelection.
  assert ((anchor (textCursor e) =? position (textCursor e))
          = match sel with [] => true | _ :: _ => false end) as Hsel.
  { unfold selectionStart, selectionEnd in *.
    destruct sel; cbn [length] in *;
      [apply Nat.eqb_eq | apply Nat.eqb_neq]; lia. }
  rewrite Hsel.
  destruct sel as [|x sel]; cbn [negb].
  - unfold insertText. rewrite Hstart, Hend, Hplain. cbn [length app].
    rewrite Nat.add_0_r, firstn_exact, skipn_exact.
    rewrite moves_left. rewrite <- !app_assoc.
    unfold caret. rewrite length_app. do 2 f_equal; lia.
  - unfold selectedText, insertText. rewrite Hstart, Hend, Hplain.
    rewrite skipn_exact.
    replace (length pre + length (x :: sel) - length pre)
      with (length (x :: sel)) by lia.
    rewrite !firstn_exact.
    rewrite <- (length_app pre (x :: sel)), (app_assoc pre (x :: sel) post),
      skipn_exact.
    rewrite <- !app_assoc.
    unfold caret. rewrite !length_app. do 2 f_equal; lia.
Qed.

Lemma insert_formatting_wraps_witness :
  set_bold (Editor (lit "make this bold") (Cursor 9 5) false)
  = Editor (lit "make **this** bold") (Cursor 13 13) false
  /\ set_italic (editing ["ab"]%string 1) = editing ["a**b"]%string 2.
Proof.
  split.
  - exact (insert_formatting_wraps (lit "**") (lit "**")
             (Editor (lit "make this bold") (Cursor 9 5) false)
             (lit "make ") (lit "this") (lit " bold")
             eq_refl eq_refl eq_refl).
  - exact (insert_formatting_wraps (lit "*") (lit "*")
             (editing ["ab"]%string 1) (lit "a") [] (lit "b")
             eq_refl eq_refl eq_refl).
Defined.

(** ** The suggested file name *)

Lemma Forall_drop_while (P : ascii -> Prop) (p : ascii -> bool) (s : str) :
  Forall P s -> Forall P (drop_while p s).
Proof.
  induction 1 as [|c s Hc Hs IH]; [constructor|].
  simpl. destruct (p c); [exact IH | now constructor].
Qed.

Lemma Forall_take_while (P : ascii -> Prop) (p : ascii -> bool) (s : str) :
  Forall P s -> Forall P (take_while p s).
Proof.
  induction 1 as [|c s Hc Hs IH]; [constructor|].
  simpl. destruct (p c); constructor; assumption.
Qed.

Lemma Forall_first (P : ascii -> Prop) (n : nat) (s : str) :
  Forall P s -> Forall P (firstn n s).
Proof.
  intros H. revert n. induction H as [|c s Hc Hs IH]; intros [|n];
    cbn [firstn]; constructor; auto.
Qed.

Lemma Forall_strip_chars (P : ascii -> Prop) (chars : string) (s : str) :
  Forall P s -> Forall P (strip_chars chars s).
Proof.
  intros H. unfold strip_chars.
  apply Forall_rev, Forall_drop_while, Forall_rev, Forall_drop_while, H.
Qed.

Lemma Forall_strip (P : ascii -> Prop) (s : str) :
  Forall P s -> Forall P (strip s).
Proof.
  intros H. unfold strip, rstrip, lstrip.
  apply Forall_rev, Forall_drop_while, Forall_rev, Forall_drop_while, H.
Qed.

(** Stripping at the right end stops at a character that stays. *)
Lemma rev_drop_while_stop (p : ascii -> bool) (a : str) (k : ascii)
      (z : str) :
  p k = false ->
  rev (drop_while p (rev (a ++ k :: z)))
  = a ++ k :: rev (drop_while p (rev z)).
Proof.
  intros Hk. rewrite rev_app_distr. cbn [rev]. rewrite <- app_assoc.
  cbn [app]. rewrite drop_while_stop by exact Hk.
  rewrite rev_app_distr. cbn [rev]. rewrite rev_involutive, <- app_assoc.
  reflexivity.
Qed.

Lemma strip_chars_head (chars : string) (s : str) (c : ascii) :
  hd_error (strip_chars chars s) = Some c ->
  existsb (Ascii.eqb c) (list_ascii_of_string chars) = false.
Proof.
  unfold strip_chars. cbv zeta.
  set (drop := fun c => existsb (Ascii.eqb c) (list_ascii_of_string chars)).
  pose proof (drop_while_head drop s) as Hh.
  destruct (drop_while drop s) as [|k z]; [discriminate|].
  pose proof (rev_drop_while_stop drop [] k z Hh) as E.
  cbn [app] in E. rewrite E. cbn [hd_error].
  now intros [= <-].
Qed.

Lemma cleaned_char (c : ascii) :
  forbidden (if forbidden c then "_"%char else c) = false.
Proof. destruct (forbidden c) eqn:E; [reflexivity | exact E]. Qed.

Lemma clean_title_facts (title : str) :
  line_free title ->
  length (clean_title title) <= 50
  /\ Forall (fun c => forbidden c = false) (clean_title title)
  /\ line_free (clean_title title)
  /\ (forall c, hd_error (clean_title title) = Some c ->
        c <> " "%char /\ c <> "."%char).
Proof.
  intros Hfree. unfold clean_title.
  set (sub := map (fun c => if forbidden c then "_"%char else c) title).
  split; [apply firstn_le_length|].
  assert (Forall (fun c => forbidden c = false /\ c <> LF) sub) as Hall.
  { unfold sub. apply Forall_forall. intros c Hin.
    apply in_map_iff in Hin. destruct Hin as [c0 [<- Hin0]].
    split; [apply cleaned_char|].
    destruct (forbidden c0); [discriminate|].
    intros ->. now apply Hfree. }
  assert (Forall (fun c => forbidden c = false /\ c <> LF)
            (firstn 50 (strip_chars " ." sub))) as Hall'
      by (apply Forall_first, Forall_strip_chars, Hall).
  rewrite Forall_forall in Hall'.
  split; [|split].
  - apply Forall_forall. intros c Hin. now apply Hall'.
  - intros Hin. now apply (Hall' LF Hin).
  - intros c Hc.
    assert (hd_error (strip_chars " ." sub) = Some c) as Hc'
        by (destruct (strip_chars " ." sub); [discriminate | exact Hc]).
    apply strip_chars_head in Hc'. cbn [list_ascii_of_string existsb] in Hc'.
    apply orb_false_elim in Hc'. destruct Hc' as [H1 H2].
    apply orb_false_elim in H2. destruct H2 as [H2 _].
    split; intros ->; discriminate.
Qed.

Lemma heading_title_here_line_free (i : nat) (s g : str) :
  Re.heading_title_here i s = Some g -> line_free g.
Proof.
  unfold Re.heading_title_here.
  destruct (startswith s (repeat "#"%char i)); [|discriminate].
  destruct (take_while isspace (skipn i s)) as [|w ws]; [discriminate|].
  destruct (drop_while isspace (skipn i s)) as [|r rs] eqn:Er.
  - pose proof (drop_while_head (fun c => Ascii.eqb c "010") (rev ws)) as Hh.
    destruct (drop_while (fun c => Ascii.eqb c "010") (rev ws)) as [|c cs];
      [discriminate|].
    intros [= <-]. intros [E|[]]. subst c. discriminate Hh.
  - intros [= <-]. intros Hin.
    pose proof (take_while_all (fun c => negb (Ascii.eqb c "010")) (r :: rs))
      as Hall.
    rewrite Forall_forall in Hall. specialize (Hall _ Hin). discriminate Hall.
Qed.

Lemma heading_title_line_free (i : nat) (s : str) (start : bool) (g : str) :
  Re.heading_title i start s = Some g -> line_free g.
Proof.
  revert start. induction s as [|c s IH]; intros start; cbn [Re.heading_title].
  - destruct start; [|discriminate].
    destruct (Re.heading_title_here i []) eqn:E; [|discriminate].
    intros [= <-]. now apply (heading_title_here_line_free i []).
  - destruct (if start then Re.heading_title_here i (c :: s) else None) eqn:E.
    + intros [= <-]. destruct start; [|discriminate].
      now apply (heading_title_here_line_free i (c :: s)).
    + apply IH.
Qed.

Lemma line_free_strip (s : str) : line_free s -> line_free (strip s).
Proof.
  intros H Hin.
  assert (Forall (fun c => c <> LF) (strip s)) as Hall.
  { apply Forall_strip, Forall_forall. intros c Hc ->. now apply H. }
  rewrite Forall_forall in Hall. now apply (Hall LF Hin).
Qed.

Lemma title_of_levels_some (levels : list nat) (content name : str) :
  title_of_levels levels content = Some name ->
  name <> []
  /\ exists i g, In i levels /\ Re.heading_title i true content = Some g
                 /\ name = clean_title (strip g).
Proof.
  induction levels as [|i levels IH]; [discriminate|].
  cbn [title_of_levels].
  destruct (Re.heading_title i true content) as [g|] eqn:E.
  - destruct (clean_title (strip g)) as [|c n] eqn:En.
    + intros H. destruct (IH H) as [Hne [j [g' [Hin H']]]].
      split; [exact Hne|]. exists j, g'. split; [now right | exact H'].
    + intros [= <-]. split; [discriminate|].
      exists i, g. split; [now left|]. split; [exact E | now symmetry].
  - intros H. destruct (IH H) as [Hne [j [g' [Hin H']]]].
    split; [exact Hne|]. exists j, g'. split; [now right | exact H'].
Qed.

(** X25.  Without a file path [get_suggested_filename] always proposes a
    name: the time-stamped default, or a title that is not empty, has at
    most 50 characters, none of them a line feed or one of the characters
    the method replaces, and does not begin with a space or a dot; the
    extension follows after a dot. *)
Theorem suggested_filename_is_clean (base_name : str -> str)
        (content timestamp extension : str) :
  exists name,
    get_suggested_filename base_name None content timestamp extension
    = name ++ lit "." ++ extension
    /\ (name = lit "Export_" ++ timestamp
        \/ (name <> [] /\ length name <= 50
            /\ Forall (fun c => forbidden c = false) name
            /\ line_free name
            /\ forall c, hd_error name = Some c ->
                 c <> " "%char /\ c <> "."%char)).
Proof.
  unfold get_suggested_filename.
  destruct (title_of_levels (seq 1 6) content) as [name|] eqn:E.
  - exists name. split; [reflexivity|]. right.
    destruct (title_of_levels_some _ _ _ E) as [Hne [i [g [_ [Hg ->]]]]].
    split; [exact Hne|].
    apply clean_title_facts, line_free_strip.
    exact (heading_title_line_free _ _ _ _ Hg).
  - exists (lit "Export_" ++ timestamp). split; [|now left].
    now rewrite <- app_assoc.
Qed.

Lemma heading_title_rest_of_line (i : nat) (l s : str) :
  line_free l ->
  Re.heading_title i false (l ++ LF :: s) = Re.heading_title i true s.
Proof.
  induction l as [|c l IH]; intros Hfree; [reflexivity|].
  apply line_free_cons in Hfree. destruct Hfree as [Hc Hl].
  cbn [app Re.heading_title].
  destruct (Ascii.eqb_spec c "010"%char) as [E|_]; [now destruct Hc|].
  now apply IH.
Qed.

Lemma heading_title_here_fails (i : nat) (s : str) :
  1 <= i -> hd_error s <> Some "#"%char ->
  Re.heading_title_here i s = None.
Proof.
  intros Hi Hs. unfold Re.heading_title_here.
  destruct i as [|i]; [lia|]. cbn [repeat].
  destruct s as [|c s]; [reflexivity|]. cbn [startswith].
  destruct (Ascii.eqb_spec c "#"%char) as [->|_]; [now destruct Hs|].
  reflexivity.
Qed.

Lemma heading_title_skip_line (i : nat) (l s : str) :
  1 <= i -> line_free l -> hd_error l <> Some "#"%char ->
  Re.heading_title i true (l ++ LF :: s) = Re.heading_title i true s.
Proof.
  intros Hi Hfree Hl.
  destruct l as [|c l].
  - cbn [app Re.heading_title].
    rewrite heading_title_here_fails by (try assumption; discriminate).
    reflexivity.
  - cbn [app Re.heading_title].
    rewrite heading_title_here_fails by assumption.
    apply line_free_cons in Hfree. destruct Hfree as [Hc Hfree].
    destruct (Ascii.eqb_spec c "010"%char) as [E|_]; [now destruct Hc|].
    now apply heading_title_rest_of_line.
Qed.

Lemma heading_title_skip_lines (i : nat) (before : list str) (s : str) :
  1 <= i -> Forall line_free before ->
  Forall (fun l => hd_error l <> Some "#"%char) before ->
  Re.heading_title i true (lead before ++ s) = Re.heading_title i true s.
Proof.
  intros Hi Hfree Hall. induction before as [|l before IH]; [reflexivity|].
  inversion Hfree; subst. inversion Hall; subst.
  unfold lead in *. cbn [map concat]. rewrite <- !app_assoc. cbn [app].
  rewrite heading_title_skip_line by assumption. now apply IH.
Qed.

Lemma not_line_feed (c : ascii) :
  c <> LF -> negb (Ascii.eqb c "010") = true.
Proof.
  intros H. destruct (Ascii.eqb_spec c "010"%char) as [E|_];
    [now destruct H | reflexivity].
Qed.

Lemma startswith_nil (s : str) : startswith s [] = true.
Proof. now destruct s. Qed.

Lemma heading_title_first (ws : str) (x : ascii) (t : str)
      (after : list str) :
  ws <> [] -> all_space ws -> isspace x = false -> line_free (x :: t) ->
  Re.heading_title 1 true (("#"%char :: ws ++ x :: t) ++ trail after)
  = Some (x :: t).
Proof.
  intros Hne Hws Hx Hfree.
  assert (Re.heading_title_here 1 (("#"%char :: ws ++ x :: t) ++ trail after)
          = Some (x :: t)) as Hhere.
  { unfold Re.heading_title_here.
    change (startswith (("#"%char :: ws ++ x :: t) ++ trail after)
              (repeat "#"%char 1))
      with (startswith ((ws ++ x :: t) ++ trail after) []).
    rewrite startswith_nil. cbn [app skipn].
    rewrite <- app_assoc. cbn [app].
    rewrite take_while_run, drop_while_run by easy.
    destruct ws as [|w ws]; [contradiction|].
    f_equal.
    change (x :: t ++ trail after) with ((x :: t) ++ trail after).
    apply take_while_run.
    - apply Forall_forall. intros c Hc. apply not_line_feed.
      intros ->. now apply Hfree.
    - destruct after; [exact I | reflexivity]. }
  cbn [app Re.heading_title]. cbn [app] in Hhere. now rewrite Hhere.
Qed.

(** X26.  The first level-1 heading names the file: when no earlier line
    begins with a hash mark, the proposed name is the cleaned title of
    that heading, provided something is left of it, whatever headings of
    other levels the text has. *)
Theorem filename_from_first_heading (base_name : str -> str)
        (content : str) (before : list str) (ws : str) (x : ascii) (t : str)
        (after : list str) (timestamp extension : str) :
  blocks content = before ++ ("#"%char :: ws ++ x :: t) :: after ->
  Forall (fun l => hd_error l <> Some "#"%char) before ->
  ws <> [] -> all_space ws -> isspace x = false ->
  clean_title (strip (x :: t)) <> [] ->
  get_suggested_filename base_name None content timestamp extension
  = clean_title (strip (x :: t)) ++ lit "." ++ extension.
Proof.
  intros Hblocks Hbefore Hne Hws Hx Hclean.
  pose proof (blocks_line_free content) as Hall. rewrite Hblocks in Hall.
  apply Forall_app in Hall. destruct Hall as [Hfb Hrest].
  inversion Hrest as [|? ? Hline _]; subst.
  assert (line_free (x :: t)) as Hfree.
  { change ("#"%char :: ws ++ x :: t) with (("#"%char :: ws) ++ x :: t) in Hline.
    apply line_free_app in Hline. tauto. }
  unfold get_suggested_filename. cbn [seq title_of_levels].
  rewrite (plain_around _ _ _ _ Hblocks).
  rewrite heading_title_skip_lines by (try assumption; lia).
  rewrite heading_title_first by assumption.
  destruct (clean_title (strip (x :: t))); [contradiction | reflexivity].
Qed.

Lemma filename_from_first_heading_witness :
  get_suggested_filename (fun path => path) None
    (buffer ["notes"; ""; "#  Q3: plan/draft "; "## Later"]%string)
    (lit "20250101_0900") (lit "pdf")
  = lit "Q3_ plan_draft.pdf".
Proof.
  refine (filename_from_first_heading (fun path => path)
            (buffer ["notes"; ""; "#  Q3: plan/draft "; "## Later"]%string)
            [lit "notes"; []] (lit "  ") "Q"%char (lit "3: plan/draft ")
            [lit "## Later"] (lit "20250101_0900") (lit "pdf") _ _ _ _ _ _).
  - reflexivity.
  - repeat constructor; discriminate.
  - discriminate.
  - repeat constructor.
  - reflexivity.
  - discriminate.
Defined.

(** ** List markers from the tool bar *)

Lemma nextBlock_layout (before : list str) (line : str) (after : list str)
      (start pos : nat) :
  start + extent before <= pos <= start + extent before + length line ->
  nextBlock (layout start (before ++ line :: after)) pos
  = match after with
    | [] => None
    | n :: _ => Some (Block (start + extent before + length line + 1) n)
    end.
Proof.
  revert start. induction before as [|b before IH]; intros start Hpos.
  - cbn [app extent] in *. rewrite Nat.add_0_r in *.
    destruct after as [|a after]; [reflexivity|].
    cbn [layout nextBlock]. unfold block_length.
    cbn [block_position block_text].
    destruct (Nat.ltb_spec pos (start + (length line + 1)));
      [reflexivity | lia].
  - cbn [extent] in Hpos.
    replace (start + extent (b :: before))
      with (start + length b + 1 + extent before) by (cbn [extent]; lia).
    rewrite <- (IH (start + length b + 1)) by lia.
    change ((b :: before) ++ line :: after)
      with (b :: (before ++ line :: after)).
    cbn [layout].
    destruct (layout (start + length b + 1) (before ++ line :: after)) eqn:E.
    + destruct before; discriminate.
    + cbn [nextBlock]. unfold block_length. cbn [block_position block_text].
      destruct (Nat.ltb_spec pos (start + (length b + 1))); [lia|].
      reflexivity.
Qed.

Lemma previousBlock_first (prev0 : option QTextBlock) (line : str)
      (after : list str) (start pos : nat) :
  start <= pos <= start + length line ->
  previousBlock prev0 (layout start (line :: after)) pos = prev0.
Proof.
  intros Hpos. destruct after as [|a after]; [reflexivity|].
  cbn [layout previousBlock]. unfold block_length.
  cbn [block_position block_text].
  destruct (Nat.ltb_spec pos (start + (length line + 1)));
    [reflexivity | lia].
Qed.

Lemma previousBlock_later (prev0 : option QTextBlock) (before : list str)
      (prev line : str) (after : list str) (start pos : nat) :
  start + extent (before ++ [prev]) <= pos
  <= start + extent (before ++ [prev]) + length line ->
  previousBlock prev0 (layout start ((before ++ [prev]) ++ line :: after)) pos
  = Some (Block (start + extent before) prev).
Proof.
  revert start prev0. induction before as [|b before IH]; intros start prev0 Hpos.
  - cbn [app extent] in *. rewrite Nat.add_0_r in *.
    change (layout start (prev :: line :: after))
      with (Block start prev :: layout (start + length prev + 1) (line :: after)).
    destruct (layout (start + length prev + 1) (line :: after)) as [|q l] eqn:E;
      [discriminate E|].
    change (previousBlock prev0 (Block start prev :: q :: l) pos)
      with (if pos <? start + (length prev + 1) then prev0
            else previousBlock (Some (Block start prev)) (q :: l) pos).
    destruct (Nat.ltb_spec pos (start + (length prev + 1))); [lia|].
    rewrite <- E. apply previousBlock_first. lia.
  - rewrite extent_app in Hpos. cbn [extent] in Hpos.
    replace (start + extent (b :: before))
      with (start + length b + 1 + extent before) by (cbn [extent]; lia).
    rewrite <- (IH (start + length b + 1) (Some (Block start b)))
      by (rewrite extent_app; cbn [extent]; lia).
    change (((b :: before) ++ [prev]) ++ line :: after)
      with (b :: ((before ++ [prev]) ++ line :: after)).
    cbn [layout].
    destruct (layout (start + length b + 1)
                ((before ++ [prev]) ++ line :: after)) as [|q l] eqn:E.
    + destruct before; discriminate.
    + change (previousBlock prev0 (Block start b :: q :: l) pos)
        with (if pos <? start + (length b + 1) then prev0
              else previousBlock (Some (Block start b)) (q :: l) pos).
      destruct (Nat.ltb_spec pos (start + (length b + 1))); [lia|].
      reflexivity.
Qed.

Lemma line_free_Forall (s : str) :
  line_free s <-> Forall (fun c => c <> LF) s.
Proof.
  rewrite Forall_forall. unfold line_free. split.
  - intros H c Hc ->. now apply H.
  - intros H Hin. now apply (H LF Hin).
Qed.

Lemma Forall_tail (P : ascii -> Prop) (s : str) (c : ascii) (r : str) :
  Forall P s -> forall p, drop_while p s = c :: r -> Forall P r.
Proof.
  intros H p E. pose proof (Forall_drop_while P p s H) as H'.
  rewrite E in H'. now inversion H'.
Qed.

Lemma Forall_sub_list_marker (P : ascii -> Prop) (s : str) :
  Forall P s -> Forall P (Re.sub_list_marker s).
Proof.
  intros H. unfold Re.sub_list_marker.
  destruct (drop_while isspace s) as [|b rest] eqn:E; [exact H|].
  pose proof (Forall_tail P s b rest H isspace E) as Hrest.
  pose proof (Forall_drop_while P isspace s H) as Hr. rewrite E in Hr.
  destruct (Re.one_of "-*+" b).
  - destruct (take_while isspace rest); [exact H|].
    apply Forall_app. split.
    + now apply Forall_take_while.
    + now apply Forall_drop_while.
  - destruct (take_while isdigit (b :: rest)); [exact H|].
    destruct (drop_while isdigit (b :: rest)) as [|dot rest'] eqn:E'; [exact H|].
    pose proof (Forall_tail P (b :: rest) dot rest' Hr isdigit E') as Hrest'.
    destruct (Ascii.eqb dot "."); [|exact H].
    destruct (take_while isspace rest'); [exact H|].
    apply Forall_app. split.
    + now apply Forall_take_while.
    + now apply Forall_drop_while.
Qed.

Lemma prefixed_line_free (ty : block_type) (line : str) :
  line_free line -> line_free (prefixed ty line).
Proof.
  intros H.
  assert (line_free (lstrip (Re.sub_list_marker line))) as Hbody.
  { apply line_free_Forall, Forall_drop_while, Forall_sub_list_marker.
    now apply line_free_Forall. }
  unfold prefixed.
  destruct ty; try exact H; apply line_free_app; (split; [|exact Hbody]);
    intros Hin; cbn in Hin;
    repeat (destruct Hin as [Hin|Hin]; [discriminate Hin|]); exact Hin.
Qed.

(** One turn of the loop of [apply_list_prefix], the cursor at the start
    of the line [line]. *)
Lemma prefix_turn (turns : nat) (ty : block_type) (end_ : nat) (t : str)
      (before : list str) (line : str) (after : list str) :
  blocks t = before ++ line :: after ->
  extent before <= end_ ->
  let new_text := prefixed ty line in
  let t2 := toPlainText (before ++ new_text :: after) in
  let next := extent before + length new_text + 1 in
  prefix_loop (S turns) ty end_ t (Cursor (extent before) (extent before))
  = match after with
    | [] => (t2, Cursor (next - 1) (next - 1))
    | _ :: _ =>
        if end_ <? next then (t2, Cursor next next)
        else prefix_loop turns ty end_ t2 (Cursor next next)
    end
  /\ blocks t2 = before ++ new_text :: after.
Proof.
  intros Hblocks Hend new_text t2 next.
  assert (blocks t2 = before ++ new_text :: after) as Hblocks2.
  { apply (blocks_replace_line t before line after); [exact Hblocks|].
    apply prefixed_line_free. exact (line_in_blocks _ _ _ _ Hblocks). }
  split; [|exact Hblocks2].
  cbn [prefix_loop position].
  destruct (Nat.leb_spec (extent before) end_); [|lia].
  assert (movePosition_EndOfBlock_KeepAnchor t
            (Cursor (extent before) (extent before))
          = Cursor (extent before) (extent before + length line)) as ->.
  { unfold movePosition_EndOfBlock_KeepAnchor.
    rewrite (block_at t before line after _ Hblocks)
      by (cbn [position]; lia).
    reflexivity. }
  rewrite (selected_line t before line after Hblocks).
  fold new_text.
  rewrite (replace_line t before line after new_text Hblocks).
  fold t2. cbn [position].
  unfold movePosition_NextBlock, document. cbn [position].
  rewrite Hblocks2.
  rewrite (nextBlock_layout before new_text after 0) by lia.
  destruct after as [|n after].
  - unfold next. do 2 f_equal; lia.
  - cbn [block_position position Nat.add].
    unfold hasSelection. cbn [anchor position]. rewrite Nat.eqb_refl.
    cbn [negb]. rewrite andb_true_r.
    fold next. reflexivity.
Qed.

(** The start of [apply_list_prefix]: the separator is put in and the
    cursor goes to the start of the line. *)
Lemma apply_list_prefix_start (ty : block_type) (e : editor)
      (before : list str) (line : str) (after : list str) (off : nat) :
  blocks (plain e) = before ++ line :: after ->
  selectionStart (textCursor e) = extent before + off ->
  off <= length line ->
  let above := before ++ separator before in
  let t1 := toPlainText (above ++ line :: after) in
  let end_ := match separator before with
              | [] => extent before + off
              | _ :: _ => extent above
              end in
  blocks t1 = above ++ line :: after
  /\ plain (apply_list_prefix ty e)
     = fst (prefix_loop (length (blocks t1)) ty end_ t1
              (Cursor (extent above) (extent above))).
Proof.
  intros Hblocks Hstart Hoff above t1 end_.
  pose proof (plain_length _ _ _ _ Hblocks) as Hlen.
  pose proof (blocks_line_free (plain e)) as Hfree. rewrite Hblocks in Hfree.
  assert (blocks t1 = above ++ line :: after) as Hblocks1.
  { apply blocks_toPlainText.
    - destruct above; discriminate.
    - apply Forall_app in Hfree. destruct Hfree as [Hfb Hfl].
      apply Forall_app. split; [|exact Hfl].
      apply Forall_app. split; [exact Hfb|].
      unfold separator. destruct (rev before); [constructor|].
      destruct (strip s); [constructor|].
      destruct (Re.list_pattern s); repeat constructor. intros []. }
  split; [exact Hblocks1|].
  unfold apply_list_prefix. rewrite Hstart.
  assert (setPosition (plain e) (extent before + off) (textCursor e)
          = Cursor (extent before + off) (extent before + off)) as ->.
  { unfold setPosition.
    destruct (Nat.leb_spec (extent before + off) (length (plain e)));
      [reflexivity | lia]. }
  cbn [position].
  assert (movePosition_StartOfBlock (plain e)
            (Cursor (extent before + off) (extent before + off))
          = Cursor (extent before) (extent before)) as Hsob.
  { unfold movePosition_StartOfBlock.
    rewrite (block_at _ before line after _ Hblocks)
      by (cbn [position]; lia).
    reflexivity. }
  assert (match previousBlock None (document (plain e)) (extent before + off)
          with
          | Some b =>
              match strip (block_text b) with
              | [] => false
              | _ :: _ => negb (Re.list_pattern (block_text b))
              end
          | None => false
          end
          = match separator before with [] => false | _ :: _ => true end)
    as Hneeds.
  { unfold document. rewrite Hblocks. unfold separator.
    destruct (rev before) as [|prev r] eqn:Er.
    - assert (before = []) as -> by (now apply (f_equal (@rev str)) in Er;
                                     rewrite rev_involutive in Er).
      cbn [app]. rewrite previousBlock_first by (cbn [extent] in *; lia).
      reflexivity.
    - assert (before = rev r ++ [prev]) as Hb.
      { apply (f_equal (@rev str)) in Er. now rewrite rev_involutive in Er. }
      rewrite Hb.
      rewrite (previousBlock_later None (rev r) prev line after 0)
        by (rewrite <- Hb; lia).
      cbn [block_text]. destruct (strip prev); [reflexivity|].
      now destruct (Re.list_pattern prev). }
  rewrite Hneeds. rewrite Hsob.
  assert (above = before ++ separator before) as Habove by reflexivity.
  destruct (separator before) as [|blank sep] eqn:Es.
  - assert (above = before) as Ha by (rewrite Habove; apply app_nil_r).
    assert (t1 = plain e) as Ht.
    { unfold t1. rewrite Ha, <- Hblocks. apply toPlainText_blocks. }
    unfold selectionStart, selectionEnd. cbn [anchor position].
    rewrite Nat.min_id, Nat.max_id.
    unfold setPosition.
    destruct (Nat.leb_spec (extent before + off) (length (plain e))); [|lia].
    rewrite Hsob. unfold end_. rewrite Ht, Ha.
    now destruct (prefix_loop _ _ _ _ _).
  - assert (blank = [] /\ sep = []) as [-> ->].
    { unfold separator in Es. destruct (rev before); [discriminate|].
      destruct (strip s); [discriminate|].
      destruct (Re.list_pattern s); [discriminate|].
      now injection Es as <- <-. }
    assert (insertText [LF] (plain e) (Cursor (extent before) (extent before))
            = (t1, Cursor (extent above) (extent above))) as ->.
    { unfold insertText, selectionStart, selectionEnd.
      cbn [anchor position]. rewrite Nat.min_id, Nat.max_id.
      f_equal.
      - rewrite (plain_around _ _ _ _ Hblocks).
        replace (lead before ++ line ++ trail after)
          with (lead before ++ [] ++ (line ++ trail after)) by reflexivity.
        rewrite splice by (rewrite ?lead_length; cbn [length]; lia).
        unfold t1. rewrite Habove.
        rewrite <- app_assoc. cbn [app].
        change (before ++ [] :: line :: after)
          with (before ++ [[]; line] ++ after).
        rewrite toPlainText_around by discriminate.
        reflexivity.
      - rewrite Habove, extent_app. cbn [extent length]. f_equal; lia. }
    unfold selectionStart, selectionEnd. cbn [anchor position].
    rewrite Nat.min_id, Nat.max_id.
    pose proof (plain_length _ _ _ _ Hblocks1) as Hlen1.
    unfold setPosition.
    destruct (Nat.leb_spec (extent above) (length t1)); [|lia].
    assert (movePosition_StartOfBlock t1
              (Cursor (extent above) (extent above))
            = Cursor (extent above) (extent above)) as ->.
    { unfold movePosition_StartOfBlock.
      rewrite (block_at _ above line after _ Hblocks1)
        by (cbn [position]; lia).
      reflexivity. }
    unfold end_.
    now destruct (prefix_loop _ _ _ _ _).
Qed.

Lemma separator_cases (before : list str) :
  separator before = [] \/ separator before = [[]].
Proof.
  unfold separator. destruct (rev before); [now left|].
  destruct (strip s); [now left|].
  destruct (Re.list_pattern s); [now left | now right].
Qed.

(** X27.  [apply_list_prefix] on one line: the line of the caret gets the
    new list marker in place of its indent and old marker, an empty line
    is put before it when the line above is neither blank nor a list
    item, and the other lines stay.  This holds when the line is the last
    one, when the empty line was added, or when the caret was not further
    right in the line than the rewritten line is long. *)
Theorem apply_list_prefix_on_line (ty : block_type) (e : editor)
        (before : list str) (line : str) (after : list str) (off : nat) :
  blocks (plain e) = before ++ line :: after ->
  selectionStart (textCursor e) = extent before + off ->
  off <= length line ->
  after = [] \/ separator before <> []
  \/ off <= length (prefixed ty line) ->
  blocks (plain (apply_list_prefix ty e))
  = before ++ separator before ++ prefixed ty line :: after.
Proof.
  intros Hblocks Hstart Hoff Hstop.
  pose proof (apply_list_prefix_start ty e before line after off
                Hblocks Hstart Hoff) as H.
  cbv zeta in H. destruct H as [Hblocks1 ->]. rewrite Hblocks1.
  rewrite length_app. cbn [length]. rewrite Nat.add_succ_r.
  destruct (separator_cases before) as [Es|Es]; rewrite Es in *.
  - rewrite app_nil_r in *. cbn [app].
    destruct (prefix_turn (length before + length after) ty
                (extent before + off) _ before line after Hblocks1)
      as [Hturn Hblocks2]; [lia|].
    rewrite Hturn.
    destruct after as [|n after]; [exact Hblocks2|].
    match goal with
    | |- context [if ?c then _ else _] => assert (c = true) as ->
    end; [|exact Hblocks2].
    apply Nat.ltb_lt.
    destruct Hstop as [H|[H|H]];
      [discriminate H | now destruct H | lia].
  - destruct (prefix_turn (length (before ++ [[]]) + length after) ty
                (extent (before ++ [[]])) _ (before ++ [[]]) line after
                Hblocks1)
      as [Hturn Hblocks2]; [lia|].
    rewrite Hturn. rewrite (app_assoc before [[]]).
    destruct after as [|n after]; [exact Hblocks2|].
    match goal with
    | |- context [if ?c then _ else _] => assert (c = true) as ->
    end; [|exact Hblocks2].
    apply Nat.ltb_lt. lia.
Qed.

Lemma apply_list_prefix_on_line_witness :
  blocks (plain (apply_list_prefix ol
                   (editing ["Shopping"; "* milk"; "eggs"]%string 11)))
  = [lit "Shopping"] ++ [[]] ++ lit "1. milk" :: [lit "eggs"].
Proof.
  refine (apply_list_prefix_on_line ol
            (editing ["Shopping"; "* milk"; "eggs"]%string 11)
            [lit "Shopping"] (lit "* milk") [lit "eggs"] 2 _ _ _ _).
  - reflexivity.
  - reflexivity.
  - simpl. lia.
  - right. left. discriminate.
Defined.



(** A string that does not start with white space. *)
Lemma lstrip_no_lead (s : str) :
  match lstrip s with [] => True | c :: _ => isspace c = false end.
Proof. apply drop_while_head. Qed.

Lemma lstrip_same (y : str) :
  match y with [] => True | c :: _ => isspace c = false end -> lstrip y = y.
Proof.
  destruct y as [|c y]; [reflexivity|]. intros H. unfold lstrip. simpl.
  now rewrite H.
Qed.

Lemma sub_bullet_marker (y : str) :
  match y with [] => True | c :: _ => isspace c = false end ->
  Re.sub_list_marker (lit "- " ++ y) = y.
Proof.
  intros Hy. unfold Re.sub_list_marker.
  cbn [lit list_ascii_of_string app take_while drop_while].
  change (isspace "-") with false. cbv iota.
  change (Re.one_of "-*+" "-") with true. cbv iota.
  cbn [take_while drop_while].
  change (isspace " ") with true. cbv iota. cbn [app].
  fold (lstrip y). now apply lstrip_same.
Qed.

Lemma sub_number_marker (y : str) :
  match y with [] => True | c :: _ => isspace c = false end ->
  Re.sub_list_marker (lit "1. " ++ y) = y.
Proof.
  intros Hy. unfold Re.sub_list_marker.
  cbn [lit list_ascii_of_string app take_while drop_while].
  change (isspace "1") with false. cbv iota.
  change (Re.one_of "-*+" "1") with false. cbv iota.
  cbn [take_while drop_while].
  change (isdigit "1") with true. cbv iota.
  cbn [take_while drop_while].
  change (isdigit ".") with false. cbv iota.
  change (Ascii.eqb "." ".") with true. cbv iota.
  cbn [take_while drop_while].
  change (isspace " ") with true. cbv iota. cbn [app].
  fold (lstrip y). now apply lstrip_same.
Qed.

(** X29.  The line that [apply_list_prefix] writes, rewritten again: bullet
    and number markers replace each other and themselves and give way to
    a task marker, but of a task marker only the bullet is taken off, so
    that a task item turned into a bullet item stays a task item, and
    turned into a task item again it has two checkboxes. *)
Theorem prefixed_marker_replaced (line : str) :
  let body := lstrip (Re.sub_list_marker line) in
  prefixed ul (prefixed ul line) = prefixed ul line
  /\ prefixed ol (prefixed ol line) = prefixed ol line
  /\ prefixed ul (prefixed ol line) = prefixed ul line
  /\ prefixed ol (prefixed ul line) = prefixed ol line
  /\ prefixed task (prefixed ul line) = prefixed task line
  /\ prefixed task (prefixed ol line) = prefixed task line
  /\ prefixed ul (prefixed task line) = prefixed task line
  /\ prefixed task (prefixed task line) = lit "- [ ] [ ] " ++ body.
Proof.
  intros body.
  pose proof (lstrip_no_lead (Re.sub_list_marker line)) as Hbody.
  fold body in Hbody.
  assert (lstrip body = body) as Hl by (now apply lstrip_same).
  unfold prefixed. fold body.
  repeat split;
    rewrite ?(sub_bullet_marker body Hbody), ?(sub_number_marker body Hbody),
      ?Hl; reflexivity.
Qed.

Lemma separator_after (before : list str) (prev : str) :
  Re.list_pattern prev = true -> separator (before ++ [prev]) = [].
Proof.
  intros H. unfold separator. rewrite rev_app_distr. cbn [rev app].
  rewrite H. now destruct (strip prev).
Qed.

(** X30.  A line that [apply_list_prefix] has written is a list item for
    the method itself and for the editor: it matches [list_pattern], so
    that no empty line is put between it and a line that is prefixed
    next, and [identify_block_type] classifies it as a list item, as
    ['ol'] and ['task'] for these two markers. *)
Theorem prefixed_line_is_list_item (ty : block_type) (line : str)
        (before : list str) :
  In ty [ul; ol; task] ->
  Re.list_pattern (prefixed ty line) = true
  /\ separator (before ++ [prefixed ty line]) = []
  /\ In (identify_block_type (prefixed ty line)) list_types
  /\ identify_block_type (prefixed ol line) = ol
  /\ identify_block_type (prefixed task line) = task.
Proof.
  intros Hty.
  set (body := lstrip (Re.sub_list_marker line)).
  assert (Re.list_pattern (prefixed ty line) = true) as Hpat.
  { destruct Hty as [<-|[<-|[<-|[]]]]; unfold prefixed; fold body;
      reflexivity. }
  assert (identify_block_type (prefixed ol line) = ol) as Hol.
  { unfold prefixed. fold body.
    rewrite (identify_from _ "1" ("."%char :: " "%char :: body)) by reflexivity.
    rewrite heading_head_fails, task_head_fails, ul_head_fails
      by reflexivity.
    reflexivity. }
  assert (identify_block_type (prefixed task line) = task) as Htask.
  { unfold prefixed. fold body.
    rewrite (identify_from _ "-" (lit " [ ] " ++ body)) by reflexivity.
    rewrite heading_head_fails by reflexivity.
    reflexivity. }
  split; [exact Hpat|]. split; [now apply separator_after|].
  split; [|split; assumption].
  destruct Hty as [<-|[<-|[<-|[]]]].
  - unfold prefixed. fold body.
    rewrite (identify_from _ "-" (" "%char :: body)) by reflexivity.
    rewrite heading_head_fails by reflexivity.
    destruct (Re.task _); [right; right; now left|].
    change (Re.ul ("-"%char :: " "%char :: body)) with true. now left.
  - rewrite Hol. right. now left.
  - rewrite Htask. right. right. now left.
Qed.

Lemma prefixed_line_is_list_item_witness :
  separator ([lit "intro"; []] ++ [prefixed ol (lit "  * milk")]) = []
  /\ identify_block_type (prefixed ol (lit "  * milk")) = ol.
Proof.
  destruct (prefixed_line_is_list_item ol (lit "  * milk") [lit "intro"; []])
    as [_ [H2 [_ [H4 _]]]].
  - right. now left.
  - split; [exact H2 | exact H4].
Defined.
